(** * pdf-generator: the result cache and the generation-job ledger

    A shallow embedding of [src/services/cache-manager.ts] (class
    [CacheManager]), of the job-lifecycle part of
    [src/services/pdf-generator.ts] (class [EnhancedPDFGenerator]) and of
    the checks of [src/services/validation-service.ts].

    Conventions of the embedding.
    - JavaScript strings are Rocq [string]s (sequences of 8-bit code units,
      read as the UTF-8 encoding); the default [Array.prototype.sort] order
      is the lexicographic order on code units.
    - JavaScript numbers are integers ([Z]); fractional and non-finite
      numbers are outside the model.
    - Every [async] method runs to completion without interleaving.
    - Language and platform builtins ([JSON.stringify], [JSON.parse],
      [Object.keys], [Map], [fs], [crypto]) are modelled from their
      documented behaviour; everything else follows the source text. *)

From Stdlib Require Import ZArith NArith List String Ascii Bool Lia.
From Stdlib Require Import Permutation Sorting.Sorted.
From Stdlib Require Import Strings.Byte.
From stdpp Require Import gmap strings list sorting.

Local Open Scope string_scope.
Local Open Scope Z_scope.

(* ===================================================================== *)
(** ** JavaScript values                                                  *)
(* ===================================================================== *)

(** The values that flow through the cache: JSON-like data (null, booleans,
    numbers, strings, arrays, plain objects) and Node [Buffer]s (the
    [pdfBuffer] field of a generation result).  A plain object is the list of
    its own enumerable properties in enumeration order. *)
#[warnings="-register-all"]
Inductive value : Type :=
| JNull
| JBool (b : bool)
| JNum (n : Z)
| JStr (s : string)
| JArr (items : list value)
| JObj (props : list (string * value))
| JBuffer (bytes : list byte).

Section value_induction.
Variable P : value -> Prop.
Hypothesis HNull : P JNull.
Hypothesis HBool : forall b, P (JBool b).
Hypothesis HNum : forall n, P (JNum n).
Hypothesis HStr : forall s, P (JStr s).
Hypothesis HArr : forall items, Forall P items -> P (JArr items).
Hypothesis HObj : forall props, Forall (fun kv => P (snd kv)) props -> P (JObj props).
Hypothesis HBuffer : forall bytes, P (JBuffer bytes).

Fixpoint value_nested_ind (v : value) : P v :=
  match v with
  | JNull => HNull
  | JBool b => HBool b
  | JNum n => HNum n
  | JStr s => HStr s
  | JArr items =>
      HArr items
        ((fix all (l : list value) : Forall P l :=
            match l with
            | [] => @Stdlib.Lists.List.Forall_nil _ _
            | x :: l' => @Stdlib.Lists.List.Forall_cons _ _ x l' (value_nested_ind x) (all l')
            end) items)
  | JObj props =>
      HObj props
        ((fix all (l : list (string * value)) : Forall (fun kv => P (snd kv)) l :=
            match l with
            | [] => @Stdlib.Lists.List.Forall_nil _ _
            | kv :: l' =>
                @Stdlib.Lists.List.Forall_cons _ _ kv l' (value_nested_ind (snd kv)) (all l')
            end) props)
  | JBuffer bytes => HBuffer bytes
  end.
End value_induction.

(* ===================================================================== *)
(** ** Decimal rendering of integers                                      *)
(* ===================================================================== *)

Definition digit_char (d : N) : ascii := ascii_of_N (48 + d).

Definition digit_of_char (c : ascii) : option N :=
  let n := N_of_ascii c in
  if ((48 <=? n) && (n <=? 57))%N then Some (n - 48)%N else None.

(** [N_to_digits fuel n acc]: the decimal digits of [n] in front of [acc]. *)
Fixpoint N_to_digits (fuel : nat) (n : N) (acc : string) : string :=
  match fuel with
  | O => acc
  | S fuel' =>
      let acc' := String (digit_char (n mod 10)) acc in
      if (n <? 10)%N then acc' else N_to_digits fuel' (n / 10) acc'
  end.

(** [String(n)] for a non-negative integer. *)
Definition N_to_string (n : N) : string :=
  N_to_digits (S (N.to_nat (N.log2 n))) n "".

(** [String(z)] for an integer. *)
Definition Z_to_string (z : Z) : string :=
  match z with
  | Z0 => "0"
  | Zpos p => N_to_string (Npos p)
  | Zneg p => String "-" (N_to_string (Npos p))
  end.

Fixpoint digits_value (s : string) (acc : N) : option N :=
  match s with
  | EmptyString => Some acc
  | String c s' =>
      match digit_of_char c with
      | Some d => digits_value s' (10 * acc + d)%N
      | None => None
      end
  end.

(* ===================================================================== *)
(** ** Ordinary objects: own property keys and their order                *)
(* ===================================================================== *)

(** A property key is an array index when it is the canonical decimal string
    of an integer in [0, 2^32 - 2].  Such keys are enumerated first, in
    ascending numeric order; all other string keys follow in insertion
    order. *)
Definition array_index (k : string) : option N :=
  match k with
  | EmptyString => None
  | String c rest =>
      if Ascii.eqb c "0" && negb (String.eqb rest "") then None
      else match digits_value k 0 with
           | Some n => if (n <? 4294967295)%N then Some n else None
           | None => None
           end
  end.

Fixpoint obj_get (k : string) (o : list (string * value)) : option value :=
  match o with
  | [] => None
  | (k', v) :: o' => if String.eqb k k' then Some v else obj_get k o'
  end.

Definition obj_keys (o : list (string * value)) : list string := map fst o.

Fixpoint obj_replace (k : string) (v : value) (o : list (string * value))
  : list (string * value) :=
  match o with
  | [] => []
  | (k', v') :: o' =>
      if String.eqb k k' then (k, v) :: o' else (k', v') :: obj_replace k v o'
  end.

Fixpoint obj_insert_index (n : N) (k : string) (v : value)
  (o : list (string * value)) : list (string * value) :=
  match o with
  | [] => [(k, v)]
  | (k', v') :: o' =>
      match array_index k' with
      | Some m =>
          if (m <? n)%N then (k', v') :: obj_insert_index n k v o'
          else (k, v) :: (k', v') :: o'
      | None => (k, v) :: (k', v') :: o'
      end
  end.

(** Defining or updating the own property [k] of an ordinary object
    (CreateDataProperty): an existing key keeps its place, a new array index
    goes among the array indices, any other new key goes last. *)
Definition obj_set (o : list (string * value)) (k : string) (v : value)
  : list (string * value) :=
  match obj_get k o with
  | Some _ => obj_replace k v o
  | None =>
      match array_index k with
      | Some n => obj_insert_index n k v o
      | None => o ++ [(k, v)]
      end
  end.

(** The assignment [o[k] = v] on a plain object.  Assigning to
    ["__proto__"] runs the setter inherited from [Object.prototype]: it
    creates no own property.  Every other key is created or updated as by
    [obj_set]. *)
Definition obj_assign (o : list (string * value)) (k : string) (v : value)
  : list (string * value) :=
  if String.eqb k "__proto__" then o else obj_set o k v.

(** [Object.fromEntries], object spread and [JSON.parse]: the members are
    defined one after the other, starting from [{}]. *)
Definition obj_of_entries (es : list (string * value)) : list (string * value) :=
  fold_left (fun o kv => obj_set o (fst kv) (snd kv)) es [].

(** [keys.sort()] with the default comparator. *)
Definition js_sort (keys : list string) : list string :=
  merge_sort String.le keys.

(** The own enumerable keys of a [Buffer] of length [n]: "0", ..., "n-1". *)
Definition buffer_keys (bytes : list byte) : list string :=
  map (fun i => N_to_string (N.of_nat i)) (seq 0 (length bytes)).

Definition byte_value (b : byte) : value := JNum (Z.of_N (Byte.to_N b)).

Definition buffer_entries (bytes : list byte) : list (string * value) :=
  combine (buffer_keys bytes) (map byte_value bytes).

(* ===================================================================== *)
(** ** cache-manager.ts: sortObjectKeys                                   *)
(* ===================================================================== *)

(** [sortedObj[key] = this.sortObjectKeys(obj[key])] for each [key] of
    [sortedKeys], starting from [{}].  [sorted] holds the recursively sorted
    value of every property of [obj]. *)
Definition assign_sorted (sorted : list (string * value)) (sortedKeys : list string)
  : list (string * value) :=
  fold_left
    (fun sortedObj key =>
       obj_assign sortedObj key (default JNull (obj_get key sorted)))
    sortedKeys [].

Fixpoint sortObjectKeys (obj : value) : value :=
  match obj with
  | JNull | JBool _ | JNum _ | JStr _ => obj
  | JArr items => JArr (map sortObjectKeys items)
  | JObj props =>
      let sortedKeys := js_sort (obj_keys props) in
      JObj (assign_sorted
              (map (fun kv => (fst kv, sortObjectKeys (snd kv))) props)
              sortedKeys)
  | JBuffer bytes =>
      (* typeof is 'object' and Array.isArray is false: the indices are
         the keys and the bytes (numbers) are the values *)
      let sortedKeys := js_sort (buffer_keys bytes) in
      JObj (assign_sorted (buffer_entries bytes) sortedKeys)
  end.

(* ===================================================================== *)
(** ** JSON.stringify                                                     *)
(* ===================================================================== *)

Definition dquote : ascii := ascii_of_N 34.
Definition backslash : ascii := ascii_of_N 92.
Definition newline : ascii := ascii_of_N 10.

Definition hex_digit (n : N) : ascii :=
  if (n <? 10)%N then ascii_of_N (48 + n) else ascii_of_N (87 + n).

(** One code unit of QuoteJSONString. *)
Definition quote_char (c : ascii) : string :=
  let n := N_of_ascii c in
  if (n =? 8)%N then String backslash "b"
  else if (n =? 9)%N then String backslash "t"
  else if (n =? 10)%N then String backslash "n"
  else if (n =? 12)%N then String backslash "f"
  else if (n =? 13)%N then String backslash "r"
  else if (n =? 34)%N then String backslash (String dquote "")
  else if (n =? 92)%N then String backslash (String backslash "")
  else if (n <? 32)%N then
    String backslash
      (String "u" (String "0" (String "0"
         (String (hex_digit (n / 16)) (String (hex_digit (n mod 16)) "")))))
  else String c "".

Fixpoint quote_chars (s : string) : string :=
  match s with
  | EmptyString => EmptyString
  | String c s' => quote_char c ++ quote_chars s'
  end.

Definition JSON_quote (s : string) : string :=
  String dquote (quote_chars s ++ String dquote "").

Fixpoint join (sep : string) (parts : list string) : string :=
  match parts with
  | [] => ""
  | [p] => p
  | p :: rest => p ++ sep ++ join sep rest
  end.

(** The bracketing step shared by SerializeJSONArray and
    SerializeJSONObject: [stepback] is the indentation of the enclosing level
    and [gap] the indentation unit ([""] for the compact form). *)
Definition bracket (opening closing : string) (gap stepback : string)
  (partial : list string) : string :=
  match partial with
  | [] => opening ++ closing
  | _ =>
      if String.eqb gap "" then opening ++ join "," partial ++ closing
      else
        let indent := stepback ++ gap in
        opening ++ String newline indent
          ++ join ("," ++ String newline indent) partial
          ++ String newline stepback ++ closing
  end.

Definition member (gap : string) (key : string) (strP : string) : string :=
  JSON_quote key ++ (if String.eqb gap "" then ":" else ": ") ++ strP.

(** [Buffer.prototype.toJSON]. *)
Definition buffer_toJSON (bytes : list byte) : value :=
  JObj [("type", JStr "Buffer"); ("data", JArr (map byte_value bytes))].

(** SerializeJSONProperty at indentation [indent]. *)
Fixpoint serialize (gap indent : string) (v : value) : string :=
  match v with
  | JNull => "null"
  | JBool true => "true"
  | JBool false => "false"
  | JNum n => Z_to_string n
  | JStr s => JSON_quote s
  | JArr items =>
      bracket "[" "]" gap indent (map (serialize gap (indent ++ gap)) items)
  | JObj props =>
      bracket "{" "}" gap indent
        (map (fun kv => member gap (fst kv) (serialize gap (indent ++ gap) (snd kv)))
             props)
  | JBuffer bytes =>
      (* the value is first replaced by the result of its toJSON method *)
      bracket "{" "}" gap indent
        [ member gap "type" (JSON_quote "Buffer");
          member gap "data"
            (bracket "[" "]" gap (indent ++ gap)
               (map (fun b => Z_to_string (Z.of_N (Byte.to_N b))) bytes)) ]
  end.

(** [JSON.stringify(v)]. *)
Definition JSON_stringify (v : value) : string := serialize "" "" v.

(** [JSON.stringify(v, null, 2)]. *)
Definition JSON_stringify_pretty (v : value) : string := serialize "  " "" v.

(* ===================================================================== *)
(** ** crypto.createHash('sha256').update(s).digest('hex')                *)
(* ===================================================================== *)

Module SHA256.

Definition w32 (x : Z) : Z := x mod 4294967296.
Definition add32 (x y : Z) : Z := w32 (x + y).
Definition rotr (n x : Z) : Z :=
  Z.lor (Z.shiftr x n) (w32 (Z.shiftl x (32 - n))).
Definition not32 (x : Z) : Z := Z.lxor x 4294967295.

Definition Ch (x y z : Z) : Z := Z.lxor (Z.land x y) (Z.land (not32 x) z).
Definition Maj (x y z : Z) : Z :=
  Z.lxor (Z.lxor (Z.land x y) (Z.land x z)) (Z.land y z).
Definition Sigma0 (x : Z) : Z := Z.lxor (Z.lxor (rotr 2 x) (rotr 13 x)) (rotr 22 x).
Definition Sigma1 (x : Z) : Z := Z.lxor (Z.lxor (rotr 6 x) (rotr 11 x)) (rotr 25 x).
Definition sigma0 (x : Z) : Z := Z.lxor (Z.lxor (rotr 7 x) (rotr 18 x)) (Z.shiftr x 3).
Definition sigma1 (x : Z) : Z := Z.lxor (Z.lxor (rotr 17 x) (rotr 19 x)) (Z.shiftr x 10).

(** A 32-bit word from eight hexadecimal digits. *)
Definition hex_digit_value (c : ascii) : Z :=
let n := Z.of_N (N_of_ascii c) in
if n <? 58 then n - 48 else n - 87.

Fixpoint words_of_hex (fuel : nat) (s : string) : list Z :=
match fuel with
| O => []
| S fuel' =>
    match s with
    | EmptyString => []
    | _ =>
        fold_left (fun acc c => 16 * acc + hex_digit_value c)
          (list_ascii_of_string (substring 0 8 s)) 0
        :: words_of_hex fuel' (substring 8 (String.length s - 8) s)
    end
end.

(** The round constants: the first 32 bits of the fractional parts of the
    cube roots of the first 64 primes. *)
Definition K : list Z :=
words_of_hex 64
  ("428a2f9871374491b5c0fbcfe9b5dba53956c25b59f111f1923f82a4ab1c5ed5"
     ++ "d807aa9812835b01243185be550c7dc372be5d7480deb1fe9bdc06a7c19bf174"
     ++ "e49b69c1efbe47860fc19dc6240ca1cc2de92c6f4a7484aa5cb0a9dc76f988da"
     ++ "983e5152a831c66db00327c8bf597fc7c6e00bf3d5a7914706ca635114292967"
     ++ "27b70a852e1b21384d2c6dfc53380d13650a7354766a0abb81c2c92e92722c85"
     ++ "a2bfe8a1a81a664bc24b8b70c76c51a3d192e819d6990624f40e3585106aa070"
     ++ "19a4c1161e376c082748774c34b0bcb5391c0cb34ed8aa4a5b9cca4f682e6ff3"
     ++ "748f82ee78a5636f84c878148cc7020890befffaa4506cebbef9a3f7c67178f2")%string.

(** The initial hash value: the first 32 bits of the fractional parts of the
    square roots of the first 8 primes. *)
Definition H0 : list Z :=
words_of_hex 8 "6a09e667bb67ae853c6ef372a54ff53a510e527f9b05688c1f83d9ab5be0cd19".

Definition bytes_of_string (s : string) : list Z :=
  map (fun c => Z.of_N (N_of_ascii c)) (list_ascii_of_string s).

(** Big-endian bytes of [x], [n] of them. *)
Fixpoint be_bytes (n : nat) (x : Z) : list Z :=
  match n with
  | O => []
  | S n' => be_bytes n' (Z.shiftr x 8) ++ [x mod 256]
  end.

Definition pad (msg : list Z) : list Z :=
  let len := Z.of_nat (length msg) in
  let zeros := Z.to_nat ((55 - len) mod 64) in
  msg ++ [128] ++ repeat 0 zeros ++ be_bytes 8 (8 * len).

Definition be_word (b : list Z) : Z :=
  fold_left (fun acc x => 256 * acc + x) b 0.

(** Cut a list into consecutive chunks of [n] elements. *)
Fixpoint chunks {A} (fuel n : nat) (l : list A) : list (list A) :=
  match fuel with
  | O => []
  | S fuel' =>
      match l with
      | [] => []
      | _ => firstn n l :: chunks fuel' n (skipn n l)
      end
  end.

Definition nthw (ws : list Z) (i : nat) : Z := nth i ws 0.

(** Message schedule: extend the 16 block words to 64. *)
Fixpoint schedule (n : nat) (ws : list Z) : list Z :=
  match n with
  | O => ws
  | S n' =>
      let t := length ws in
      let w := add32 (add32 (sigma1 (nthw ws (t - 2))) (nthw ws (t - 7)))
                     (add32 (sigma0 (nthw ws (t - 15))) (nthw ws (t - 16))) in
      schedule n' (ws ++ [w])
  end.

Definition round (st : list Z) (kw : Z * Z) : list Z :=
  match st with
  | [a; b; c; d; e; f; g; h] =>
      let t1 := add32 (add32 (add32 h (Sigma1 e)) (add32 (Ch e f g) (fst kw))) (snd kw) in
      let t2 := add32 (Sigma0 a) (Maj a b c) in
      [add32 t1 t2; a; b; c; add32 d t1; e; f; g]
  | _ => st
  end.

Definition compress (h : list Z) (block : list Z) : list Z :=
  let ws := schedule 48 (map be_word (chunks 16 4 block)) in
  let st := fold_left round (combine K ws) h in
  map (fun p => add32 (fst p) (snd p)) (combine h st).

Definition digest (msg : list Z) : list Z :=
  let padded := pad msg in
  fold_left compress (chunks (length padded) 64 padded) H0.

Fixpoint hex_word (n : nat) (x : Z) : string :=
  match n with
  | O => ""
  | S n' => hex_word n' (Z.shiftr x 4) ++ String (hex_digit (Z.to_N (x mod 16))) ""
  end.

Definition hex (s : string) : string :=
  fold_right (fun w acc => hex_word 8 w ++ acc) "" (digest (bytes_of_string s)).

End SHA256.

(* ===================================================================== *)
(** ** cache-manager.ts: generateCacheKey                                 *)
(* ===================================================================== *)

Definition generateCacheKey (templateId : string) (data options : value) : string :=
  (* Create a deterministic hash from template ID, data, and options *)
  let payload :=
    JObj [ ("templateId", JStr templateId);
           ("data", sortObjectKeys data);
           ("options", sortObjectKeys options) ] in
  let hash := SHA256.hex (JSON_stringify payload) in
  templateId ++ "_" ++ substring 0 16 hash.

(* ===================================================================== *)
(** ** JSON.parse                                                         *)
(* ===================================================================== *)

Definition is_ws (c : ascii) : bool :=
  let n := N_of_ascii c in
  ((n =? 32) || (n =? 9) || (n =? 10) || (n =? 13))%N.

Fixpoint skip_ws (s : string) : string :=
  match s with
  | String c s' => if is_ws c then skip_ws s' else s
  | EmptyString => s
  end.

(** [expect lit s]: [s] without its prefix [lit]. *)
Fixpoint expect (lit s : string) : option string :=
  match lit, s with
  | EmptyString, _ => Some s
  | String a lit', String b s' => if Ascii.eqb a b then expect lit' s' else None
  | String _ _, EmptyString => None
  end.

Definition hex_value (c : ascii) : option N :=
  let n := N_of_ascii c in
  if ((48 <=? n) && (n <=? 57))%N then Some (n - 48)%N
  else if ((97 <=? n) && (n <=? 102))%N then Some (n - 87)%N
  else if ((65 <=? n) && (n <=? 70))%N then Some (n - 55)%N
  else None.

(** The code unit after a backslash; [\uXXXX] is accepted for code points
    below 128, the only ones QuoteJSONString escapes. *)
Definition parse_escape (s : string) : option (ascii * string) :=
  match s with
  | String c s' =>
      let n := N_of_ascii c in
      if (n =? 34)%N then Some (dquote, s')
      else if (n =? 92)%N then Some (backslash, s')
      else if (n =? 47)%N then Some (ascii_of_N 47, s')
      else if (n =? 98)%N then Some (ascii_of_N 8, s')
      else if (n =? 102)%N then Some (ascii_of_N 12, s')
      else if (n =? 110)%N then Some (ascii_of_N 10, s')
      else if (n =? 114)%N then Some (ascii_of_N 13, s')
      else if (n =? 116)%N then Some (ascii_of_N 9, s')
      else if (n =? 117)%N then
        match s' with
        | String h1 (String h2 (String h3 (String h4 s''))) =>
            match hex_value h1, hex_value h2, hex_value h3, hex_value h4 with
            | Some a, Some b, Some c', Some d =>
                let code := (((a * 16 + b) * 16 + c') * 16 + d)%N in
                if (code <? 128)%N then Some (ascii_of_N code, s'') else None
            | _, _, _, _ => None
            end
        | _ => None
        end
      else None
  | EmptyString => None
  end.

(** The characters of a string literal after its opening quote. *)
Fixpoint parse_chars (fuel : nat) (s : string) : option (string * string) :=
  match fuel with
  | O => None
  | S fuel' =>
      match s with
      | EmptyString => None
      | String c s' =>
          let n := N_of_ascii c in
          if (n =? 34)%N then Some ("", s')
          else if (n =? 92)%N then
            match parse_escape s' with
            | Some (c', s'') =>
                match parse_chars fuel' s'' with
                | Some (str, rest) => Some (String c' str, rest)
                | None => None
                end
            | None => None
            end
          else if (n <? 32)%N then None
          else
            match parse_chars fuel' s' with
            | Some (str, rest) => Some (String c str, rest)
            | None => None
            end
      end
  end.

Definition parse_string (s : string) : option (string * string) :=
  match s with
  | String c s' => if Ascii.eqb c dquote then parse_chars (String.length s) s' else None
  | EmptyString => None
  end.

Fixpoint parse_digits (s : string) (acc : N) : N * string :=
  match s with
  | String c s' =>
      match digit_of_char c with
      | Some d => parse_digits s' (10 * acc + d)%N
      | None => (acc, s)
      end
  | EmptyString => (acc, s)
  end.

(** The text continues with a fraction or an exponent. *)
Definition fraction_follows (rest : string) : bool :=
  match rest with
  | String c _ => Ascii.eqb c "." || Ascii.eqb c "e" || Ascii.eqb c "E"
  | EmptyString => false
  end.

(** An integer literal: [0] or a non-zero digit followed by digits.  A
    fraction or an exponent is outside the model and is rejected. *)
Definition parse_nat (s : string) : option (N * string) :=
  match s with
  | String c s' =>
      match digit_of_char c with
      | Some d =>
          let r := if (d =? 0)%N then (0%N, s') else parse_digits s' d in
          if fraction_follows (snd r) then None else Some r
      | None => None
      end
  | EmptyString => None
  end.

Definition parse_number (s : string) : option (Z * string) :=
  match s with
  | String c s' =>
      if Ascii.eqb c "-" then
        match parse_nat s' with
        | Some (n, rest) => Some (- Z.of_N n, rest)
        | None => None
        end
      else
        match parse_nat s with
        | Some (n, rest) => Some (Z.of_N n, rest)
        | None => None
        end
  | EmptyString => None
  end.

(** [parse_value] reads one JSON value (leading white space allowed);
    [parse_elements] and [parse_members] read the rest of an array or of an
    object after its first element.  Members are entered with [obj_set], so a
    repeated key keeps its last value and array-index keys come first. *)
Fixpoint parse_value (fuel : nat) (s : string) {struct fuel} : option (value * string) :=
  match fuel with
  | O => None
  | S fuel' =>
      match skip_ws s with
      | EmptyString => None
      | String c s' as s0 =>
          let n := N_of_ascii c in
          if (n =? 110)%N then
            match expect "null" s0 with Some r => Some (JNull, r) | None => None end
          else if (n =? 116)%N then
            match expect "true" s0 with Some r => Some (JBool true, r) | None => None end
          else if (n =? 102)%N then
            match expect "false" s0 with Some r => Some (JBool false, r) | None => None end
          else if (n =? 34)%N then
            match parse_string s0 with
            | Some (str, r) => Some (JStr str, r)
            | None => None
            end
          else if (n =? 91)%N then
            match skip_ws s' with
            | String c1 r1 as s1 =>
                if (N_of_ascii c1 =? 93)%N then Some (JArr [], r1)
                else
                  match parse_value fuel' s1 with
                  | Some (v, r) =>
                      match parse_elements fuel' r with
                      | Some (vs, r') => Some (JArr (v :: vs), r')
                      | None => None
                      end
                  | None => None
                  end
            | EmptyString => None
            end
          else if (n =? 123)%N then
            match skip_ws s' with
            | String c1 r1 as s1 =>
                if (N_of_ascii c1 =? 125)%N then Some (JObj [], r1)
                else
                  match parse_member fuel' s1 with
                  | Some (kv, r) =>
                      match parse_members fuel' r with
                      | Some (kvs, r') => Some (JObj (obj_of_entries (kv :: kvs)), r')
                      | None => None
                      end
                  | None => None
                  end
            | EmptyString => None
            end
          else
            match parse_number s0 with
            | Some (z, r) => Some (JNum z, r)
            | None => None
            end
      end
  end

with parse_elements (fuel : nat) (s : string) {struct fuel} : option (list value * string) :=
  match fuel with
  | O => None
  | S fuel' =>
      match skip_ws s with
      | String c s' =>
          let n := N_of_ascii c in
          if (n =? 93)%N then Some ([], s')
          else if (n =? 44)%N then
            match parse_value fuel' s' with
            | Some (v, r) =>
                match parse_elements fuel' r with
                | Some (vs, r') => Some (v :: vs, r')
                | None => None
                end
            | None => None
            end
          else None
      | EmptyString => None
      end
  end

with parse_member (fuel : nat) (s : string) {struct fuel} : option ((string * value) * string) :=
  match fuel with
  | O => None
  | S fuel' =>
      match parse_string (skip_ws s) with
      | Some (k, r) =>
          match skip_ws r with
          | String c r1 =>
              if (N_of_ascii c =? 58)%N then
                match parse_value fuel' r1 with
                | Some (v, r') => Some ((k, v), r')
                | None => None
                end
              else None
          | EmptyString => None
          end
      | None => None
      end
  end

with parse_members (fuel : nat) (s : string) {struct fuel} : option (list (string * value) * string) :=
  match fuel with
  | O => None
  | S fuel' =>
      match skip_ws s with
      | String c s' =>
          let n := N_of_ascii c in
          if (n =? 125)%N then Some ([], s')
          else if (n =? 44)%N then
            match parse_member fuel' s' with
            | Some (kv, r) =>
                match parse_members fuel' r with
                | Some (kvs, r') => Some (kv :: kvs, r')
                | None => None
                end
            | None => None
            end
          else None
      | EmptyString => None
      end
  end.

(** [JSON.parse(text)]; [None] stands for a thrown [SyntaxError]. *)
Definition JSON_parse (text : string) : option value :=
  match parse_value (S (String.length text)) text with
  | Some (v, rest) =>
      match skip_ws rest with
      | EmptyString => Some v
      | String _ _ => None
      end
  | None => None
  end.

(* ===================================================================== *)
(** ** Effects: clock, mutable world, exceptions, divergence              *)
(* ===================================================================== *)

(** The outcome of running a method: it returns [a] in world [w], throws
    [e] in world [w] (a rejected promise), or never returns.  [OutOfFuel] is
    an artefact of bounded recursion and is shown unreachable. *)
Inductive result (W A : Type) : Type :=
| Ok (a : A) (w : W)
| Throw (e : string) (w : W)
| Hang
| OutOfFuel.
Arguments Ok {W A} a w.
Arguments Throw {W A} e w.
Arguments Hang {W A}.
Arguments OutOfFuel {W A}.

(** A computation reads the clock ([Date.now()], constant during one method
    call) and transforms the world. *)
Definition M (W A : Type) : Type := Z -> W -> result W A.

Definition ret {W A} (a : A) : M W A := fun _ w => Ok a w.

Definition bind {W A B} (m : M W A) (k : A -> M W B) : M W B :=
  fun now w =>
    match m now w with
    | Ok a w' => k a now w'
    | Throw e w' => Throw e w'
    | Hang => Hang
    | OutOfFuel => OutOfFuel
    end.

Definition throw {W A} (e : string) : M W A := fun _ w => Throw e w.

(** [try { m } catch (error) { handler error }]. *)
Definition try_catch {W A} (m : M W A) (handler : string -> M W A) : M W A :=
  fun now w =>
    match m now w with
    | Throw e w' => handler e now w'
    | r => r
    end.

Definition hang {W A} : M W A := fun _ _ => Hang.
Definition out_of_fuel {W A} : M W A := fun _ _ => OutOfFuel.
Definition Date_now {W} : M W Z := fun now w => Ok now w.
Definition read {W} : M W W := fun _ w => Ok w w.
Definition write {W} (w : W) : M W unit := fun _ _ => Ok tt w.

Declare Scope js_scope.
Delimit Scope js_scope with js.
Notation "x <- m ;; k" := (bind m (fun x => k))
  (at level 62, m at next level, right associativity) : js_scope.
Notation "m ;;; k" := (bind m (fun _ => k))
  (at level 62, right associativity) : js_scope.
Local Open Scope js_scope.

(* ===================================================================== *)
(** ** Map<string, V>: entries in insertion order                         *)
(* ===================================================================== *)

Section JSMap.
Context {V : Type}.

Fixpoint Map_get (k : string) (m : list (string * V)) : option V :=
  match m with
  | [] => None
  | (k', v) :: m' => if String.eqb k k' then Some v else Map_get k m'
  end.

(** [m.set(k, v)]: an existing key keeps its position. *)
Fixpoint Map_set (k : string) (v : V) (m : list (string * V)) : list (string * V) :=
  match m with
  | [] => [(k, v)]
  | (k', v') :: m' =>
      if String.eqb k k' then (k, v) :: m' else (k', v') :: Map_set k v m'
  end.

Fixpoint Map_delete (k : string) (m : list (string * V)) : list (string * V) :=
  match m with
  | [] => []
  | (k', v') :: m' =>
      if String.eqb k k' then m' else (k', v') :: Map_delete k m'
  end.

Definition Map_keys (m : list (string * V)) : list string := map fst m.
Definition Map_values (m : list (string * V)) : list V := map snd m.
End JSMap.

(* ===================================================================== *)
(** ** The file system under the cache directory                          *)
(* ===================================================================== *)

(** Regular files by path, and the log of the operations issued so far. *)
Inductive fs_op : Type :=
| OpWriteFile (path content : string)
| OpReadFile (path : string)
| OpUnlink (path : string)
| OpRename (oldPath newPath : string).

(** The effect of a completed operation on the files. *)
Definition apply_op (op : fs_op) (fsys : gmap string string) : gmap string string :=
  match op with
  | OpWriteFile path content => <[path := content]> fsys
  | OpReadFile _ => fsys
  | OpUnlink path => delete path fsys
  | OpRename oldPath newPath =>
      match fsys !! oldPath with
      | Some content => <[newPath := content]> (delete oldPath fsys)
      | None => fsys
      end
  end.

Record FS : Type := mkFS {
  files : gmap string string;
  oplog : list fs_op
}.

(** [path.join(dir, name)] for a [name] without separators or dot
    segments (normalisation is not modelled). *)
Definition path_join (dir name : string) : string := dir ++ "/" ++ name.

(* ===================================================================== *)
(** ** cache-manager.ts: CacheEntry and CacheManager                      *)
(* ===================================================================== *)

Module CacheEntry.
Record t : Type := mk {
  key : string;
  data : value;
  timestamp : Z;
  expiresAt : Z;
  size : Z;
  metadata : option value
}.

(** The entry as [JSON.stringify] sees it; an undefined [metadata] is
    left out. *)
Definition toJSON (e : t) : value :=
  JObj ([ ("key", JStr (key e));
          ("data", data e);
          ("timestamp", JNum (timestamp e));
          ("expiresAt", JNum (expiresAt e));
          ("size", JNum (size e)) ]
        ++ match metadata e with
           | Some m => [("metadata", m)]
           | None => []
           end).
End CacheEntry.

Record CacheManager : Type := mkCacheManager {
  cacheDir : string;
  maxSize : Z;      (* Maximum cache size in bytes *)
  defaultTTL : Z;   (* Time to live in milliseconds *)
  cacheIndex : list (string * CacheEntry.t)
}.

(** [new CacheManager(cacheDir, maxSize, defaultTTL)]. *)
Definition new_CacheManager (dir : string) (max ttl : Z) : CacheManager :=
  mkCacheManager dir max ttl [].

(** [new CacheManager(cacheDir)] with the default size and time to live. *)
Definition default_CacheManager (dir : string) : CacheManager :=
  new_CacheManager dir (100 * 1024 * 1024) (24 * 60 * 60 * 1000).

Record World : Type := mkWorld {
  this : CacheManager;
  fs : FS
}.

Definition MAX_SAFE_INTEGER : Z := 9007199254740991.

Definition set_index (idx : list (string * CacheEntry.t)) (w : World) : World :=
  mkWorld (mkCacheManager (cacheDir (this w)) (maxSize (this w))
             (defaultTTL (this w)) idx)
          (fs w).

(** An operation that fails is logged and changes nothing; one that
    succeeds is logged and applied. *)
Definition log_op (op : fs_op) (d : FS) : FS := mkFS (files d) (oplog d ++ [op]).
Definition run_op (op : fs_op) (d : FS) : FS :=
  mkFS (apply_op op (files d)) (oplog d ++ [op]).

(** [fs.writeFile(path, content, 'utf-8')]; the directory exists and is
    writable. *)
Definition fs_writeFile (path content : string) : M World unit :=
  fun _ w => Ok tt (mkWorld (this w) (run_op (OpWriteFile path content) (fs w))).

(** [fs.readFile(path, 'utf-8')]; throws when the file does not exist. *)
Definition fs_readFile (path : string) : M World string :=
  fun _ w =>
    match files (fs w) !! path with
    | Some content => Ok content (mkWorld (this w) (run_op (OpReadFile path) (fs w)))
    | None => Throw "ENOENT" (mkWorld (this w) (log_op (OpReadFile path) (fs w)))
    end.

(** [fs.unlink(path)]; throws when the file does not exist. *)
Definition fs_unlink (path : string) : M World unit :=
  fun _ w =>
    match files (fs w) !! path with
    | Some _ => Ok tt (mkWorld (this w) (run_op (OpUnlink path) (fs w)))
    | None => Throw "ENOENT" (mkWorld (this w) (log_op (OpUnlink path) (fs w)))
    end.

Definition getCacheFilePath (key : string) : M World string :=
  w <- read ;;
  ret (path_join (cacheDir (this w)) (key ++ ".json")).

Definition indexPath (w : World) : string :=
  path_join (cacheDir (this w)) "index.json".

(** [Object.fromEntries(this.cacheIndex.entries())]. *)
Definition indexData (idx : list (string * CacheEntry.t)) : value :=
  JObj (obj_of_entries (map (fun ke => (fst ke, CacheEntry.toJSON (snd ke))) idx)).

Definition saveCacheIndex : M World unit :=
  w <- read ;;
  (* Convert Map to plain object for JSON serialization *)
  fs_writeFile (indexPath w) (JSON_stringify_pretty (indexData (cacheIndex (this w)))).

Definition delete (key : string) : M World bool :=
  w <- read ;;
  match Map_get key (cacheIndex (this w)) with
  | None => ret false
  | Some _ =>
      try_catch
        ((* Delete file *)
         filePath <- getCacheFilePath key ;;
         fs_unlink filePath)
        (fun _ => (* File might not exist, continue anyway *) ret tt) ;;;
      (* Remove from index *)
      w <- read ;;
      write (set_index (Map_delete key (cacheIndex (this w))) w) ;;;
      (* Save index *)
      saveCacheIndex ;;;
      ret true
  end.

(** The scan of [ensureSpace] for the oldest entry: the first entry whose
    timestamp is below every earlier one, starting from
    [Number.MAX_SAFE_INTEGER]. *)
Definition find_oldest (idx : list (string * CacheEntry.t)) : option string * Z :=
  fold_left
    (fun acc ke =>
       if CacheEntry.timestamp (snd ke) <? snd acc
       then (Some (fst ke), CacheEntry.timestamp (snd ke))
       else acc)
    idx (None, MAX_SAFE_INTEGER).

(** [if (oldestKey)]: neither [null] nor the empty string. *)
Definition truthy_key (k : option string) : bool :=
  match k with
  | Some s => negb (String.eqb s "")
  | None => false
  end.

Definition total_size (idx : list (string * CacheEntry.t)) : Z :=
  fold_left (fun currentSize e => currentSize + CacheEntry.size e) (Map_values idx) 0.

(** The [while] loop of [ensureSpace].  An iteration that finds no key to
    remove leaves everything unchanged and so repeats forever. *)
Fixpoint ensureSpace_loop (fuel : nat) (newEntrySize currentSize : Z) : M World unit :=
  w <- read ;;
  if (currentSize + newEntrySize >? maxSize (this w))
     && (0 <? Z.of_nat (length (cacheIndex (this w))))
  then
    (* Find oldest entry *)
    let oldestKey := fst (find_oldest (cacheIndex (this w))) in
    if truthy_key oldestKey then
      let k := default "" oldestKey in
      let removedEntry := Map_get k (cacheIndex (this w)) in
      delete k ;;;
      let currentSize' :=
        match removedEntry with
        | Some e => currentSize - CacheEntry.size e
        | None => currentSize
        end in
      match fuel with
      | S fuel' => ensureSpace_loop fuel' newEntrySize currentSize'
      | O => out_of_fuel
      end
    else hang
  else ret tt.

Definition ensureSpace (newEntrySize : Z) : M World unit :=
  w <- read ;;
  (* Calculate current total size *)
  let currentSize := total_size (cacheIndex (this w)) in
  (* If adding new entry would exceed max size, remove oldest entries *)
  ensureSpace_loop (length (cacheIndex (this w))) newEntrySize currentSize.

(** [Buffer.byteLength(s, 'utf-8')]. *)
Definition byteLength (s : string) : Z := Z.of_nat (String.length s).

Definition set (key : string) (data : value) (ttl : option Z)
  (metadata : option value) : M World unit :=
  w <- read ;;
  let ttl := default (defaultTTL (this w)) ttl in
  let serializedData := JSON_stringify data in
  let size := byteLength serializedData in
  (* Check if we need to make space *)
  ensureSpace size ;;;
  (* Create cache entry *)
  t1 <- Date_now ;;
  t2 <- Date_now ;;
  let entry := CacheEntry.mk key data t1 (t2 + ttl) size metadata in
  (* Write to file *)
  filePath <- getCacheFilePath key ;;
  fs_writeFile filePath serializedData ;;;
  (* Update index *)
  w <- read ;;
  write (set_index (Map_set key entry (cacheIndex (this w))) w) ;;;
  (* Save index *)
  saveCacheIndex.

(** [JSON.parse] inside a [try]: a syntax error is an exception. *)
Definition JSON_parse_or_throw (text : string) : M World value :=
  match JSON_parse text with
  | Some v => ret v
  | None => throw "SyntaxError"
  end.

(** [get] returns [JNull] for JavaScript's [null]. *)
Definition get (key : string) : M World value :=
  w <- read ;;
  match Map_get key (cacheIndex (this w)) with
  | None => ret JNull
  | Some entry =>
      now <- Date_now ;;
      (* Check if expired *)
      if now >? CacheEntry.expiresAt entry then
        delete key ;;;
        ret JNull
      else
        try_catch
          ((* Load data from file *)
           filePath <- getCacheFilePath key ;;
           fileContent <- fs_readFile filePath ;;
           JSON_parse_or_throw fileContent)
          (fun _ =>
             (* File might be corrupted or missing, remove from index *)
             delete key ;;;
             ret JNull)
  end.

Definition cleanupExpired : M World unit :=
  now <- Date_now ;;
  w <- read ;;
  let expiredKeys :=
    Map_keys (List.filter (fun ke => now >? CacheEntry.expiresAt (snd ke))
                (cacheIndex (this w))) in
  fold_left (fun acc key => acc ;;; delete key ;;; ret tt) expiredKeys (ret tt).

(** [for (const x of xs) { await body(x) }]. *)
Fixpoint for_each {W A} (xs : list A) (body : A -> M W unit) : M W unit :=
  match xs with
  | [] => ret tt
  | x :: xs' => body x ;;; for_each xs' body
  end.

Definition clear : M World unit :=
  w <- read ;;
  (* Delete all cache files *)
  for_each (Map_keys (cacheIndex (this w)))
    (fun key =>
       try_catch
         (filePath <- getCacheFilePath key ;;
          fs_unlink filePath)
         (fun _ => (* Ignore errors for individual files *) ret tt)) ;;;
  (* Clear index *)
  w <- read ;;
  write (set_index [] w) ;;;
  (* Save empty index *)
  saveCacheIndex.

Module CacheStats.
(** A [Date] is held by its time value; [None] is [null]. *)
Record t : Type := mk {
  totalEntries : Z;
  totalSize : Z;
  hitRate : Z;
  oldestEntry : option Z;
  newestEntry : option Z
}.
End CacheStats.

(** One turn of the loop of [getStats] on [(totalSize, oldest, newest)]. *)
Definition stats_step (acc : Z * option Z * option Z) (entry : CacheEntry.t)
  : Z * option Z * option Z :=
  let '(totalSize, oldest, newest) := acc in
  let oldest' :=
    match oldest with
    | None => Some (CacheEntry.timestamp entry)
    | Some o => if CacheEntry.timestamp entry <? o
                then Some (CacheEntry.timestamp entry) else oldest
    end in
  let newest' :=
    match newest with
    | None => Some (CacheEntry.timestamp entry)
    | Some n => if CacheEntry.timestamp entry >? n
                then Some (CacheEntry.timestamp entry) else newest
    end in
  (totalSize + CacheEntry.size entry, oldest', newest').

(** [t ? new Date(t) : null]: [null] and [0] are falsy. *)
Definition date_or_null (t : option Z) : option Z :=
  match t with
  | Some n => if n =? 0 then None else Some n
  | None => None
  end.

Definition getStats : M World CacheStats.t :=
  w <- read ;;
  let '(totalSize, oldest, newest) :=
    fold_left stats_step (Map_values (cacheIndex (this w))) (0, None, None) in
  ret (CacheStats.mk
         (Z.of_nat (length (cacheIndex (this w))))
         totalSize
         0 (* Would need to track hits/misses for accurate calculation *)
         (date_or_null oldest)
         (date_or_null newest)).

Definition cleanup : M World unit := cleanupExpired.

(* ===================================================================== *)
(** ** config/templates.ts: the template registry and the job record      *)
(* ===================================================================== *)

Module TemplateConfig.
Record t : Type := mk {
  id : string;
  name : string;
  version : string;
  engine : string;
  templatePath : string;
  stylePath : option string;
  partials : option (list string);
  assets : option (list string);
  schema : string;                 (* the name of the Zod schema *)
  defaultLocale : option string    (* localization?.defaultLocale *)
}.
End TemplateConfig.

Definition TEMPLATE_REGISTRY : list (string * TemplateConfig.t) :=
  [ ("business-plan",
     TemplateConfig.mk "business-plan" "Business Plan Template" "2.0.0" "handlebars"
       "templates/business-plan/index.hbs" (Some "templates/business-plan/styles.css")
       (Some ["header"; "footer"; "financial-table"]) (Some ["logos"; "charts"])
       "BusinessPlanSchema" (Some "es"));
    ("proposal",
     TemplateConfig.mk "proposal" "Business Proposal Template" "1.5.0" "handlebars"
       "templates/proposal/index.hbs" (Some "templates/proposal/styles.css")
       (Some ["header"; "footer"; "service-item"]) (Some ["logos"])
       "ProposalSchema" (Some "es"));
    ("invoice",
     TemplateConfig.mk "invoice" "Professional Invoice Template" "1.0.0" "handlebars"
       "templates/invoice/index.hbs" (Some "templates/invoice/styles.css")
       (Some ["header"; "footer"]) (Some ["logos"])
       "InvoiceSchema" (Some "es"));
    ("report",
     TemplateConfig.mk "report" "Technical Report Template" "1.0.0" "handlebars"
       "templates/report/index.hbs" (Some "templates/report/styles.css")
       (Some ["header"; "footer"]) (Some ["logos"])
       "ReportSchema" (Some "es")) ].

(** The property names every plain object inherits from
    [Object.prototype]; reading one of them from the registry yields a
    function or an object, not [undefined]. *)
Definition Object_prototype_names : list string :=
  [ "constructor"; "__defineGetter__"; "__defineSetter__"; "hasOwnProperty";
    "__lookupGetter__"; "__lookupSetter__"; "isPrototypeOf";
    "propertyIsEnumerable"; "toString"; "valueOf"; "__proto__";
    "toLocaleString" ].

(** What [TEMPLATE_REGISTRY[templateId]] evaluates to. *)
Inductive registry_entry : Type :=
| Template (c : TemplateConfig.t)
| Inherited (name : string).

Definition registry_lookup (templateId : string) : option registry_entry :=
  match Map_get templateId TEMPLATE_REGISTRY with
  | Some c => Some (Template c)
  | None =>
      if existsb (String.eqb templateId) Object_prototype_names
      then Some (Inherited templateId)
      else None
  end.

(** Generation job status *)
Inductive JobStatus : Type := pending | processing | completed | failed.

Module GenerationOptions.
Record t : Type := mk {
  templateId : string;
  data : value;
  locale : option string;
  outputPath : option string;
  returnBuffer : bool;
  quality : option string;
  (* format, margins, printBackground, displayHeaderFooter,
     headerTemplate, footerTemplate, watermark *)
  layout : list (string * value)
}.

Definition optional (k : string) (o : option string) : list (string * value) :=
  match o with
  | Some s => [(k, JStr s)]
  | None => []
  end.

(** The options object as a value. *)
Definition toValue (o : t) : value :=
  JObj ([("templateId", JStr (templateId o)); ("data", data o)]
        ++ layout o
        ++ optional "locale" (locale o)
        ++ optional "outputPath" (outputPath o)
        ++ (if returnBuffer o then [("returnBuffer", JBool true)] else [])
        ++ optional "quality" (quality o)).
End GenerationOptions.

Module GenerationJob.
Record t : Type := mk {
  id : string;
  templateId : string;
  status : JobStatus;
  progress : Z;
  data : value;
  options : GenerationOptions.t;
  result : option value;
  error : option string;
  createdAt : Z;
  updatedAt : Z;
  expiresAt : option Z
}.

Definition set_status (s : JobStatus) (j : t) : t :=
  mk (id j) (templateId j) s (progress j) (data j) (options j) (result j)
     (error j) (createdAt j) (updatedAt j) (expiresAt j).
Definition set_progress (p : Z) (j : t) : t :=
  mk (id j) (templateId j) (status j) p (data j) (options j) (result j)
     (error j) (createdAt j) (updatedAt j) (expiresAt j).
Definition set_result (r : value) (j : t) : t :=
  mk (id j) (templateId j) (status j) (progress j) (data j) (options j) (Some r)
     (error j) (createdAt j) (updatedAt j) (expiresAt j).
Definition set_error (e : string) (j : t) : t :=
  mk (id j) (templateId j) (status j) (progress j) (data j) (options j) (result j)
     (Some e) (createdAt j) (updatedAt j) (expiresAt j).
Definition set_updatedAt (u : Z) (j : t) : t :=
  mk (id j) (templateId j) (status j) (progress j) (data j) (options j) (result j)
     (error j) (createdAt j) u (expiresAt j).
End GenerationJob.

(* ===================================================================== *)
(** ** The collaborators of the generator                                 *)
(* ===================================================================== *)

(** The outcome of [schema.parseAsync(data)]: success, a [ZodError] with its
    issues (path and message), or another exception. *)
Inductive zod_outcome : Type :=
| ZodOk
| ZodError (issues : list (list string * string))
| ZodThrows (message : string).

(** The calls that leave the core: asset loading, template rendering and
    HTML-to-PDF conversion. *)
Inductive boundary_call : Type :=
| CallLoadAssets (groups : list string)
| CallGetEngine (engine : string)
| CallRenderPartials (paths : list string)
| CallRender (templatePath : string) (locale : string)
| CallRenderHTMLToPDF (html : string).

(** The behaviour of the collaborators; [inr message] is a thrown
    [Error(message)]. *)
Record Env : Type := mkEnv {
  schema_parseAsync : string -> value -> zod_outcome;
  assetManager_loadAssets : list string -> option string;
  assetManager_getAssetPaths : list string -> value;
  engine_renderPartials : list string -> option string;
  engine_render : string -> value -> string -> string + string;
  page_pdf : string -> TemplateConfig.t -> GenerationOptions.t -> list byte + string;
  toISOString : Z -> string
}.

Record Generator : Type := mkGenerator {
  jobs : list (string * GenerationJob.t);
  cacheManager : World;
  outputDir : string;
  browser : bool;                    (* [this.browser] is not [null] *)
  calls : list boundary_call
}.

Definition with_jobs (js : list (string * GenerationJob.t)) (g : Generator) : Generator :=
  mkGenerator js (cacheManager g) (outputDir g) (browser g) (calls g).
Definition with_cacheManager (w : World) (g : Generator) : Generator :=
  mkGenerator (jobs g) w (outputDir g) (browser g) (calls g).

(** Run a method of [this.cacheManager]. *)
Definition on_cache {A} (m : M World A) : M Generator A :=
  fun now g =>
    match m now (cacheManager g) with
    | Ok a w => Ok a (with_cacheManager w g)
    | Throw e w => Throw e (with_cacheManager w g)
    | Hang => Hang
    | OutOfFuel => OutOfFuel
    end.

Definition call (c : boundary_call) : M Generator unit :=
  fun _ g => Ok tt (mkGenerator (jobs g) (cacheManager g) (outputDir g) (browser g)
                      (calls g ++ [c])).

(** A mutation of the job object with identifier [jobId]. *)
Definition update_job (jobId : string) (f : GenerationJob.t -> GenerationJob.t)
  : M Generator unit :=
  fun _ g =>
    match Map_get jobId (jobs g) with
    | Some j => Ok tt (with_jobs (Map_set jobId (f j) (jobs g)) g)
    | None => Ok tt g
    end.

Definition or_throw {W} (o : option string) : M W unit :=
  match o with
  | Some e => throw e
  | None => ret tt
  end.

Definition of_sum {W A} (r : A + string) : M W A :=
  match r with
  | inl a => ret a
  | inr e => throw e
  end.

(* ===================================================================== *)
(** ** validation-service.ts                                              *)
(* ===================================================================== *)

Definition formatZodErrors (issues : list (list string * string)) : string :=
  join ", "
    (map (fun err =>
            let path := match fst err with
                        | [] => "root"
                        | _ => join "." (fst err)
                        end in
            path ++ ": " ++ snd err)
         issues).

Definition validateData {W} (env : Env) (data : value) (schema : string) : M W unit :=
  match schema_parseAsync env schema data with
  | ZodOk => ret tt
  | ZodError issues => throw ("Data validation failed: " ++ formatZodErrors issues)
  | ZodThrows message => throw message
  end.

(* ===================================================================== *)
(** ** pdf-generator.ts: EnhancedPDFGenerator                             *)
(* ===================================================================== *)

(** [if (cachedResult)]: JavaScript truthiness. *)
Definition truthy (v : value) : bool :=
  match v with
  | JNull => false
  | JBool b => b
  | JNum n => negb (n =? 0)
  | JStr s => negb (String.eqb s "")
  | JArr _ | JObj _ | JBuffer _ => true
  end.

Definition getTemplateExtension (engine : string) : string :=
  if String.eqb engine "handlebars" then "hbs"
  else if String.eqb engine "ejs" then "ejs"
  else if String.eqb engine "pug" then "pug"
  else "html".

(** [TemplateEngineFactory.getEngine]. *)
Definition getEngine (engineType : string) : M Generator unit :=
  call (CallGetEngine engineType) ;;;
  if String.eqb engineType "handlebars" || String.eqb engineType "ejs"
     || String.eqb engineType "pug"
  then ret tt
  else throw ("Unsupported template engine: " ++ engineType).

(** [path.dirname]: everything before the last separator. *)
Fixpoint dirname_aux (s : string) (acc cur : string) : string :=
  match s with
  | EmptyString => acc
  | String c s' =>
      if Ascii.eqb c "/" then dirname_aux s' (cur) (cur ++ "/")
      else dirname_aux s' acc (cur ++ String c "")
  end.
Definition dirname (p : string) : string := dirname_aux p "." "".

(** [a || b] on optional strings: the empty string is falsy. *)
Definition or_else (a : option string) (b : string) : string :=
  match a with
  | Some s => if String.eqb s "" then b else s
  | None => b
  end.

(** [options.locale || templateConfig.localization?.defaultLocale || 'es']. *)
Definition resolved_locale (options : GenerationOptions.t) (c : TemplateConfig.t) : string :=
  or_else (GenerationOptions.locale options)
    (or_else (TemplateConfig.defaultLocale c) "es").

Definition object_props (v : value) : list (string * value) :=
  match v with
  | JObj props => props
  | _ => []
  end.

Definition prepareTemplateData (env : Env) (now : Z) (data : value)
  (c : TemplateConfig.t) (options : GenerationOptions.t) : value :=
  let quality := or_else (GenerationOptions.quality options) "standard" in
  let branding :=
    match obj_get "metadata" (object_props data) with
    | Some md =>
        match obj_get "branding" (object_props md) with
        | Some b => if truthy b then b else JObj []
        | None => JObj []
        end
    | None => JObj []
    end in
  JObj (obj_of_entries
          (object_props data
           ++ [ ("_template",
                 JObj [ ("id", JStr (TemplateConfig.id c));
                        ("name", JStr (TemplateConfig.name c));
                        ("version", JStr (TemplateConfig.version c)) ]);
                ("_generation",
                 JObj [ ("date", JStr (toISOString env now));
                        ("locale", JStr (resolved_locale options c));
                        ("quality", JStr quality) ]);
                ("_assets",
                 assetManager_getAssetPaths env (default [] (TemplateConfig.assets c)));
                ("_branding", branding) ])).

Definition renderHTMLToPDF (env : Env) (html : string) (c : TemplateConfig.t)
  (options : GenerationOptions.t) : M Generator (list byte) :=
  g <- read ;;
  if negb (browser g) then throw "Browser not initialized"
  else
    call (CallRenderHTMLToPDF html) ;;;
    of_sum (page_pdf env html c options).

(** [/\/Type\s*\/Page\b/g]: the number of matches in the Latin-1 text. *)
Definition is_space (c : ascii) : bool :=
  let n := N_of_ascii c in
  ((n =? 32) || ((9 <=? n) && (n <=? 13)) || (n =? 160))%N.

Definition is_word (c : ascii) : bool :=
  let n := N_of_ascii c in
  (((48 <=? n) && (n <=? 57)) || ((65 <=? n) && (n <=? 90))
   || ((97 <=? n) && (n <=? 122)) || (n =? 95))%N.

Fixpoint skip_spaces (s : string) : string :=
  match s with
  | String c s' => if is_space c then skip_spaces s' else s
  | EmptyString => s
  end.

Definition match_page_object (s : string) : option string :=
  match expect "/Type" s with
  | Some r =>
      match expect "/Page" (skip_spaces r) with
      | Some r' =>
          match r' with
          | String c _ => if is_word c then None else Some r'
          | EmptyString => Some r'
          end
      | None => None
      end
  | None => None
  end.

Fixpoint count_page_objects (fuel : nat) (s : string) : Z :=
  match fuel with
  | O => 0
  | S fuel' =>
      match match_page_object s with
      | Some r => 1 + count_page_objects fuel' r
      | None =>
          match s with
          | String _ s' => count_page_objects fuel' s'
          | EmptyString => 0
          end
      end
  end.

Definition getPageCount (pdfBuffer : list byte) : Z :=
  let pdfString := string_of_list_byte pdfBuffer in
  let n := count_page_objects (S (String.length pdfString)) pdfString in
  if n =? 0 then 1 else n.

Definition output_writeFile (path : string) (pdfBuffer : list byte) : M Generator unit :=
  on_cache (fs_writeFile path (string_of_list_byte pdfBuffer)).

Definition handleOutput (pdfBuffer : list byte) (options : GenerationOptions.t)
  (jobId : string) : M Generator value :=
  let metadata :=
    JObj [ ("fileSize", JNum (Z.of_nat (length pdfBuffer)));
           ("pageCount", JNum (getPageCount pdfBuffer));
           ("generationTime", JNum 0); (* Will be set by caller *)
           ("version", JStr "")        (* Will be set by caller *) ] in
  let result := [("metadata", metadata)] in
  let result :=
    if GenerationOptions.returnBuffer options
    then obj_assign result "pdfBuffer" (JBuffer pdfBuffer) else result in
  g <- read ;;
  let filepath :=
    or_else (GenerationOptions.outputPath options)
      ((* Save to output directory *) path_join (outputDir g) (jobId ++ ".pdf")) in
  output_writeFile filepath pdfBuffer ;;;
  ret (JObj (obj_assign result "pdfPath" (JStr filepath))).

(** [job.status = 'processing'; job.progress = 10; job.updatedAt = new Date()]:
    the part of [processJob] that runs before its first [await]. *)
Definition processJob_begin (jobId : string) : M Generator unit :=
  now <- Date_now ;;
  update_job jobId (fun j =>
    GenerationJob.set_updatedAt now
      (GenerationJob.set_progress 10 (GenerationJob.set_status processing j))).

Definition fail_job (jobId : string) (message : string) : M Generator unit :=
  now <- Date_now ;;
  update_job jobId (fun j =>
    GenerationJob.set_updatedAt now
      (GenerationJob.set_error message (GenerationJob.set_status failed j))).

Definition complete_job (jobId : string) (result : value) : M Generator unit :=
  now <- Date_now ;;
  update_job jobId (fun j =>
    GenerationJob.set_updatedAt now
      (GenerationJob.set_progress 100
         (GenerationJob.set_status completed (GenerationJob.set_result result j)))).

Definition set_job_progress (jobId : string) (p : Z) : M Generator unit :=
  update_job jobId (GenerationJob.set_progress p).

(** The result stored in the job after a render: the output with the
    generation time and the template version filled in. *)
Definition final_result (result : value) (generationTime : Z) (version : string) : value :=
  let metadata :=
    match obj_get "metadata" (object_props result) with
    | Some md => object_props md
    | None => []
    end in
  JObj (obj_set (object_props result) "metadata"
          (JObj (obj_set (obj_set metadata "generationTime" (JNum generationTime))
                   "version" (JStr version)))).

(** Steps 3 to 6 of [processJob]: the cache missed. *)
Definition render_and_store (env : Env) (jobId : string) (c : TemplateConfig.t)
  (options : GenerationOptions.t) (cacheKey : string) (startTime : Z)
  : M Generator unit :=
  (* Step 3: Load and process assets *)
  let assets := default [] (TemplateConfig.assets c) in
  call (CallLoadAssets assets) ;;;
  or_throw (assetManager_loadAssets env assets) ;;;
  set_job_progress jobId 40 ;;;
  (* Step 4: Render template *)
  getEngine (TemplateConfig.engine c) ;;;
  (* Load partials if needed *)
  match TemplateConfig.partials c with
  | Some partials =>
      let partialPaths :=
        map (fun partial =>
               path_join (dirname (TemplateConfig.templatePath c))
                 (partial ++ "." ++ getTemplateExtension (TemplateConfig.engine c)))
            partials in
      call (CallRenderPartials partialPaths) ;;;
      or_throw (engine_renderPartials env partialPaths)
  | None => ret tt
  end ;;;
  set_job_progress jobId 50 ;;;
  (* Prepare template data *)
  now <- Date_now ;;
  let templateData :=
    prepareTemplateData env now (GenerationOptions.data options) c options in
  (* Render template *)
  let locale := resolved_locale options c in
  call (CallRender (TemplateConfig.templatePath c) locale) ;;;
  html <- of_sum (engine_render env (TemplateConfig.templatePath c) templateData locale) ;;
  set_job_progress jobId 70 ;;;
  (* Step 5: Generate PDF *)
  pdfBuffer <- renderHTMLToPDF env html c options ;;
  set_job_progress jobId 90 ;;;
  (* Step 6: Save or return result *)
  result <- handleOutput pdfBuffer options jobId ;;
  (* Cache result *)
  on_cache (set cacheKey result None None) ;;;
  (* Update job with result *)
  now' <- Date_now ;;
  complete_job jobId
    (final_result result (now' - startTime) (TemplateConfig.version c)).

(** The [try] block of [processJob] after the first three assignments.  A
    registry entry inherited from [Object.prototype] has no [schema], so the
    validation call throws a [TypeError]. *)
Definition processJob_steps (env : Env) (jobId : string)
  (templateConfig : registry_entry) (options : GenerationOptions.t)
  : M Generator unit :=
  startTime <- Date_now ;;
  match templateConfig with
  | Inherited _ =>
      throw "Cannot read properties of undefined (reading 'parseAsync')"
  | Template c =>
      (* Step 1: Validate data *)
      validateData env (GenerationOptions.data options) (TemplateConfig.schema c) ;;;
      set_job_progress jobId 20 ;;;
      (* Step 2: Check cache *)
      let cacheKey :=
        generateCacheKey (GenerationOptions.templateId options)
          (GenerationOptions.data options) (GenerationOptions.toValue options) in
      cachedResult <- on_cache (get cacheKey) ;;
      if truthy cachedResult then
        complete_job jobId cachedResult
      else
        set_job_progress jobId 30 ;;;
        render_and_store env jobId c options cacheKey startTime
  end.

(** The remainder of [processJob], which runs after [generatePDF] has
    returned: the steps, the [catch] block of [processJob], and the
    [.catch] attached by [generatePDF], which absorbs the rejection. *)
Definition processJob_continue (env : Env) (jobId : string)
  (templateConfig : registry_entry) (options : GenerationOptions.t)
  : M Generator unit :=
  try_catch
    (try_catch
       (processJob_steps env jobId templateConfig options)
       (fun message => fail_job jobId message ;;; throw message))
    (fun message => fail_job jobId message).

Definition processJob (env : Env) (jobId : string)
  (templateConfig : registry_entry) (options : GenerationOptions.t)
  : M Generator unit :=
  processJob_begin jobId ;;;
  processJob_continue env jobId templateConfig options.

(** [generatePDF] with [jobId] the identifier drawn by [uuidv4()].  It
    returns the job object as it is when the caller resumes: [processJob]
    has been started and has run up to its first [await]. *)
Definition generatePDF (jobId : string) (options : GenerationOptions.t)
  : M Generator GenerationJob.t :=
  match registry_lookup (GenerationOptions.templateId options) with
  | None =>
      throw ("Template '" ++ GenerationOptions.templateId options ++ "' not found")
  | Some templateConfig =>
      now <- Date_now ;;
      (* Create job *)
      let job :=
        GenerationJob.mk jobId (GenerationOptions.templateId options) pending 0
          (GenerationOptions.data options) options None None now now
          (Some (now + 24 * 60 * 60 * 1000)) in
      g <- read ;;
      write (with_jobs (Map_set jobId job (jobs g)) g) ;;;
      (* Process job asynchronously *)
      processJob_begin jobId ;;;
      g <- read ;;
      ret (default job (Map_get jobId (jobs g)))
  end.

(** [generatePDF] followed by the completion of the background job. *)
Definition generatePDF_and_settle (env : Env) (jobId : string)
  (options : GenerationOptions.t) : M Generator GenerationJob.t :=
  job <- generatePDF jobId options ;;
  match registry_lookup (GenerationOptions.templateId options) with
  | Some templateConfig => processJob_continue env jobId templateConfig options
  | None => ret tt
  end ;;;
  ret job.

Definition getJob (jobId : string) : M Generator (option GenerationJob.t) :=
  g <- read ;;
  ret (Map_get jobId (jobs g)).

Definition getJobStatus (jobId : string) : M Generator (option JobStatus) :=
  g <- read ;;
  ret (option_map GenerationJob.status (Map_get jobId (jobs g))).

Definition JobStatus_eqb (a b : JobStatus) : bool :=
  match a, b with
  | pending, pending | processing, processing
  | completed, completed | failed, failed => true
  | _, _ => false
  end.

Definition cancelJob (jobId : string) : M Generator bool :=
  g <- read ;;
  match Map_get jobId (jobs g) with
  | Some job =>
      if JobStatus_eqb (GenerationJob.status job) pending then
        now <- Date_now ;;
        update_job jobId (fun job =>
          GenerationJob.set_updatedAt now
            (GenerationJob.set_error "Job cancelled"
               (GenerationJob.set_status failed job))) ;;;
        ret true
      else ret false
  | None => ret false
  end.

Definition listJobs (status : option JobStatus) : M Generator (list GenerationJob.t) :=
  g <- read ;;
  let allJobs := Map_values (jobs g) in
  ret match status with
      | Some s => List.filter (fun job => JobStatus_eqb (GenerationJob.status job) s) allJobs
      | None => allJobs
      end.

Definition with_browser (b : bool) (g : Generator) : Generator :=
  mkGenerator (jobs g) (cacheManager g) (outputDir g) b (calls g).

(** [job.expiresAt && job.expiresAt < now]. *)
Definition job_expired (now : Z) (job : GenerationJob.t) : bool :=
  match GenerationJob.expiresAt job with
  | Some t => t <? now
  | None => false
  end.

Module EnhancedPDFGenerator.

(** [cleanup] of the generator.  [browser_close] is the outcome of
    [this.browser.close()]: [Some message] when it rejects.  The caches of
    the template engines and of the asset manager, which the method also
    empties, are not part of [Generator]. *)
Definition cleanup (browser_close : option string) : M Generator unit :=
  (* Clean up expired jobs *)
  now <- Date_now ;;
  g <- read ;;
  write (with_jobs
           (fold_left
              (fun js kj =>
                 if job_expired now (snd kj) then Map_delete (fst kj) js else js)
              (jobs g) (jobs g))
           g) ;;;
  (* Cleanup services *)
  on_cache cleanup ;;;
  (* Close browser *)
  g <- read ;;
  if browser g then
    or_throw browser_close ;;;
    g <- read ;;
    write (with_browser false g)
  else ret tt.

End EnhancedPDFGenerator.

(* ===================================================================== *)
(** ** validation-service.ts: validateTemplateOptions                     *)
(* ===================================================================== *)

(** [String(v)], as a template literal applies it.  [None] is the
    [TypeError] raised for an object whose own member "toString" hides the
    inherited method.  The text of a [Buffer] is taken byte for byte. *)
Fixpoint js_String (v : value) : option string :=
  match v with
  | JNull => Some "null"%string
  | JBool true => Some "true"%string
  | JBool false => Some "false"%string
  | JNum n => Some (Z_to_string n)
  | JStr s => Some s
  | JArr items =>
      (* Array.prototype.join: null elements give the empty string *)
      option_map (join ",")
        ((fix elements (items : list value) : option (list string) :=
            match items with
            | [] => Some []
            | item :: rest =>
                match match item with
                      | JNull => Some ""%string
                      | _ => js_String item
                      end, elements rest with
                | Some s, Some ss => Some (s :: ss)
                | _, _ => None
                end
            end) items)
  | JObj props =>
      match obj_get "toString" props with
      | Some _ => None
      | None => Some "[object Object]"%string
      end
  | JBuffer bytes => Some (string_of_list_byte bytes)
  end.

(** [options[name]] for a name that no prototype defines; [None] is
    [undefined]. *)
Definition get_field (options : value) (name : string) : option value :=
  match options with
  | JObj props => obj_get name props
  | _ => None
  end.

Definition truthy_field (o : option value) : bool :=
  match o with
  | Some v => truthy v
  | None => false
  end.

(** [allowed.includes(v)] for an array of strings. *)
Definition includes (allowed : list string) (v : value) : bool :=
  match v with
  | JStr s => existsb (String.eqb s) allowed
  | _ => false
  end.

(** [s.endsWith(suffix)]. *)
Definition endsWith (s suffix : string) : bool :=
  (String.length suffix <=? String.length s)%nat
  && String.eqb
       (substring (String.length s - String.length suffix) (String.length suffix) s)
       suffix.

Definition index_keys (n : nat) : list string :=
  map (fun i => N_to_string (N.of_nat i)) (seq 0 n).

(** [Object.entries(v)] for a value that is neither [null] nor
    [undefined]. *)
Definition Object_entries (v : value) : list (string * value) :=
  match v with
  | JObj props => props
  | JArr items => combine (index_keys (length items)) items
  | JStr s =>
      combine (index_keys (String.length s))
        (map (fun c => JStr (String c "")) (list_ascii_of_string s))
  | JBuffer bytes => buffer_entries bytes
  | JNull | JBool _ | JNum _ => []
  end.

Definition validateTemplateOptions {W} (options : value) : M W bool :=
  match options with
  | JNull => throw "Cannot read properties of null (reading 'templateId')"
  | _ =>
      (* Basic validation for template options *)
      let requiredFields := ["templateId"; "data"]%string in
      for_each requiredFields
        (fun field =>
           if truthy_field (get_field options field) then ret tt
           else throw ("Missing required field: " ++ field)%string) ;;;
      (* Validate format if provided *)
      match get_field options "format" with
      | Some format =>
          if truthy format && negb (includes ["A4"; "Letter"]%string format) then
            match js_String format with
            | Some text =>
                throw ("Invalid format: " ++ text ++ ". Must be 'A4' or 'Letter'")%string
            | None => throw "Cannot convert object to primitive value"
            end
          else ret tt
      | None => ret tt
      end ;;;
      (* Validate quality if provided *)
      match get_field options "quality" with
      | Some quality =>
          if truthy quality
             && negb (includes ["draft"; "standard"; "high"]%string quality) then
            match js_String quality with
            | Some text =>
                throw ("Invalid quality: " ++ text
                       ++ ". Must be 'draft', 'standard', or 'high'")%string
            | None => throw "Cannot convert object to primitive value"
            end
          else ret tt
      | None => ret tt
      end ;;;
      (* Validate margins if provided *)
      match get_field options "margins" with
      | Some margins =>
          if truthy margins then
            let validMarginUnits := ["px"; "cm"; "mm"; "in"]%string in
            for_each (Object_entries margins)
              (fun entry =>
                 match snd entry with
                 | JStr value =>
                     let hasValidUnit := existsb (endsWith value) validMarginUnits in
                     if hasValidUnit then ret tt
                     else throw ("Invalid margin unit for " ++ fst entry ++ ": " ++ value
                                 ++ ". Must end with px, cm, mm, or in")%string
                 | _ => ret tt
                 end)
          else ret tt
      | None => ret tt
      end ;;;
      ret true
  end.

(* ===================================================================== *)
(** ** Notions used by the statements                                     *)
(* ===================================================================== *)

(** Structural (deep) equality of values: plain objects are compared as
    sets of properties, whatever the order of their keys. *)
Fixpoint deep_equal (v w : value) {struct v} : bool :=
  match v, w with
  | JNull, JNull => true
  | JBool a, JBool b => Bool.eqb a b
  | JNum a, JNum b => a =? b
  | JStr a, JStr b => String.eqb a b
  | JArr xs, JArr ys =>
      (fix all2 (xs ys : list value) : bool :=
         match xs, ys with
         | [], [] => true
         | x :: xs', y :: ys' => deep_equal x y && all2 xs' ys'
         | _, _ => false
         end) xs ys
  | JObj ps, JObj qs =>
      (length ps =? length qs)%nat
      && (fix all (ps : list (string * value)) : bool :=
            match ps with
            | [] => true
            | (k, x) :: ps' =>
                match obj_get k qs with
                | Some y => deep_equal x y
                | None => false
                end && all ps'
            end) ps
  | JBuffer a, JBuffer b => bool_decide (map Byte.to_N a = map Byte.to_N b)
  | _, _ => false
  end.

(** An object has each of its own keys once, at every depth. *)
Fixpoint unique_keys (v : value) : bool :=
  match v with
  | JArr items => forallb unique_keys items
  | JObj props =>
      bool_decide (NoDup (obj_keys props))
      && forallb (fun kv => unique_keys (snd kv)) props
  | _ => true
  end.

(** A key that is a plain file name: it contains no path separator. *)
Fixpoint plain_key (k : string) : bool :=
  match k with
  | EmptyString => true
  | String c k' => negb (Ascii.eqb c "/") && plain_key k'
  end.

(** An entry is expired at [now] when [now > expiresAt]. *)
Definition expired (now : Z) (e : CacheEntry.t) : bool :=
  now >? CacheEntry.expiresAt e.

Definition live_entries (now : Z) (idx : list (string * CacheEntry.t))
  : list (string * CacheEntry.t) :=
  List.filter (fun ke => negb (expired now (snd ke))) idx.

(** One call [set(key, data, ttl, metadata)] made when the clock reads
    [call_time]. *)
Record set_call : Type := mkSetCall {
  call_key : string;
  call_data : value;
  call_ttl : option Z;
  call_metadata : option value;
  call_time : Z
}.

Definition serialized_size (data : value) : Z := byteLength (JSON_stringify data).

Fixpoint run_sets (cs : list set_call) (w : World) : result World unit :=
  match cs with
  | [] => Ok tt w
  | c :: cs' =>
      match set (call_key c) (call_data c) (call_ttl c) (call_metadata c)
                (call_time c) w with
      | Ok _ w' => run_sets cs' w'
      | r => r
      end
  end.

(** The empty store: nothing indexed, nothing on disk. *)
Definition empty_store (dir : string) (max ttl : Z) : World :=
  mkWorld (new_CacheManager dir max ttl) (mkFS ∅ []).

(** The paths unlinked by a sequence of operations, in order. *)
Definition unlinked (ops : list fs_op) : list string :=
  flat_map (fun op => match op with OpUnlink p => [p] | _ => [] end) ops.

Definition entry_path (w : World) (key : string) : string :=
  path_join (cacheDir (this w)) (key ++ ".json").

(** [oldest_first new max idx evicted idx']: starting from the index [idx],
    removing the keys [evicted] one at a time leaves [idx']; each removal
    happens only while the entries do not fit together with [new] bytes, and
    takes an entry whose timestamp is the smallest of the index at that
    moment; removals stop as soon as everything fits or nothing is left. *)
Inductive oldest_first (new max : Z)
  : list (string * CacheEntry.t) -> list string -> list (string * CacheEntry.t) -> Prop :=
| oldest_first_done idx :
    total_size idx + new <= max \/ idx = [] ->
    oldest_first new max idx [] idx
| oldest_first_evict idx k e evicted idx' :
    total_size idx + new > max ->
    Map_get k idx = Some e ->
    (forall k' e', Map_get k' idx = Some e' ->
                   CacheEntry.timestamp e <= CacheEntry.timestamp e') ->
    oldest_first new max (Map_delete k idx) evicted idx' ->
    oldest_first new max idx (k :: evicted) idx'.

(** The oldest entry among those not expired at [now]. *)
Definition oldest_live (now : Z) (idx : list (string * CacheEntry.t)) : option string :=
  fst (find_oldest (live_entries now idx)).

(** The state of the files when the machine stops during operation [op]
    after [n] bytes: [fs.writeFile] truncates the file and then writes the
    content from the start; the other operations are atomic. *)
Definition interrupt_op (op : fs_op) (n : nat) (fsys : gmap string string)
  : gmap string string :=
  match op with
  | OpWriteFile path content => <[path := String.substring 0 n content]> fsys
  | _ => fsys
  end.

(** The files when the machine stops during the [i]-th operation of [ops],
    after [n] bytes of it. *)
Fixpoint crash_during (ops : list fs_op) (i n : nat) (fsys : gmap string string)
  : gmap string string :=
  match ops, i with
  | [], _ => fsys
  | op :: _, O => interrupt_op op n fsys
  | op :: ops', S i' => crash_during ops' i' n (apply_op op fsys)
  end.

(** A sequence of operations rewrites [path] atomically when, wherever the
    machine stops, [path] holds either what it held before or what it
    holds after the whole sequence. *)
Definition rewrites_atomically (path : string) (ops : list fs_op)
  (fsys : gmap string string) : Prop :=
  forall i n,
    (i < length ops)%nat ->
    crash_during ops i n fsys !! path = fsys !! path
    \/ crash_during ops i n fsys !! path = fold_left (fun f op => apply_op op f) ops fsys !! path.

(** Write-new-then-replace: the content goes to another path, which is then
    renamed over the target. *)
Definition write_new_then_replace (path : string) (ops : list fs_op) : Prop :=
  exists tmp content,
    tmp <> path /\ ops = [OpWriteFile tmp content; OpRename tmp path].

(** The operations issued by a computation. *)
Definition ops_of {A} (m : M World A) (now : Z) (w : World) : list fs_op :=
  match m now w with
  | Ok _ w' | Throw _ w' => skipn (length (oplog (fs w))) (oplog (fs w'))
  | _ => []
  end.

(* ===================================================================== *)
(** ** Worlds reached by the cache, and auxiliary forms                  *)
(* ===================================================================== *)

(** The two local recursions of [deep_equal], under names: arrays are
    compared position by position, and every member of one object is looked
    up in the other. *)
Fixpoint all2 {A B} (f : A -> B -> bool) (xs : list A) (ys : list B) : bool :=
  match xs, ys with
  | [], [] => true
  | x :: xs', y :: ys' => f x y && all2 f xs' ys'
  | _, _ => false
  end.

Definition same_member (qs : list (string * value)) (kx : string * value) : bool :=
  match obj_get (fst kx) qs with
  | Some y => deep_equal (snd kx) y
  | None => false
  end.

(** The world in which a computation ends ([w] itself if it never ends). *)
Definition world_after {A} (m : M World A) (now : Z) (w : World) : World :=
  match m now w with
  | Ok _ w' | Throw _ w' => w'
  | _ => w
  end.

(** The world after [delete key] found [key] in the index. *)
Definition deleted (key : string) (w : World) : World :=
  let idx := Map_delete key (cacheIndex (this w)) in
  let path := entry_path w key in
  let d := match files (fs w) !! path with
           | Some _ => run_op (OpUnlink path) (fs w)
           | None => log_op (OpUnlink path) (fs w)
           end in
  mkWorld (mkCacheManager (cacheDir (this w)) (maxSize (this w)) (defaultTTL (this w)) idx)
          (run_op (OpWriteFile (indexPath w) (JSON_stringify_pretty (indexData idx))) d).

(** The world after [set] has made room. *)
Definition stored (key : string) (data : value) (ttl : Z)
  (metadata : option value) (now : Z) (w : World) : World :=
  let entry :=
    CacheEntry.mk key data now (now + ttl) (serialized_size data) metadata in
  let idx := Map_set key entry (cacheIndex (this w)) in
  mkWorld (mkCacheManager (cacheDir (this w)) (maxSize (this w)) (defaultTTL (this w)) idx)
          (run_op (OpWriteFile (indexPath w) (JSON_stringify_pretty (indexData idx)))
             (run_op (OpWriteFile (entry_path w key) (JSON_stringify data)) (fs w))).

(** Sizes are byte counts. *)
Definition sizes_nonneg (idx : list (string * CacheEntry.t)) : Prop :=
  Forall (fun ke => 0 <= CacheEntry.size (snd ke)) idx.

(** The indexes on which the eviction loop makes progress: keys are
    distinct (a [Map]) and non-empty, and timestamps are clock readings,
    which lie below [Number.MAX_SAFE_INTEGER]. *)
Definition evictable (idx : list (string * CacheEntry.t)) : Prop :=
  NoDup (Map_keys idx)
  /\ Forall (fun ke => fst ke <> "" /\ CacheEntry.timestamp (snd ke) < MAX_SAFE_INTEGER) idx.

(** The timestamp under which [k] is indexed. *)
Definition timestamp_of (idx : list (string * CacheEntry.t)) (k : string) : Z :=
  match Map_get k idx with
  | Some e => CacheEntry.timestamp e
  | None => 0
  end.

(** What [get] hands back for a payload file holding [text]. *)
Definition parsed_or_null (text : string) : value :=
  match JSON_parse text with
  | Some v => v
  | None => JNull
  end.

(* ===================================================================== *)
(** ** The image of a value under JSON.parse after JSON.stringify        *)
(* ===================================================================== *)

(** What [JSON.parse(JSON.stringify(v))] is: a [Buffer] comes back as the
    plain object made by its [toJSON], and the members of an object are
    entered one after the other into a new object. *)
Fixpoint revive (v : value) : value :=
  match v with
  | JArr items => JArr (map revive items)
  | JObj props => JObj (obj_of_entries (map (fun kv => (fst kv, revive (snd kv))) props))
  | JBuffer bytes => buffer_toJSON bytes
  | _ => v
  end.

(** No [Buffer] anywhere in the value. *)
Fixpoint no_buffer (v : value) : bool :=
  match v with
  | JArr items => forallb no_buffer items
  | JObj props => forallb (fun kv => no_buffer (snd kv)) props
  | JBuffer _ => false
  | _ => true
  end.

(** The text after a number does not continue it. *)
Definition number_end (rest : string) : bool :=
  match rest with
  | EmptyString => true
  | String c _ =>
      match digit_of_char c with
      | Some _ => false
      | None => negb (Ascii.eqb c "." || Ascii.eqb c "e" || Ascii.eqb c "E")
      end
  end.

(** The compact serialization one level at a time: the elements after the
    first, each behind its comma, and one member of an object. *)
Fixpoint sep_concat (parts : list string) : string :=
  match parts with
  | [] => ""
  | p :: parts' => ("," ++ p ++ sep_concat parts')%string
  end.

Definition member_text (kv : string * value) : string :=
  (JSON_quote (fst kv) ++ ":" ++ JSON_stringify (snd kv))%string.

(** The first character of a serialized value starts a value: it is not
    white space and closes neither an array nor an object. *)
Definition starts_value (s : string) : Prop :=
  exists c s', s = String c s' /\ is_ws c = false
               /\ (N_of_ascii c =? 93)%N = false /\ (N_of_ascii c =? 125)%N = false.

(** [v] is read back from its serialization, whatever follows it, with any
    fuel that covers the remaining text. *)
Definition parses (v : value) : Prop :=
  forall fuel rest,
    (String.length (JSON_stringify v ++ rest)%string <= fuel)%nat ->
    number_end rest = true ->
    parse_value fuel (JSON_stringify v ++ rest)%string = Some (revive v, rest).

(* ===================================================================== *)
(** ** Four readings that the code does not meet                         *)
(* ===================================================================== *)

(** C3 as it was claimed: the first entry removed is the oldest of the
    entries that are not expired. *)
Definition evicts_oldest_live_first : Prop :=
  forall (new now : Z) (w : World),
    evictable (cacheIndex (this w)) ->
    total_size (cacheIndex (this w)) + new > maxSize (this w) ->
    cacheIndex (this w) <> [] ->
    head (unlinked (ops_of (ensureSpace new) now w))
    = option_map (entry_path w) (oldest_live now (cacheIndex (this w))).

(** C4 as it was claimed for the instants from [createdAt + ttl] on. *)
Definition absent_from_expiry_instant : Prop :=
  forall (key : string) (data : value) (ttl : Z) (metadata : option value)
         (createdAt now : Z) (w w1 : World),
    set key data (Some ttl) metadata createdAt w = Ok tt w1 ->
    now >= createdAt + ttl ->
    exists w2, get key now w1 = Ok JNull w2
               /\ Map_get key (cacheIndex (this w2)) = None.


(** C9 as it was claimed: every rewrite of the index file is a
    write-new-then-replace, and no interruption leaves a torn index. *)
Definition index_rewrite_is_atomic : Prop :=
  forall (now : Z) (w : World),
    write_new_then_replace (indexPath w) (ops_of saveCacheIndex now w)
    /\ rewrites_atomically (indexPath w) (ops_of saveCacheIndex now w) (files (fs w)).

(* ===================================================================== *)
(** ** Sample values, stores and generators                              *)
(* ===================================================================== *)

(** The same invoice, and the same options, with the keys of every object
    in two different orders. *)
Definition invoice_data : value :=
  JObj [ ("items", JArr [JObj [("amount", JNum 10); ("qty", JNum 1)]]);
         ("total", JNum 10) ].

Definition invoice_data_reordered : value :=
  JObj [ ("total", JNum 10);
         ("items", JArr [JObj [("qty", JNum 1); ("amount", JNum 10)]]) ].

Definition invoice_options : value :=
  JObj [ ("quality", JStr "standard");
         ("margins", JObj [("top", JStr "2cm"); ("left", JStr "1cm")]) ].

Definition invoice_options_reordered : value :=
  JObj [ ("margins", JObj [("left", JStr "1cm"); ("top", JStr "2cm")]);
         ("quality", JStr "standard") ].

(** Three insertions into a store of capacity 10. *)
Definition three_sets : list set_call :=
  [ mkSetCall "a" (JNum 11111) (Some 1) None 0;
    mkSetCall "b" (JNum 22222) None None 5;
    mkSetCall "c" (JStr "xyz") None None 10 ].

Definition after_three_sets : World :=
  match run_sets three_sets (empty_store "./cache" 10 1000) with
  | Ok _ w => w
  | _ => empty_store "./cache" 10 1000
  end.

(** A store of capacity 10 holding "a" (inserted at time 0, expired since
    time 1) and "b" (inserted at time 5, valid until 1005). *)
Definition two_entries : World :=
  world_after (set "b" (JNum 22222) (Some 1000) None) 5
    (world_after (set "a" (JNum 11111) (Some 1) None) 0
       (empty_store "./cache" 10 1000)).

(** A store holding one entry. *)
Definition one_entry : World :=
  world_after (set "a" (JNum 1) None None) 0 (empty_store "./cache" 10 1000).

(** The store [one_entry] after its payload file has been lost. *)
Definition one_entry_payload_lost : World :=
  mkWorld (this one_entry)
    (mkFS (base.delete (entry_path one_entry "a") (files (fs one_entry)))
       (oplog (fs one_entry))).

(** A generation result produced with [returnBuffer]: the PDF bytes are a
    [Buffer]. *)
Definition buffered_result : value :=
  JObj [ ("metadata",
          JObj [ ("fileSize", JNum 4); ("pageCount", JNum 1);
                 ("generationTime", JNum 0); ("version", JStr "") ]);
         ("pdfBuffer", JBuffer [x25; x50; x44; x46]);
         ("pdfPath", JStr "output/job-1.pdf") ].

(** Collaborators that always succeed, and a generator that has just been
    initialized. *)
Definition quiet_env : Env :=
  mkEnv (fun _ _ => ZodOk) (fun _ => None) (fun _ => JObj [])
        (fun _ => None) (fun _ _ _ => inl "<html></html>"%string)
        (fun _ _ _ => inl [x25; x50; x44; x46]) (fun _ => "1970-01-01T00:00:00.000Z"%string).

Definition fresh_generator : Generator :=
  mkGenerator [] (mkWorld (default_CacheManager "./cache") (mkFS ∅ []))
    "./output" true [].


(** A request for an invoice with [returnBuffer], submitted twice: as
    "job-1" at time 0 and as "job-2" at time 1. *)
Definition buffered_request : GenerationOptions.t :=
  GenerationOptions.mk "invoice" (JObj [("total", JNum 10)]) None None true None [].

Definition after_first_job : Generator :=
  match generatePDF_and_settle quiet_env "job-1" buffered_request 0 fresh_generator with
  | Ok _ g => g
  | _ => fresh_generator
  end.

Definition after_second_job : Generator :=
  match generatePDF_and_settle quiet_env "job-2" buffered_request 1 after_first_job with
  | Ok _ g => g
  | _ => after_first_job
  end.

(** The field [field] of the result of job [jobId]. *)
Definition result_field (g : Generator) (jobId field : string) : option value :=
  match Map_get jobId (jobs g) with
  | Some job =>
      match GenerationJob.result job with
      | Some r => obj_get field (object_props r)
      | None => None
      end
  | None => None
  end.

(** The registry entry of "invoice", and the second submission of
    [buffered_request] at the moment [processJob] takes it up: the job is in
    the ledger, still pending. *)
Definition invoice_config : TemplateConfig.t :=
  TemplateConfig.mk "invoice" "Professional Invoice Template" "1.0.0" "handlebars"
    "templates/invoice/index.hbs" (Some "templates/invoice/styles.css")
    (Some ["header"; "footer"]) (Some ["logos"]) "InvoiceSchema" (Some "es").

Definition second_job : GenerationJob.t :=
  GenerationJob.mk "job-2" "invoice" pending 0 (GenerationOptions.data buffered_request)
    buffered_request None None 1 1 (Some (1 + 24 * 60 * 60 * 1000)).

Definition second_submission : Generator :=
  with_jobs (Map_set "job-2" second_job (jobs after_first_job)) after_first_job.

(** The cache key of [buffered_request] and what the cache holds under
    it. *)
Definition buffered_request_key : string :=
  generateCacheKey (GenerationOptions.templateId buffered_request)
    (GenerationOptions.data buffered_request)
    (GenerationOptions.toValue buffered_request).

Definition cached_payload : value :=
  match get buffered_request_key 1 (cacheManager second_submission) with
  | Ok v _ => v
  | _ => JNull
  end.

(* ===================================================================== *)
(** ** Notions used by the further properties                             *)
(* ===================================================================== *)

(** A lower-case hexadecimal digit. *)
Definition is_hex_digit (c : ascii) : bool :=
  let n := N_of_ascii c in
  (((48 <=? n) && (n <=? 57)) || ((97 <=? n) && (n <=? 102)))%N.

(** The world after [fs.readFile(path)] was attempted: the files are as
    they were. *)
Definition after_read (path : string) (w : World) : World :=
  mkWorld (this w) (log_op (OpReadFile path) (fs w)).

(** The world after [delete] was called on each of [keys] in turn. *)
Definition purged (keys : list string) (w : World) : World :=
  fold_left
    (fun w key =>
       match Map_get key (cacheIndex (this w)) with
       | Some _ => deleted key w
       | None => w
       end)
    keys w.

(** The keys of the entries that are expired at [now]. *)
Definition expired_keys (now : Z) (idx : list (string * CacheEntry.t)) : list string :=
  Map_keys (List.filter (fun ke => now >? CacheEntry.expiresAt (snd ke)) idx).

(** The files after an attempt to unlink the payload of each of [keys]. *)
Definition unlink_all (keys : list string) (w : World) : FS :=
  fold_left
    (fun d key =>
       match files d !! entry_path w key with
       | Some _ => run_op (OpUnlink (entry_path w key)) d
       | None => log_op (OpUnlink (entry_path w key)) d
       end)
    keys (fs w).

(** The world after [clear]. *)
Definition cleared (w : World) : World :=
  mkWorld (mkCacheManager (cacheDir (this w)) (maxSize (this w)) (defaultTTL (this w)) [])
    (run_op (OpWriteFile (indexPath w) (JSON_stringify_pretty (indexData [])))
       (unlink_all (Map_keys (cacheIndex (this w))) w)).

(** A call of the public interface of the cache, its result dropped. *)
Inductive cache_call : Type :=
| DoGet (key : string)
| DoSet (key : string) (data : value) (ttl : option Z) (metadata : option value)
| DoDelete (key : string)
| DoClear
| DoCleanup.

Definition run_call (c : cache_call) : M World unit :=
  match c with
  | DoGet key => get key ;;; ret tt
  | DoSet key data ttl metadata => set key data ttl metadata
  | DoDelete key => delete key ;;; ret tt
  | DoClear => clear
  | DoCleanup => cleanup
  end.

(** A sequence of calls, each made at its own clock reading. *)
Fixpoint run_calls (cs : list (Z * cache_call)) (w : World) : result World unit :=
  match cs with
  | [] => Ok tt w
  | (now, c) :: cs' =>
      match run_call c now w with
      | Ok _ w' => run_calls cs' w'
      | r => r
      end
  end.

(** The index file holds the serialization of the index in memory. *)
Definition persisted (w : World) : Prop :=
  files (fs w) !! indexPath w
  = Some (JSON_stringify_pretty (indexData (cacheIndex (this w)))).

(** A key whose payload has a file of its own: it is a plain file name,
    so that [path.join] finds nothing to normalise in it, and it is not
    "index", whose payload path is the path of the index file. *)
Definition own_file (key : string) : Prop :=
  plain_key key = true /\ key <> "index".

(** Every indexed entry is filed under its own key, has a file of its own,
    and that file holds the serialization of its data. *)
Definition backed (w : World) : Prop :=
  NoDup (Map_keys (cacheIndex (this w)))
  /\ Forall (fun ke =>
               own_file (fst ke)
               /\ files (fs w) !! entry_path w (fst ke)
                  = Some (JSON_stringify (CacheEntry.data (snd ke))))
       (cacheIndex (this w)).

(** A call that stores does so under a key with a file of its own. *)
Definition stores_apart (c : cache_call) : Prop :=
  match c with
  | DoSet key _ _ _ => own_file key
  | _ => True
  end.

(** A text that no JSON text begins like: after white space it is at its
    end, or at a character other than the opening of an object, of an
    array or of a string, a minus sign, a digit, and the first letter of
    [true], [false] and [null]. *)
Definition starts_no_value (text : string) : bool :=
  match skip_ws text with
  | EmptyString => true
  | String c _ =>
      let n := N_of_ascii c in
      negb ((n =? 123) || (n =? 91) || (n =? 34) || (n =? 45)
            || ((48 <=? n) && (n <=? 57))
            || (n =? 116) || (n =? 102) || (n =? 110))%N
  end.

(** An object without its own member named "__proto__". *)
Definition without_proto (props : list (string * value)) : list (string * value) :=
  List.filter (fun kv => negb (String.eqb (fst kv) "__proto__")) props.

(** The ledger, output directory and browser of [g'] are those of [g], up
    to the progress of job [jobId], which is in the ledger. *)
Definition progressed (jobId : string) (g g' : Generator) : Prop :=
  outputDir g' = outputDir g
  /\ browser g' = browser g
  /\ exists j p,
      Map_get jobId (jobs g) = Some j
      /\ jobs g' = Map_set jobId (GenerationJob.set_progress p j) (jobs g).

(** The cache of the generator can evict. *)
Definition can_evict (g : Generator) : Prop :=
  evictable (cacheIndex (this (cacheManager g))).

(** [m] returns or throws, and either way leaves the ledger as it was up
    to the progress of [jobId]. *)
Definition quiet {A} (jobId : string) (now : Z) (m : M Generator A) : Prop :=
  forall g,
    can_evict g -> is_Some (Map_get jobId (jobs g)) ->
    match m now g with
    | Ok _ g' | Throw _ g' => can_evict g' /\ progressed jobId g g'
    | _ => False
    end.

(** [m] ends with [complete_job], or throws before it. *)
Definition completes (jobId : string) (now : Z) (m : M Generator unit) : Prop :=
  forall g,
    can_evict g -> is_Some (Map_get jobId (jobs g)) ->
    match m now g with
    | Ok _ g' =>
        exists g1 result,
          can_evict g1 /\ progressed jobId g g1
          /\ complete_job jobId result now g1 = Ok tt g'
    | Throw _ g' => can_evict g' /\ progressed jobId g g'
    | _ => False
    end.

(** The cache, the output directory and the browser of [g'] are those of
    [g]. *)
Definition same_store (g g' : Generator) : Prop :=
  cacheManager g' = cacheManager g
  /\ outputDir g' = outputDir g
  /\ browser g' = browser g.

(** The result object that [handleOutput] builds. *)
Definition output_result (pdfBuffer : list byte) (options : GenerationOptions.t)
  (filepath : string) : value :=
  let metadata :=
    JObj [ ("fileSize", JNum (Z.of_nat (length pdfBuffer)));
           ("pageCount", JNum (getPageCount pdfBuffer));
           ("generationTime", JNum 0);
           ("version", JStr "") ] in
  JObj ([("metadata", metadata)]
        ++ (if GenerationOptions.returnBuffer options
            then [("pdfBuffer", JBuffer pdfBuffer)] else [])
        ++ [("pdfPath", JStr filepath)]).

(** The path [handleOutput] writes to. *)
Definition output_path (g : Generator) (options : GenerationOptions.t)
  (jobId : string) : string :=
  or_else (GenerationOptions.outputPath options)
    (path_join (outputDir g) (jobId ++ ".pdf")).

(** The member [field] of the member "metadata" of a result. *)
Definition metadata_field (result : value) (field : string) : option value :=
  match obj_get "metadata" (object_props result) with
  | Some md => obj_get field (object_props md)
  | None => None
  end.

(** No job of the ledger is pending. *)
Definition no_pending (g : Generator) : Prop :=
  Forall (fun kj => GenerationJob.status (snd kj) <> pending) (jobs g).

(** The state in which a call ends, whether it returns or throws. *)
Definition ends_in {W A} (r : result W A) (w : W) : Prop :=
  match r with
  | Ok _ w' | Throw _ w' => w' = w
  | _ => False
  end.

(** One step of a generator in service: a call of its public interface,
    or the completion of a background job. *)
Inductive generator_step (env : Env) (g g' : Generator) : Prop :=
| step_generatePDF jobId options now :
    ends_in (generatePDF jobId options now g) g' -> generator_step env g g'
| step_background jobId entry options now :
    ends_in (processJob_continue env jobId entry options now g) g' ->
    generator_step env g g'
| step_cancelJob jobId now :
    ends_in (cancelJob jobId now g) g' -> generator_step env g g'
| step_cleanup browser_close now :
    ends_in (EnhancedPDFGenerator.cleanup browser_close now g) g' ->
    generator_step env g g'.

(** [m] leaves no job pending. *)
Definition keeps_no_pending {A} (m : M Generator A) : Prop :=
  forall now g,
    no_pending g ->
    match m now g with
    | Ok _ g' | Throw _ g' => no_pending g'
    | _ => True
    end.

(** The generator after the first two parts of [cleanup]: the expired jobs
    are gone from the ledger and the expired entries from the cache. *)
Definition swept (now : Z) (g : Generator) : Generator :=
  with_cacheManager
    (purged (expired_keys now (cacheIndex (this (cacheManager g)))) (cacheManager g))
    (with_jobs
       (fold_left
          (fun js kj => if job_expired now (snd kj) then Map_delete (fst kj) js else js)
          (jobs g) (jobs g))
       g).

(** [m] returns, or throws a message that satisfies [E]; either way the
    cache is as it was, and so is the ledger up to the progress of
    [jobId]. *)
Definition passes {A} (jobId : string) (now : Z) (E : string -> Prop)
  (m : M Generator A) : Prop :=
  forall g,
    is_Some (Map_get jobId (jobs g)) ->
    match m now g with
    | Ok _ g' => cacheManager g' = cacheManager g /\ progressed jobId g g'
    | Throw e g' => cacheManager g' = cacheManager g /\ progressed jobId g g' /\ E e
    | _ => False
    end.

(** While the browser is missing [m] does not return: it throws a message
    that satisfies [E], with the cache as it was. *)
Definition fails_by {A} (jobId : string) (now : Z) (E : string -> Prop)
  (m : M Generator A) : Prop :=
  forall g,
    browser g = false ->
    is_Some (Map_get jobId (jobs g)) ->
    match m now g with
    | Throw e g' => cacheManager g' = cacheManager g /\ progressed jobId g g' /\ E e
    | _ => False
    end.

(** The collaborators of a render up to the conversion to PDF succeed. *)
Definition renders (env : Env) (c : TemplateConfig.t) : Prop :=
  assetManager_loadAssets env (default [] (TemplateConfig.assets c)) = None
  /\ TemplateConfig.engine c ∈ ["handlebars"; "ejs"; "pug"]
  /\ (forall paths, engine_renderPartials env paths = None)
  /\ (forall data locale,
        exists html,
          engine_render env (TemplateConfig.templatePath c) data locale = inl html).

(** The options that [validateTemplateOptions] lets through. *)
Definition accepted_options (options : value) : Prop :=
  truthy_field (get_field options "templateId") = true
  /\ truthy_field (get_field options "data") = true
  /\ (forall format,
        get_field options "format" = Some format -> truthy format = true ->
        format = JStr "A4" \/ format = JStr "Letter")
  /\ (forall quality,
        get_field options "quality" = Some quality -> truthy quality = true ->
        quality = JStr "draft" \/ quality = JStr "standard" \/ quality = JStr "high")
  /\ (forall margins key value,
        get_field options "margins" = Some margins -> truthy margins = true ->
        (key, JStr value) ∈ Object_entries margins ->
        exists number unit,
          unit ∈ ["px"; "cm"; "mm"; "in"]%string /\ value = (number ++ unit)%string).

(** The complaint of [validateTemplateOptions] about one margin. *)
Definition margin_error (entry : string * value) : option string :=
  match snd entry with
  | JStr value =>
      if existsb (endsWith value) ["px"; "cm"; "mm"; "in"]%string then None
      else Some ("Invalid margin unit for " ++ fst entry ++ ": " ++ value
                 ++ ". Must end with px, cm, mm, or in")%string
  | _ => None
  end.

(** [m] is a check: it returns or throws, and leaves the state alone. *)
Definition checks {W} (m : M W unit) : Prop :=
  forall now w, m now w = Ok tt w \/ exists message, m now w = Throw message w.

(* ===================================================================== *)
(** ** Further sample stores and generators                               *)
(* ===================================================================== *)

(** Four calls on the store [one_entry], and the store they leave. *)
Definition sample_calls : list (Z * cache_call) :=
  [ (5, DoSet "b" (JNum 22222) None None);
    (6, DoGet "a");
    (7, DoDelete "a");
    (8, DoCleanup) ].

Definition after_sample_calls : World :=
  match run_calls sample_calls one_entry with
  | Ok _ w => w
  | _ => one_entry
  end.

(** The store [one_entry] after its payload file was cut off at length 0. *)
Definition one_entry_payload_cut : World :=
  mkWorld (this one_entry)
    (mkFS (<[entry_path one_entry "a" := ""%string]> (files (fs one_entry)))
       (oplog (fs one_entry))).

(** A cache with the default capacity and time to live, nothing stored. *)
Definition default_store : World :=
  mkWorld (default_CacheManager "./cache") (mkFS ∅ []).

(** A schema that rejects every invoice for its missing total. *)
Definition strict_env : Env :=
  mkEnv (fun _ _ => ZodError [(["total"], "Required")]) (fun _ => None) (fun _ => JObj [])
        (fun _ => None) (fun _ _ _ => inl "<html></html>"%string)
        (fun _ _ _ => inl [x25; x50; x44; x46]) (fun _ => "1970-01-01T00:00:00.000Z"%string).

(** The job record that [generatePDF] makes for [buffered_request] at time
    0, once its processing has started. *)
Definition started_job (jobId : string) : GenerationJob.t :=
  GenerationJob.mk jobId "invoice" processing 10 (GenerationOptions.data buffered_request)
    buffered_request None None 0 0 (Some (24 * 60 * 60 * 1000)).

(** Two submissions of [buffered_request], both being processed, and the
    generator once the first has finished. *)
Definition both_submitted : Generator :=
  mkGenerator [("job-1", started_job "job-1"); ("job-2", started_job "job-2")]
    default_store "./output" true [].

Definition first_finished : Generator :=
  match processJob quiet_env "job-1" (Template invoice_config) buffered_request 0
          both_submitted with
  | Ok _ g => g
  | _ => both_submitted
  end.

(** A generator whose browser was never launched, with one submission. *)
Definition without_browser : Generator :=
  mkGenerator [("job-1", started_job "job-1")] default_store "./output" false [].

(** The generator right after the first call of [generatePDF]. *)
Definition after_submission : Generator :=
  match generatePDF "job-1" buffered_request 0 fresh_generator with
  | Ok _ g => g
  | _ => fresh_generator
  end.

(* ===================================================================== *)
(** * Properties                                                          *)
(* ===================================================================== *)

Local Open Scope list_scope.

(* ===================================================================== *)
(** ** Fingerprints do not depend on key order                            *)
(* ===================================================================== *)

(** The digest on the standard test vectors, and one cache key. *)
Example sha256_empty :
  SHA256.hex "" = "e3b0c44298fc1c149afbf4c8996fb92427ae41e4649b934ca495991b7852b855".
Proof. vm_compute. reflexivity. Qed.

Example sha256_abc :
  SHA256.hex "abc" = "ba7816bf8f01cfea414140de5dae2223b00361a396177a9cb410ff61f20015ad".
Proof. vm_compute. reflexivity. Qed.

Example sha256_two_blocks :
  SHA256.hex "abcdbcdecdefdefgefghfghighijhijkijkljklmklmnlmnomnopnopq"
  = "248d6a61d20638b8e5c026930c3e6039a33ce45964ff2167f6ecedd419db06c1".
Proof. vm_compute. reflexivity. Qed.

Example generateCacheKey_invoice :
  generateCacheKey "invoice"
    (JObj [("total", JNum 10); ("items", JArr [JObj [("amount", JNum 10)]])])
    (JObj [("quality", JStr "standard")])
  = "invoice_30e8cfb5130ae4f4".
Proof. vm_compute. reflexivity. Qed.

Lemma js_sort_Permutation (l1 l2 : list string) :
  l1 ≡ₚ l2 -> js_sort l1 = js_sort l2.
Proof.
  intros Hperm. unfold js_sort.
  apply (Sorted_unique String.le).
  - apply Sorted_merge_sort; apply _.
  - apply Sorted_merge_sort; apply _.
  - rewrite !merge_sort_Permutation. exact Hperm.
Qed.

Lemma js_sort_elem (k : string) (l : list string) : k ∈ js_sort l <-> k ∈ l.
Proof. unfold js_sort. by rewrite merge_sort_Permutation. Qed.

Lemma obj_get_Some_elem k v (o : list (string * value)) :
  obj_get k o = Some v -> (k, v) ∈ o.
Proof.
  induction o as [|[k' v'] o IH]; simpl; [discriminate|].
  destruct (String.eqb_spec k k') as [->|Hne].
  - intros [= ->]. apply list_elem_of_here.
  - intros H. apply list_elem_of_further. auto.
Qed.

Lemma obj_get_is_Some k (o : list (string * value)) :
  k ∈ obj_keys o -> is_Some (obj_get k o).
Proof.
  induction o as [|[k' v'] o IH]; simpl.
  - intros H. by apply elem_of_nil in H.
  - intros H. destruct (String.eqb_spec k k') as [->|Hne]; [by eexists|].
    apply elem_of_cons in H as [H|H]; [by destruct Hne|]. auto.
Qed.

Lemma obj_get_keys k v (o : list (string * value)) :
  obj_get k o = Some v -> k ∈ obj_keys o.
Proof.
  intros H. apply obj_get_Some_elem in H.
  unfold obj_keys. apply list_elem_of_fmap. by exists (k, v).
Qed.

Lemma obj_get_map (f : value -> value) k (o : list (string * value)) :
  obj_get k (map (fun kv => (fst kv, f (snd kv))) o) = option_map f (obj_get k o).
Proof.
  induction o as [|[k' v'] o IH]; simpl; [done|].
  by destruct (String.eqb k k').
Qed.

Lemma assign_sorted_ext (s1 s2 : list (string * value)) (keys : list string) :
  (forall k, k ∈ keys -> obj_get k s1 = obj_get k s2) ->
  assign_sorted s1 keys = assign_sorted s2 keys.
Proof.
  unfold assign_sorted. generalize (@nil (string * value)) as acc.
  induction keys as [|k keys IH]; intros acc Hext; simpl; [done|].
  rewrite (Hext k) by apply list_elem_of_here.
  apply IH. intros k' Hk'. apply Hext. by apply list_elem_of_further.
Qed.

Lemma deep_equal_arr xs ys :
  deep_equal (JArr xs) (JArr ys) = all2 deep_equal xs ys.
Proof.
  simpl. revert ys. induction xs as [|x xs IH]; intros [|y ys]; simpl; try done.
  by rewrite IH.
Qed.

Lemma deep_equal_obj ps qs :
  deep_equal (JObj ps) (JObj qs)
  = (length ps =? length qs)%nat && forallb (same_member qs) ps.
Proof.
  simpl. f_equal. induction ps as [|[k x] ps IH]; simpl; [done|].
  by rewrite IH.
Qed.

Lemma to_N_list_inj (a b : list byte) :
  map Byte.to_N a = map Byte.to_N b -> a = b.
Proof.
  revert b. induction a as [|x a IH]; intros [|y b]; simpl; try done.
  intros [= Hxy Hab]. f_equal; [|by apply IH].
  assert (Some x = Some y) as [= ->]; [|done].
  by rewrite <- (Byte.of_to_N x), <- (Byte.of_to_N y), Hxy.
Qed.

Lemma deep_equal_same_keys ps qs :
  NoDup (obj_keys ps) -> NoDup (obj_keys qs) ->
  deep_equal (JObj ps) (JObj qs) = true ->
  obj_keys ps ≡ₚ obj_keys qs.
Proof.
  intros Hps Hqs. rewrite deep_equal_obj.
  intros [Hlen Hall]%andb_true_iff.
  apply Nat.eqb_eq in Hlen.
  apply submseteq_length_Permutation.
  - apply NoDup_submseteq; [done|].
    intros k Hk. unfold obj_keys in Hk.
    apply list_elem_of_fmap in Hk as [[k' x] [-> Hin]].
    rewrite forallb_forall in Hall.
    specialize (Hall (k', x)). rewrite <- list_elem_of_In in Hall.
    specialize (Hall Hin). unfold same_member in Hall. simpl in *.
    destruct (obj_get k' qs) as [y|] eqn:Hget; [|done].
    by eapply obj_get_keys.
  - unfold obj_keys. rewrite !length_map. lia.
Qed.

(** Deep-equal values have the same canonical form. *)
Lemma sortObjectKeys_deep_equal (v : value) :
  forall w,
    unique_keys v = true -> unique_keys w = true ->
    deep_equal v w = true ->
    sortObjectKeys v = sortObjectKeys w.
Proof.
  induction v as [| b | n | s | items IH | props IH | bytes] using value_nested_ind;
    intros [| b' | n' | s' | items' | props' | bytes'] Hv Hw Heq;
    try discriminate Heq.
  - done.
  - simpl in Heq. apply Bool.eqb_prop in Heq. by subst.
  - simpl in Heq. apply Z.eqb_eq in Heq. by subst.
  - simpl in Heq. apply String.eqb_eq in Heq. by subst.
  - rewrite deep_equal_arr in Heq. simpl in Hv, Hw. simpl. f_equal.
    revert items' Hw Heq. induction IH as [|x xs Hx _ IHxs];
      intros [|y ys] Hw Heq; simpl in *; try done.
    apply andb_true_iff in Hv as [Hvx Hvxs].
    apply andb_true_iff in Hw as [Hwy Hwys].
    apply andb_true_iff in Heq as [Hxy Hrest].
    f_equal; [by apply Hx | by apply IHxs].
  - simpl in Hv, Hw.
    apply andb_true_iff in Hv as [Hnd Hv]. apply bool_decide_eq_true in Hnd.
    apply andb_true_iff in Hw as [Hnd' Hw]. apply bool_decide_eq_true in Hnd'.
    pose proof (deep_equal_same_keys _ _ Hnd Hnd' Heq) as Hperm.
    rewrite deep_equal_obj in Heq. apply andb_true_iff in Heq as [_ Hall].
    simpl. f_equal. rewrite (js_sort_Permutation _ _ Hperm).
    apply assign_sorted_ext. intros k Hk.
    rewrite js_sort_elem in Hk. rewrite <- Hperm in Hk.
    rewrite !obj_get_map.
    destruct (obj_get_is_Some _ _ Hk) as [x Hx]. rewrite Hx.
    apply obj_get_Some_elem in Hx.
    rewrite forallb_forall in Hall, Hv, Hw.
    pose proof (Hall (k, x)) as Hmem. rewrite <- list_elem_of_In in Hmem.
    specialize (Hmem Hx). unfold same_member in Hmem. simpl in Hmem.
    destruct (obj_get k props') as [y|] eqn:Hy; [|done]. simpl. f_equal.
    rewrite Forall_forall in IH. apply (IH (k, x) Hx).
    + apply (Hv (k, x)). by apply list_elem_of_In.
    + apply obj_get_Some_elem in Hy. apply (Hw (k, y)). by apply list_elem_of_In.
    + done.
  - simpl in Heq. apply bool_decide_eq_true in Heq.
    apply to_N_list_inj in Heq. by subst.
Qed.

(** C1. For every template identifier and all data and options, two calls
    of [generateCacheKey] on deep-equal inputs (the same keys and values,
    with the keys of any object at any depth in any order) return the same
    key. *)
Theorem generateCacheKey_deterministic
  (templateId : string) (data1 data2 options1 options2 : value) :
  unique_keys data1 = true -> unique_keys data2 = true ->
  unique_keys options1 = true -> unique_keys options2 = true ->
  deep_equal data1 data2 = true ->
  deep_equal options1 options2 = true ->
  generateCacheKey templateId data1 options1
  = generateCacheKey templateId data2 options2.
Proof.
  intros Hd1 Hd2 Ho1 Ho2 Hd Ho. unfold generateCacheKey.
  by rewrite (sortObjectKeys_deep_equal data1 data2),
             (sortObjectKeys_deep_equal options1 options2).
Qed.

(* ===================================================================== *)
(** ** The cache: run equations                                           *)
(* ===================================================================== *)

Lemma saveCacheIndex_run now w :
  saveCacheIndex now w
  = Ok tt (mkWorld (this w)
             (run_op (OpWriteFile (indexPath w)
                        (JSON_stringify_pretty (indexData (cacheIndex (this w)))))
                (fs w))).
Proof. reflexivity. Qed.

Lemma delete_run key now w :
  delete key now w
  = match Map_get key (cacheIndex (this w)) with
    | Some _ => Ok true (deleted key w)
    | None => Ok false w
    end.
Proof.
  unfold delete, bind, read. simpl.
  destruct (Map_get key (cacheIndex (this w))) as [e|]; [|done].
  unfold try_catch, getCacheFilePath, fs_unlink, bind, read, ret, deleted, entry_path.
  simpl. by destruct (files (fs w) !! _).
Qed.

Lemma set_run key data ttl metadata now w :
  set key data ttl metadata now w
  = match ensureSpace (serialized_size data) now w with
    | Ok _ w1 =>
        Ok tt (stored key data (default (defaultTTL (this w)) ttl) metadata now w1)
    | Throw e w1 => Throw e w1
    | Hang => Hang
    | OutOfFuel => OutOfFuel
    end.
Proof.
  unfold set, bind at 1 2. unfold read at 1. simpl.
  fold (serialized_size data).
  by destruct (ensureSpace (serialized_size data) now w) as [[] w1| | |].
Qed.

(* ===================================================================== *)
(** ** Sizes                                                              *)
(* ===================================================================== *)

Lemma fold_size_acc (es : list CacheEntry.t) (a : Z) :
  fold_left (fun currentSize e => currentSize + CacheEntry.size e) es a
  = a + fold_left (fun currentSize e => currentSize + CacheEntry.size e) es 0.
Proof.
  revert a. induction es as [|e es IH]; intros a; simpl; [lia|].
  rewrite (IH (a + _)), (IH (0 + _)). lia.
Qed.

Lemma total_size_nil : total_size [] = 0.
Proof. reflexivity. Qed.

Lemma total_size_cons k e idx :
  total_size ((k, e) :: idx) = CacheEntry.size e + total_size idx.
Proof. unfold total_size. simpl. rewrite fold_size_acc. lia. Qed.

Lemma total_size_nonneg idx : sizes_nonneg idx -> 0 <= total_size idx.
Proof.
  induction 1 as [|[k e] idx He _ IH]; [by rewrite total_size_nil|].
  rewrite total_size_cons. simpl in He. lia.
Qed.

Lemma total_size_delete k idx :
  total_size (Map_delete k idx)
  = total_size idx
    - match Map_get k idx with Some e => CacheEntry.size e | None => 0 end.
Proof.
  induction idx as [|[k' e'] idx IH]; simpl; [done|].
  destruct (String.eqb k k').
  - rewrite total_size_cons. lia.
  - rewrite !total_size_cons, IH. lia.
Qed.

Lemma total_size_set k e idx :
  total_size (Map_set k e idx)
  = total_size idx + CacheEntry.size e
    - match Map_get k idx with Some old => CacheEntry.size old | None => 0 end.
Proof.
  induction idx as [|[k' e'] idx IH]; simpl.
  - rewrite total_size_cons, total_size_nil. lia.
  - destruct (String.eqb k k'); rewrite !total_size_cons; [lia|].
    rewrite IH. lia.
Qed.

Lemma Map_get_elem {V} k (v : V) (m : list (string * V)) :
  Map_get k m = Some v -> (k, v) ∈ m.
Proof.
  induction m as [|[k' v'] m IH]; simpl; [done|].
  destruct (String.eqb_spec k k') as [->|Hne].
  - intros [= ->]. apply list_elem_of_here.
  - intros H. apply list_elem_of_further. auto.
Qed.

Lemma Map_delete_sublist {V} k (m : list (string * V)) :
  sublist (Map_delete k m) m.
Proof.
  induction m as [|[k' v'] m IH]; simpl; [constructor|].
  destruct (String.eqb k k'); [by apply sublist_cons | by apply sublist_skip].
Qed.

Lemma Forall_of_sublist {A} (P : A -> Prop) (l1 l2 : list A) :
  sublist l1 l2 -> Forall P l2 -> Forall P l1.
Proof.
  rewrite !Forall_forall. intros Hsub Hall x Hx.
  apply Hall. by eapply elem_of_sublist.
Qed.

Lemma sizes_nonneg_delete k idx :
  sizes_nonneg idx -> sizes_nonneg (Map_delete k idx).
Proof. unfold sizes_nonneg. apply Forall_of_sublist, Map_delete_sublist. Qed.

Lemma sizes_nonneg_set k e idx :
  0 <= CacheEntry.size e -> sizes_nonneg idx -> sizes_nonneg (Map_set k e idx).
Proof.
  intros He. induction 1 as [|[k' e'] idx He' Hall IH]; simpl.
  - by repeat constructor.
  - destruct (String.eqb k k'); by constructor.
Qed.

Lemma sizes_nonneg_get k e idx :
  sizes_nonneg idx -> Map_get k idx = Some e -> 0 <= CacheEntry.size e.
Proof.
  intros Hall Hget. apply Map_get_elem in Hget.
  unfold sizes_nonneg in Hall. rewrite Forall_forall in Hall.
  by apply (Hall (k, e)).
Qed.

Lemma live_size_le_total now idx :
  sizes_nonneg idx -> total_size (live_entries now idx) <= total_size idx.
Proof.
  induction 1 as [|[k e] idx He Hall IH]; simpl; [done|].
  unfold live_entries in *. simpl. simpl in He.
  pose proof (total_size_nonneg idx Hall).
  destruct (negb (expired now e)); rewrite ?total_size_cons; lia.
Qed.

Lemma serialized_size_nonneg data : 0 <= serialized_size data.
Proof. unfold serialized_size, byteLength. lia. Qed.

(* ===================================================================== *)
(** ** ensureSpace                                                        *)
(* ===================================================================== *)

Lemma loop_condition_false {V} (currentSize new max : Z) (idx : list (string * V)) :
  (currentSize + new >? max) && (0 <? Z.of_nat (length idx)) = false ->
  currentSize + new <= max \/ idx = [].
Proof.
  intros [H|H]%andb_false_iff; [left; lia|right].
  destruct idx; [done|]. simpl in H. discriminate H.
Qed.

Lemma loop_condition_true {V} (currentSize new max : Z) (idx : list (string * V)) :
  (currentSize + new >? max) && (0 <? Z.of_nat (length idx)) = true ->
  currentSize + new > max /\ idx <> [].
Proof.
  intros [H1 H2]%andb_true_iff. split; [lia|]. intros ->. discriminate H2.
Qed.

(** What the loop guarantees whenever it returns: the constants of the
    manager are untouched, the index has only lost entries, and either the
    new entry fits or nothing is left. *)
Lemma ensureSpace_loop_returns fuel new now :
  forall w w',
    ensureSpace_loop fuel new (total_size (cacheIndex (this w))) now w = Ok tt w' ->
    cacheDir (this w') = cacheDir (this w)
    /\ maxSize (this w') = maxSize (this w)
    /\ defaultTTL (this w') = defaultTTL (this w)
    /\ sublist (cacheIndex (this w')) (cacheIndex (this w))
    /\ (total_size (cacheIndex (this w')) + new <= maxSize (this w')
        \/ cacheIndex (this w') = []).
Proof.
  induction fuel as [|fuel IH]; intros w w'.
  - simpl. unfold bind, read. simpl.
    destruct (_ && _) eqn:Hcond.
    + destruct (truthy_key _); [|done].
      rewrite delete_run. by destruct (Map_get _ _).
    + intros [= <-]. repeat split; try done.
      by apply loop_condition_false in Hcond.
  - simpl. unfold bind at 1, read at 1. simpl.
    destruct (_ && _) eqn:Hcond.
    + destruct (truthy_key _); [|done].
      unfold bind at 1. rewrite delete_run.
      set (k := default "" (find_oldest (cacheIndex (this w))).1).
      pose proof (total_size_delete k (cacheIndex (this w))) as Htot.
      destruct (Map_get k (cacheIndex (this w))) as [e|] eqn:Hget.
      * replace (total_size (cacheIndex (this w)) - CacheEntry.size e)
          with (total_size (cacheIndex (this (deleted k w)))) by (simpl; lia).
        intros Hrun. apply IH in Hrun as (Hdir & Hmax & Httl & Hsub & Hfit).
        simpl in *. repeat split; try done.
        etrans; [exact Hsub|]. apply Map_delete_sublist.
      * intros Hrun. by apply IH in Hrun.
    + intros [= <-]. repeat split; try done.
      by apply loop_condition_false in Hcond.
Qed.

Lemma ensureSpace_returns new now w w' :
  ensureSpace new now w = Ok tt w' ->
  cacheDir (this w') = cacheDir (this w)
  /\ maxSize (this w') = maxSize (this w)
  /\ defaultTTL (this w') = defaultTTL (this w)
  /\ sublist (cacheIndex (this w')) (cacheIndex (this w))
  /\ (total_size (cacheIndex (this w')) + new <= maxSize (this w')
      \/ cacheIndex (this w') = []).
Proof. unfold ensureSpace, bind, read. simpl. apply ensureSpace_loop_returns. Qed.

(** After a [set] that returns, everything indexed fits in [maxSize],
    provided the entry alone does. *)
Lemma set_fits key data ttl metadata now w w' :
  sizes_nonneg (cacheIndex (this w)) ->
  serialized_size data <= maxSize (this w) ->
  set key data ttl metadata now w = Ok tt w' ->
  cacheDir (this w') = cacheDir (this w)
  /\ maxSize (this w') = maxSize (this w)
  /\ defaultTTL (this w') = defaultTTL (this w)
  /\ sizes_nonneg (cacheIndex (this w'))
  /\ total_size (cacheIndex (this w')) <= maxSize (this w').
Proof.
  intros Hnn Hsize. rewrite set_run.
  destruct (ensureSpace _ now w) as [[] w1| | |] eqn:Hroom; try done.
  intros [= <-].
  apply ensureSpace_returns in Hroom as (Hdir & Hmax & Httl & Hsub & Hfit).
  assert (sizes_nonneg (cacheIndex (this w1))) as Hnn1.
  { unfold sizes_nonneg. by eapply Forall_of_sublist. }
  simpl. repeat split; try done.
  - apply sizes_nonneg_set; [apply serialized_size_nonneg | done].
  - rewrite total_size_set. simpl.
    destruct Hfit as [Hfit | ->]; [|simpl; rewrite total_size_nil; lia].
    destruct (Map_get key (cacheIndex (this w1))) as [old|] eqn:Hold; [|lia].
    pose proof (sizes_nonneg_get _ _ _ Hnn1 Hold). lia.
Qed.

Lemma run_sets_fit cs :
  forall w w',
    sizes_nonneg (cacheIndex (this w)) ->
    total_size (cacheIndex (this w)) <= maxSize (this w) ->
    Forall (fun c => serialized_size (call_data c) <= maxSize (this w)) cs ->
    run_sets cs w = Ok tt w' ->
    sizes_nonneg (cacheIndex (this w'))
    /\ maxSize (this w') = maxSize (this w)
    /\ total_size (cacheIndex (this w')) <= maxSize (this w').
Proof.
  induction cs as [|c cs IH]; intros w w' Hnn Htot Hall; simpl.
  - by intros [= <-].
  - apply Forall_cons in Hall as [Hc Hall].
    destruct (set _ _ _ _ _ w) as [[] w1| | |] eqn:Hset; try done.
    apply set_fits in Hset as (_ & Hmax & _ & Hnn1 & Hfit1); [|done..].
    intros Hrun. apply IH in Hrun as (Hnn' & Hmax' & Hfit'); try done.
    + split_and!; [done | by rewrite Hmax', Hmax | done].
    + by rewrite Hmax.
Qed.

(** C2. After any finite sequence of [set] calls on a manager that starts
    empty, the sizes of the entries that are not expired (at whatever time
    they are examined) add up to at most [maxSize], provided no inserted
    entry's serialized size alone exceeds [maxSize]. *)
Theorem capacity_invariant
  (dir : string) (max ttl : Z) (cs : list set_call) (w' : World) (now : Z) :
  0 <= max ->
  Forall (fun c => serialized_size (call_data c) <= max) cs ->
  run_sets cs (empty_store dir max ttl) = Ok tt w' ->
  maxSize (this w') = max
  /\ total_size (live_entries now (cacheIndex (this w'))) <= max.
Proof.
  intros Hmax Hall Hrun.
  apply run_sets_fit in Hrun as (Hnn & Hsame & Hfit); simpl; try done.
  - split; [done|]. simpl in *.
    pose proof (live_size_le_total now _ Hnn). lia.
  - constructor.
Qed.

(* ===================================================================== *)
(** ** Eviction order                                                     *)
(* ===================================================================== *)

Lemma find_oldest_from (idx : list (string * CacheEntry.t)) :
  forall (ok : option string) (ot : Z),
    let r := fold_left
               (fun acc ke =>
                  if CacheEntry.timestamp (snd ke) <? snd acc
                  then (Some (fst ke), CacheEntry.timestamp (snd ke))
                  else acc)
               idx (ok, ot) in
    (r = (ok, ot) /\ Forall (fun ke => ot <= CacheEntry.timestamp (snd ke)) idx)
    \/ (exists (k : string) (e : CacheEntry.t),
          r = (Some k, CacheEntry.timestamp e) /\ (k, e) ∈ idx
          /\ CacheEntry.timestamp e < ot
          /\ Forall (fun ke => CacheEntry.timestamp e <= CacheEntry.timestamp (snd ke)) idx).
Proof.
  induction idx as [|[k1 e1] idx IH]; intros ok ot; simpl.
  - left. by split.
  - destruct (Z.ltb_spec (CacheEntry.timestamp e1) ot) as [Hlt|Hge].
    + right. destruct (IH (Some k1) (CacheEntry.timestamp e1)) as [[-> Hall]|(k & e & -> & Hin & Hlt' & Hall)].
      * exists k1, e1. split_and!; [done | apply list_elem_of_here | done |].
        constructor; [simpl; lia | done].
      * exists k, e. split_and!; [done | by apply list_elem_of_further | lia |].
        constructor; [simpl; lia | done].
    + destruct (IH ok ot) as [[-> Hall]|(k & e & -> & Hin & Hlt' & Hall)].
      * left. split; [done|]. by constructor.
      * right. exists k, e. split_and!; [done | by apply list_elem_of_further | done |].
        constructor; [simpl; lia | done].
Qed.

Lemma find_oldest_spec (idx : list (string * CacheEntry.t)) :
  idx <> [] ->
  Forall (fun ke => CacheEntry.timestamp (snd ke) < MAX_SAFE_INTEGER) idx ->
  exists (k : string) (e : CacheEntry.t),
    fst (find_oldest idx) = Some k /\ (k, e) ∈ idx
    /\ Forall (fun ke => CacheEntry.timestamp e <= CacheEntry.timestamp (snd ke)) idx.
Proof.
  intros Hne Hts. unfold find_oldest.
  destruct (find_oldest_from idx None MAX_SAFE_INTEGER)
    as [[_ Hall]|(k & e & -> & Hin & _ & Hall)].
  - destruct idx as [|[k e] idx]; [done|].
    apply Forall_cons in Hts as [Hlt _]. apply Forall_cons in Hall as [Hge _].
    simpl in *. lia.
  - by exists k, e.
Qed.

Lemma Map_get_of_elem {V} k (v : V) (m : list (string * V)) :
  NoDup (Map_keys m) -> (k, v) ∈ m -> Map_get k m = Some v.
Proof.
  induction m as [|[k' v'] m IH]; simpl; intros Hnd Hin.
  - by apply elem_of_nil in Hin.
  - apply NoDup_cons in Hnd as [Hnotin Hnd].
    apply elem_of_cons in Hin as [[= -> ->]|Hin].
    + by rewrite String.eqb_refl.
    + destruct (String.eqb_spec k k') as [->|Hne]; [|by apply IH].
      destruct Hnotin. unfold Map_keys. apply list_elem_of_fmap. by exists (k', v).
Qed.

Lemma Map_delete_length {V} k (v : V) (m : list (string * V)) :
  Map_get k m = Some v -> S (length (Map_delete k m)) = length m.
Proof.
  induction m as [|[k' v'] m IH]; simpl; [done|].
  destruct (String.eqb k k'); [done|]. intros H. simpl. by rewrite IH.
Qed.

Lemma Map_keys_delete_sublist {V} k (m : list (string * V)) :
  sublist (Map_keys (Map_delete k m)) (Map_keys m).
Proof. unfold Map_keys. apply fmap_sublist, Map_delete_sublist. Qed.

Lemma evictable_delete k idx : evictable idx -> evictable (Map_delete k idx).
Proof.
  intros [Hnd Hall]. split.
  - eapply sublist_NoDup; [done | apply Map_keys_delete_sublist].
  - eapply Forall_of_sublist; [apply Map_delete_sublist | done].
Qed.

Lemma Map_get_delete_ne {V} k k' (m : list (string * V)) :
  k <> k' -> Map_get k' (Map_delete k m) = Map_get k' m.
Proof.
  intros Hne. induction m as [|[k1 v1] m IH]; simpl; [done|].
  destruct (String.eqb_spec k k1) as [->|Hk].
  - destruct (String.eqb_spec k' k1) as [->|]; [by destruct Hne | done].
  - simpl. by rewrite IH.
Qed.

Lemma Map_get_delete_eq {V} k (m : list (string * V)) :
  NoDup (Map_keys m) -> Map_get k (Map_delete k m) = None.
Proof.
  induction m as [|[k1 v1] m IH]; simpl; intros Hnd; [done|].
  apply NoDup_cons in Hnd as [Hnotin Hnd].
  destruct (String.eqb_spec k k1) as [->|Hk].
  - destruct (Map_get k1 m) as [v|] eqn:Hget; [|done].
    destruct Hnotin. apply Map_get_elem in Hget.
    unfold Map_keys. apply list_elem_of_fmap. by exists (k1, v).
  - simpl. destruct (String.eqb_spec k k1); [done|]. by apply IH.
Qed.

Lemma StronglySorted_transfer {A} (R R' : A -> A -> Prop) (l : list A) :
  (forall a b, a ∈ l -> b ∈ l -> R a b -> R' a b) ->
  StronglySorted R l -> StronglySorted R' l.
Proof.
  intros Himp Hs. induction Hs as [|a l Hl IH Ha]; constructor.
  - apply IH. intros x y Hx Hy. apply Himp; by apply list_elem_of_further.
  - rewrite Forall_forall in Ha |- *. intros b Hb.
    apply Himp; [apply list_elem_of_here | by apply list_elem_of_further | by apply Ha].
Qed.

(** Consequences of [oldest_first]: the evicted keys were in the index,
    their timestamps are in non-decreasing order, and none of them is newer
    than an entry that stayed. *)
Lemma oldest_first_order new max idx evicted idx' :
  NoDup (Map_keys idx) ->
  oldest_first new max idx evicted idx' ->
  sublist idx' idx
  /\ Forall (fun k => is_Some (Map_get k idx)) evicted
  /\ StronglySorted (fun a b => timestamp_of idx a <= timestamp_of idx b) evicted
  /\ Forall (fun k => forall k' e', Map_get k' idx' = Some e' ->
                       timestamp_of idx k <= CacheEntry.timestamp e') evicted.
Proof.
  intros Hnd Hrel. induction Hrel as [idx _|idx k e evicted idx' _ Hget Hmin _ IH].
  - split_and!; [done | constructor | constructor | constructor].
  - assert (NoDup (Map_keys (Map_delete k idx))) as Hnd'.
    { eapply sublist_NoDup; [done | apply Map_keys_delete_sublist]. }
    destruct (IH Hnd') as (Hsub & Hin & Hsorted & Hkept).
    assert (forall k2, is_Some (Map_get k2 (Map_delete k idx)) ->
                       timestamp_of (Map_delete k idx) k2 = timestamp_of idx k2
                       /\ is_Some (Map_get k2 idx)) as Hsame.
    { intros k2 Hk2. destruct (decide (k = k2)) as [->|Hne].
      - rewrite Map_get_delete_eq in Hk2 by done. by destruct Hk2.
      - unfold timestamp_of. by rewrite Map_get_delete_ne in * by done. }
    assert (sublist idx' idx) as Hsub'.
    { etrans; [exact Hsub | apply Map_delete_sublist]. }
    assert (forall k' e', Map_get k' idx' = Some e' -> Map_get k' idx = Some e') as Hkeep.
    { intros k' e' Hk'. apply Map_get_of_elem; [done|].
      eapply elem_of_sublist; [|exact Hsub']. by apply Map_get_elem. }
    assert (timestamp_of idx k = CacheEntry.timestamp e) as Hk.
    { unfold timestamp_of. by rewrite Hget. }
    split_and!.
    + done.
    + constructor; [by eexists|].
      rewrite Forall_forall in Hin |- *. intros k2 Hk2. by apply Hsame, Hin.
    + constructor.
      * eapply StronglySorted_transfer; [|exact Hsorted].
        intros a b Hae Hbe Hab. rewrite Forall_forall in Hin.
        destruct (Hsame a (Hin a Hae)) as [<- _].
        destruct (Hsame b (Hin b Hbe)) as [<- _]. done.
      * rewrite Forall_forall in Hin |- *. intros k2 Hk2.
        destruct (Hsame k2 (Hin k2 Hk2)) as [_ [e2 He2]].
        rewrite Hk. unfold timestamp_of. rewrite He2. by eapply Hmin.
    + constructor.
      * intros k' e' Hk'. rewrite Hk. eapply Hmin. by apply Hkeep.
      * rewrite Forall_forall in Hkept, Hin |- *. intros k2 Hk2 k' e' Hk'.
        destruct (Hsame k2 (Hin k2 Hk2)) as [<- _]. by eapply Hkept.
Qed.

Lemma unlinked_app ops1 ops2 : unlinked (ops1 ++ ops2) = unlinked ops1 ++ unlinked ops2.
Proof. unfold unlinked. apply flat_map_app. Qed.

Lemma oplog_deleted key w :
  oplog (fs (deleted key w))
  = oplog (fs w)
    ++ [ OpUnlink (entry_path w key);
         OpWriteFile (indexPath w)
           (JSON_stringify_pretty (indexData (Map_delete key (cacheIndex (this w))))) ].
Proof.
  unfold deleted. simpl.
  destruct (files (fs w) !! entry_path w key); simpl; by rewrite <- app_assoc.
Qed.

(** The loop of [ensureSpace] on an evictable index: it returns, and what it
    removed, in the order of the unlink operations it issued, is an
    oldest-first eviction. *)
Lemma ensureSpace_loop_oldest_first fuel new now :
  forall w,
    evictable (cacheIndex (this w)) ->
    (length (cacheIndex (this w)) <= fuel)%nat ->
    exists w' evicted ops,
      ensureSpace_loop fuel new (total_size (cacheIndex (this w))) now w = Ok tt w'
      /\ oldest_first new (maxSize (this w)) (cacheIndex (this w)) evicted
           (cacheIndex (this w'))
      /\ oplog (fs w') = oplog (fs w) ++ ops
      /\ unlinked ops = map (entry_path w) evicted.
Proof.
  induction fuel as [|fuel IH]; intros w Hev Hlen.
  - destruct (cacheIndex (this w)) as [|ke idx] eqn:Hidx; [|simpl in Hlen; lia].
    exists w, [], []. simpl. unfold bind, read. simpl. rewrite Hidx. simpl.
    rewrite andb_false_r. split_and!; [done | | by rewrite app_nil_r | done].
    constructor. by right.
  - simpl. unfold bind at 1, read at 1. simpl.
    destruct (_ && _) eqn:Hcond.
    + apply loop_condition_true in Hcond as [Hover Hne].
      destruct Hev as [Hnd Hall].
      destruct (find_oldest_spec (cacheIndex (this w)) Hne) as (k & e & Hk & Hin & Hmin).
      { eapply Forall_impl; [exact Hall|]. by intros ? [_ ?]. }
      rewrite Hk. simpl.
      assert (k <> "") as Hkne.
      { rewrite Forall_forall in Hall. by destruct (Hall (k, e) Hin). }
      apply String.eqb_neq in Hkne. rewrite Hkne. simpl.
      pose proof (Map_get_of_elem _ _ _ Hnd Hin) as Hget.
      unfold bind at 1. rewrite delete_run, Hget.
      pose proof (total_size_delete k (cacheIndex (this w))) as Htot.
      rewrite Hget in Htot.
      replace (total_size (cacheIndex (this w)) - CacheEntry.size e)
        with (total_size (cacheIndex (this (deleted k w)))) by (simpl; lia).
      destruct (IH (deleted k w)) as (w' & evicted & ops & Hrun & Hrel & Hlog & Hunl).
      { simpl. by apply evictable_delete. }
      { simpl. pose proof (Map_delete_length _ _ _ Hget). lia. }
      exists w', (k :: evicted),
        ([ OpUnlink (entry_path w k);
           OpWriteFile (indexPath w)
             (JSON_stringify_pretty (indexData (Map_delete k (cacheIndex (this w))))) ]
         ++ ops).
      split_and!.
      * exact Hrun.
      * eapply oldest_first_evict; [lia | exact Hget | | exact Hrel].
        intros k' e' Hk'. apply Map_get_elem in Hk'.
        rewrite Forall_forall in Hmin. by apply (Hmin (k', e')).
      * rewrite Hlog, oplog_deleted. by rewrite <- app_assoc.
      * rewrite unlinked_app. simpl. by rewrite Hunl.
    + exists w, [], []. split_and!; [done | | by rewrite app_nil_r | done].
      constructor. by apply loop_condition_false in Hcond.
Qed.

(** C3 (as amended). Whenever [ensureSpace] runs on an index whose keys are
    non-empty, it returns after removing entries one at a time: each removal
    happens only while the total size plus the new entry's size exceeds
    [maxSize], and takes the entry with the smallest timestamp among all
    the entries then in the index, expired or not; so the removed entries
    leave in non-decreasing timestamp order, none newer than an entry that
    stays, and removals stop as soon as the new entry fits or the index is
    empty. *)
Theorem ensureSpace_evicts_oldest_first (new now : Z) (w : World) :
  evictable (cacheIndex (this w)) ->
  exists w' evicted ops,
    ensureSpace new now w = Ok tt w'
    /\ oplog (fs w') = oplog (fs w) ++ ops
    /\ unlinked ops = map (entry_path w) evicted
    /\ oldest_first new (maxSize (this w)) (cacheIndex (this w)) evicted
         (cacheIndex (this w'))
    /\ StronglySorted
         (fun a b => timestamp_of (cacheIndex (this w)) a
                     <= timestamp_of (cacheIndex (this w)) b) evicted
    /\ Forall (fun k => forall k' e', Map_get k' (cacheIndex (this w')) = Some e' ->
                 timestamp_of (cacheIndex (this w)) k <= CacheEntry.timestamp e')
         evicted
    /\ (total_size (cacheIndex (this w')) + new <= maxSize (this w)
        \/ cacheIndex (this w') = []).
Proof.
  intros Hev.
  destruct (ensureSpace_loop_oldest_first (length (cacheIndex (this w))) new now w Hev)
    as (w' & evicted & ops & Hrun & Hrel & Hlog & Hunl); [done|].
  exists w', evicted, ops.
  destruct (oldest_first_order _ _ _ _ _ (proj1 Hev) Hrel) as (_ & _ & Hsorted & Hkept).
  assert (ensureSpace new now w = Ok tt w') as Hrun'.
  { unfold ensureSpace, bind, read. simpl. exact Hrun. }
  split_and!; try done.
  apply ensureSpace_returns in Hrun' as (_ & Hmax & _ & _ & Hfit).
  by rewrite <- Hmax.
Qed.

Lemma two_entries_evictable : evictable (cacheIndex (this two_entries)).
Proof.
  split.
  - apply (bool_decide_unpack _). by vm_compute.
  - repeat constructor; by vm_compute.
Qed.

(** C3 as it was claimed fails on [two_entries]: at time 10 room is needed
    for 5 more bytes, and the expired "a" is removed although "b" is the
    oldest entry that has not expired. *)
Lemma evicts_oldest_live_first_fails :
  head (unlinked (ops_of (ensureSpace 5) 10 two_entries)) = Some "./cache/a.json"
  /\ oldest_live 10 (cacheIndex (this two_entries)) = Some "b"
  /\ ~ evicts_oldest_live_first.
Proof.
  split; [by vm_compute|]. split; [by vm_compute|].
  intros H.
  specialize (H 5 10 two_entries two_entries_evictable
                ltac:(by vm_compute) ltac:(by vm_compute)).
  vm_compute in H. discriminate H.
Qed.

(* ===================================================================== *)
(** ** [set] returns                                                      *)
(* ===================================================================== *)

Lemma Map_get_set_eq {V} k (v : V) (m : list (string * V)) :
  Map_get k (Map_set k v m) = Some v.
Proof.
  induction m as [|[k' v'] m IH]; simpl.
  - by rewrite String.eqb_refl.
  - destruct (String.eqb k k') eqn:Hk; simpl; [by rewrite String.eqb_refl|].
    by rewrite Hk.
Qed.

Lemma Map_get_set_ne {V} k k' (v : V) (m : list (string * V)) :
  k <> k' -> Map_get k' (Map_set k v m) = Map_get k' m.
Proof.
  intros Hne. induction m as [|[k1 v1] m IH]; simpl.
  - destruct (String.eqb_spec k' k) as [->|]; [by destruct Hne | done].
  - destruct (String.eqb_spec k k1) as [->|Hk]; simpl.
    + destruct (String.eqb_spec k' k1) as [->|]; [by destruct Hne | done].
    + by rewrite IH.
Qed.

Lemma Map_keys_set_in {V} k (v : V) (m : list (string * V)) :
  k ∈ Map_keys m -> Map_keys (Map_set k v m) = Map_keys m.
Proof.
  induction m as [|[k' v'] m IH]; simpl; intros Hin.
  - by apply elem_of_nil in Hin.
  - destruct (String.eqb_spec k k') as [->|Hne]; simpl; [done|].
    apply elem_of_cons in Hin as [?|Hin]; [done|]. by rewrite IH.
Qed.

Lemma Map_keys_set_notin {V} k (v : V) (m : list (string * V)) :
  k ∉ Map_keys m -> Map_keys (Map_set k v m) = Map_keys m ++ [k].
Proof.
  induction m as [|[k' v'] m IH]; simpl; intros Hnin; [done|].
  apply not_elem_of_cons in Hnin as [Hne Hnin].
  destruct (String.eqb_spec k k') as [->|_]; simpl; [done|]. by rewrite IH.
Qed.

Lemma NoDup_Map_set {V} k (v : V) (m : list (string * V)) :
  NoDup (Map_keys m) -> NoDup (Map_keys (Map_set k v m)).
Proof.
  intros Hnd. destruct (decide (k ∈ Map_keys m)) as [Hin|Hnin].
  - by rewrite Map_keys_set_in.
  - rewrite Map_keys_set_notin by done.
    apply NoDup_app. split_and!; [done | | apply NoDup_singleton].
    intros x Hx Hx'. apply list_elem_of_singleton in Hx'. by subst.
Qed.

Lemma Forall_Map_set {V} (P : string * V -> Prop) k (v : V) (m : list (string * V)) :
  P (k, v) -> Forall P m -> Forall P (Map_set k v m).
Proof.
  intros Hkv. induction 1 as [|[k' v'] m Hx Hall IH]; simpl.
  - by repeat constructor.
  - destruct (String.eqb k k'); by constructor.
Qed.

(** On an evictable index [set] with a non-empty key returns, and the
    index stays evictable. *)
Lemma set_returns key data ttl metadata now w :
  evictable (cacheIndex (this w)) ->
  key <> "" -> now < MAX_SAFE_INTEGER ->
  exists w', set key data ttl metadata now w = Ok tt w'
             /\ evictable (cacheIndex (this w')).
Proof.
  intros Hev Hkey Hnow. rewrite set_run.
  destruct (ensureSpace_loop_oldest_first (length (cacheIndex (this w)))
              (serialized_size data) now w Hev)
    as (w1 & evicted & ops & Hrun & Hrel & _); [done|].
  assert (ensureSpace (serialized_size data) now w = Ok tt w1) as ->.
  { unfold ensureSpace, bind, read. simpl. exact Hrun. }
  eexists. split; [done|].
  destruct Hev as [Hnd Hall].
  destruct (oldest_first_order _ _ _ _ _ Hnd Hrel) as (Hsub & _).
  simpl. split.
  - apply NoDup_Map_set. eapply sublist_NoDup; [exact Hnd|].
    unfold Map_keys. by apply fmap_sublist.
  - apply Forall_Map_set; [done|]. by eapply Forall_of_sublist.
Qed.

(** Every call of a sequence of [set] calls returns when the keys are
    non-empty and the clock reads below [Number.MAX_SAFE_INTEGER]. *)
Lemma run_sets_returns cs :
  forall w,
    evictable (cacheIndex (this w)) ->
    Forall (fun c => call_key c <> "" /\ call_time c < MAX_SAFE_INTEGER) cs ->
    exists w', run_sets cs w = Ok tt w'.
Proof.
  induction cs as [|c cs IH]; intros w Hev Hall; simpl; [by eexists|].
  apply Forall_cons in Hall as [[Hkey Htime] Hall].
  destruct (set_returns (call_key c) (call_data c) (call_ttl c) (call_metadata c)
              (call_time c) w Hev Hkey Htime) as (w1 & -> & Hev1).
  by apply IH.
Qed.

Lemma find_oldest_key_indexed (idx : list (string * CacheEntry.t)) k :
  fst (find_oldest idx) = Some k -> is_Some (Map_get k idx).
Proof.
  unfold find_oldest.
  destruct (find_oldest_from idx None MAX_SAFE_INTEGER)
    as [[-> _]|(k' & e & -> & Hin & _)]; [done|].
  intros [= <-]. clear -Hin.
  induction idx as [|[k1 e1] idx IH]; [by apply elem_of_nil in Hin|].
  simpl. destruct (String.eqb_spec k' k1) as [->|Hne]; [by eexists|].
  apply elem_of_cons in Hin as [[= ? ?]|Hin]; [done | by apply IH].
Qed.

(** The fuel given to the loop by [ensureSpace], the number of indexed
    entries, is never exhausted: every iteration that goes on removes one
    entry. *)
Lemma ensureSpace_loop_fuel fuel new now :
  forall currentSize w,
    (length (cacheIndex (this w)) <= fuel)%nat ->
    ensureSpace_loop fuel new currentSize now w <> OutOfFuel.
Proof.
  induction fuel as [|fuel IH]; intros currentSize w Hlen;
    simpl; unfold bind at 1, read at 1; simpl.
  - destruct (cacheIndex (this w)); [|simpl in Hlen; lia].
    simpl. by rewrite andb_false_r.
  - destruct (_ && _); [|done]. destruct (truthy_key _) eqn:Hkey; [|done].
    destruct (fst (find_oldest (cacheIndex (this w)))) as [k|] eqn:Hk; [|done].
    destruct (find_oldest_key_indexed _ _ Hk) as [e He]. simpl.
    unfold bind at 1. rewrite delete_run, He. apply IH. simpl.
    pose proof (Map_delete_length _ _ _ He). lia.
Qed.

Lemma set_never_out_of_fuel key data ttl metadata now w :
  set key data ttl metadata now w <> OutOfFuel.
Proof.
  rewrite set_run.
  pose proof (ensureSpace_loop_fuel (length (cacheIndex (this w)))
                (serialized_size data) now (total_size (cacheIndex (this w))) w
                ltac:(done)) as Hfuel.
  unfold ensureSpace, bind at 1, read at 1. simpl.
  by destruct (ensureSpace_loop _ _ _ now w) as [[] w1| | |].
Qed.

Lemma set_never_throws key data ttl metadata now w e w' :
  set key data ttl metadata now w <> Throw e w'.
Proof.
  rewrite set_run.
  assert (forall fuel cur w0, ensureSpace_loop fuel (serialized_size data) cur now w0
                              <> Throw e w') as Hloop.
  { induction fuel as [|fuel IH]; intros cur w0; simpl; unfold bind at 1, read at 1; simpl.
    - destruct (_ && _); [|done]. destruct (truthy_key _); [|done].
      unfold bind. rewrite delete_run. by destruct (Map_get _ _).
    - destruct (_ && _); [|done]. destruct (truthy_key _); [|done].
      unfold bind at 1. rewrite delete_run. destruct (Map_get _ _); apply IH. }
  unfold ensureSpace, bind at 1, read at 1. simpl.
  destruct (ensureSpace_loop _ _ _ now w) as [[] w1| | |] eqn:Hrun; try done.
  intros [= -> ->]. by eapply Hloop.
Qed.

(* ===================================================================== *)
(** ** delete                                                             *)
(* ===================================================================== *)

(** C10. For a key present in the index, [delete] returns [true], removes
    the key from the index and writes the updated index to the index file,
    whether or not the payload file could be unlinked (the error of
    [fs.unlink] is swallowed); for a key absent from the index it returns
    [false] and changes neither the index nor the file system. *)
Theorem delete_removes_and_persists (key : string) (now : Z) (w : World) :
  (forall e,
      Map_get key (cacheIndex (this w)) = Some e ->
      exists w',
        delete key now w = Ok true w'
        /\ cacheIndex (this w') = Map_delete key (cacheIndex (this w))
        /\ (NoDup (Map_keys (cacheIndex (this w))) ->
            Map_get key (cacheIndex (this w')) = None)
        /\ files (fs w') !! indexPath w'
           = Some (JSON_stringify_pretty (indexData (cacheIndex (this w')))))
  /\ (Map_get key (cacheIndex (this w)) = None ->
      delete key now w = Ok false w).
Proof.
  rewrite delete_run. split.
  - intros e ->. exists (deleted key w). split_and!; try done.
    + intros Hnd. simpl. by apply Map_get_delete_eq.
    + simpl. apply lookup_insert_eq.
  - by intros ->.
Qed.

(* ===================================================================== *)
(** ** The index file is rewritten in place                               *)
(* ===================================================================== *)

Lemma drop_own_length {A} (l ops : list A) : drop (length l) (l ++ ops) = ops.
Proof. by rewrite drop_app_length. Qed.

Lemma ops_of_saveCacheIndex now w :
  ops_of saveCacheIndex now w
  = [OpWriteFile (indexPath w)
       (JSON_stringify_pretty (indexData (cacheIndex (this w))))].
Proof. unfold ops_of. rewrite saveCacheIndex_run. simpl. apply drop_own_length. Qed.

(** The pattern named by the claim does protect the target. *)
Lemma write_new_then_replace_atomic path ops fsys :
  write_new_then_replace path ops -> rewrites_atomically path ops fsys.
Proof.
  intros (tmp & content & Hne & ->) i n Hi. simpl in Hi.
  destruct i as [|[|i]]; simpl; [| |lia]; left; by rewrite lookup_insert_ne.
Qed.

(** C9 (as amended). Every rewrite of the index file is one
    [fs.writeFile] issued directly on the index path, with the whole
    pretty-printed index as content: nothing is written elsewhere and
    nothing is renamed.  When the rewrite completes the index path holds the
    new index; when it is interrupted after [n] bytes the index path holds
    the first [n] bytes of it. *)
Theorem saveCacheIndex_writes_in_place (now : Z) (w : World) :
  let content := JSON_stringify_pretty (indexData (cacheIndex (this w))) in
  ops_of saveCacheIndex now w = [OpWriteFile (indexPath w) content]
  /\ (exists w', saveCacheIndex now w = Ok tt w'
                 /\ this w' = this w
                 /\ files (fs w') = <[indexPath w := content]> (files (fs w)))
  /\ (forall n, crash_during (ops_of saveCacheIndex now w) 0 n (files (fs w))
                !! indexPath w
                = Some (String.substring 0 n content)).
Proof.
  intros content. rewrite ops_of_saveCacheIndex. split_and!.
  - done.
  - rewrite saveCacheIndex_run. by eexists.
  - intros n. simpl. apply lookup_insert_eq.
Qed.

(** C9 as it was claimed fails on [one_entry]: interrupting the rewrite of
    its index after one byte leaves the single character [{] at the index
    path, which is neither the old index nor the new one. *)
Lemma index_rewrite_is_atomic_fails :
  crash_during (ops_of saveCacheIndex 1 one_entry) 0 1 (files (fs one_entry))
    !! indexPath one_entry = Some "{"
  /\ ~ rewrites_atomically (indexPath one_entry) (ops_of saveCacheIndex 1 one_entry)
        (files (fs one_entry))
  /\ ~ write_new_then_replace (indexPath one_entry) (ops_of saveCacheIndex 1 one_entry)
  /\ ~ index_rewrite_is_atomic.
Proof.
  assert (~ rewrites_atomically (indexPath one_entry)
            (ops_of saveCacheIndex 1 one_entry) (files (fs one_entry))) as Hnot.
  { intros H. destruct (H 0%nat 1%nat) as [Hold|Hnew].
    - rewrite ops_of_saveCacheIndex. simpl. lia.
    - vm_compute in Hold. discriminate Hold.
    - vm_compute in Hnew. discriminate Hnew. }
  split_and!.
  - by vm_compute.
  - exact Hnot.
  - intros H. by apply Hnot, write_new_then_replace_atomic.
  - intros H. by destruct (H 1 one_entry) as [_ ?].
Qed.

(* ===================================================================== *)
(** ** Paths and the two outcomes of [get]                                *)
(* ===================================================================== *)

Lemma length_append (s t : string) :
  String.length (s ++ t)%string = (String.length s + String.length t)%nat.
Proof. induction s as [|c s IH]; simpl; [done|]. by rewrite IH. Qed.

Lemma append_inv_tail (s1 s2 t : string) :
  (s1 ++ t)%string = (s2 ++ t)%string -> s1 = s2.
Proof.
  intros H.
  assert (String.length s1 = String.length s2) as Hlen.
  { apply (f_equal String.length) in H. rewrite !length_append in H. lia. }
  revert s2 H Hlen.
  induction s1 as [|c1 s1 IH]; intros [|c2 s2] H Hlen; simpl in *; try done.
  injection H as -> H. f_equal. apply IH; [done | lia].
Qed.

Lemma append_inv_head (s t1 t2 : string) :
  (s ++ t1)%string = (s ++ t2)%string -> t1 = t2.
Proof. induction s as [|c s IH]; simpl; [done|]. intros [= H]. by apply IH. Qed.

Lemma entry_path_not_index w key :
  key <> "index" -> entry_path w key <> indexPath w.
Proof.
  intros Hne H. apply Hne. unfold entry_path, indexPath, path_join in H.
  apply append_inv_head in H. apply (append_inv_head "/") in H.
  by apply (append_inv_tail key "index" ".json").
Qed.

Lemma get_run_fresh key now w e text :
  Map_get key (cacheIndex (this w)) = Some e ->
  now <= CacheEntry.expiresAt e ->
  files (fs w) !! entry_path w key = Some text ->
  exists w', get key now w = Ok (parsed_or_null text) w'.
Proof.
  intros Hget Hnow Hfile. unfold get, bind at 1, read at 1. simpl. rewrite Hget.
  unfold bind at 1, Date_now at 1.
  destruct (Z.gtb_spec now (CacheEntry.expiresAt e)) as [|_]; [lia|].
  unfold try_catch, bind, getCacheFilePath, read, ret, fs_readFile. simpl.
  fold (entry_path w key). rewrite Hfile.
  unfold parsed_or_null, JSON_parse_or_throw.
  destruct (JSON_parse text) as [v|]; simpl.
  - by eexists.
  - unfold throw. rewrite delete_run. simpl. rewrite Hget. by eexists.
Qed.

Lemma get_run_stale key now w e :
  Map_get key (cacheIndex (this w)) = Some e ->
  now > CacheEntry.expiresAt e ->
  get key now w = Ok JNull (deleted key w).
Proof.
  intros Hget Hnow. unfold get, bind at 1, read at 1. simpl. rewrite Hget.
  unfold bind at 1, Date_now at 1.
  destruct (Z.gtb_spec now (CacheEntry.expiresAt e)) as [_|]; [|lia].
  unfold bind. by rewrite delete_run, Hget.
Qed.

(* ===================================================================== *)
(** ** JSON.parse reads back what JSON.stringify writes                   *)
(* ===================================================================== *)

Section JSON_round_trip.

#[local] Arguments String.append !s1 s2 : simpl nomatch.

Lemma digit_of_digit_char d :
(d < 10)%N -> digit_of_char (digit_char d) = Some d.
Proof.
intros Hd. unfold digit_of_char, digit_char.
rewrite N_ascii_embedding by lia.
replace ((48 <=? 48 + d)%N && (48 + d <=? 57)%N) with true.
- f_equal. lia.
- symmetry. apply andb_true_iff. split; apply N.leb_le; lia.
Qed.

Lemma parse_digits_end rest a :
number_end rest = true -> parse_digits rest a = (a, rest).
Proof.
destruct rest as [|c rest]; simpl; [done|].
by destruct (digit_of_char c).
Qed.

Lemma append_assoc (s t u : string) :
((s ++ t) ++ u)%string = (s ++ (t ++ u))%string.
Proof. induction s as [|c s IH]; simpl; [done|]. by f_equal. Qed.

Lemma append_nil_r (s : string) : (s ++ "")%string = s.
Proof. induction s as [|c s IH]; simpl; [done|]. by f_equal. Qed.

Lemma N_to_digits_acc fuel :
forall n acc, N_to_digits fuel n acc = (N_to_digits fuel n "" ++ acc)%string.
Proof.
induction fuel as [|fuel IH]; intros n acc; simpl; [done|].
destruct (n <? 10)%N; [done|].
rewrite (IH _ (String _ acc)), (IH _ (String _ "")).
by rewrite append_assoc.
Qed.

Lemma parse_digits_N_to_digits fuel :
forall n acc a,
  (n < 2 ^ N.of_nat fuel)%N ->
  exists b, parse_digits (N_to_digits fuel n acc) a = parse_digits acc b
            /\ (a = 0%N -> b = n).
Proof.
induction fuel as [|fuel IH]; intros n acc a Hn.
- simpl in Hn. assert (n = 0%N) as -> by lia. simpl. exists a. by split.
- simpl N_to_digits. destruct (N.ltb_spec n 10%N) as [Hlt|Hge].
  + exists (10 * a + n)%N. simpl.
    rewrite N.mod_small by done. rewrite digit_of_digit_char by done.
    split; [done | lia].
  + destruct (IH (n / 10)%N (String (digit_char (n mod 10)) acc) a) as (b & Hb & Hb0).
    { rewrite Nat2N.inj_succ, N.pow_succ_r' in Hn.
      apply N.Div0.div_lt_upper_bound. lia. }
    exists (10 * b + n mod 10)%N. rewrite Hb. simpl.
    rewrite digit_of_digit_char by (apply N.mod_lt; lia).
    split; [done|]. intros ->. rewrite Hb0 by done.
    pose proof (N.div_mod n 10%N). lia.
Qed.

Lemma N_to_digits_head fuel :
forall n acc,
  (0 < n)%N -> (n < 2 ^ N.of_nat fuel)%N ->
  exists d s, N_to_digits fuel n acc = String (digit_char d) s
              /\ (1 <= d <= 9)%N.
Proof.
induction fuel as [|fuel IH]; intros n acc Hpos Hn.
- simpl in Hn. lia.
- simpl. destruct (N.ltb_spec n 10%N) as [Hlt|Hge].
  + exists n, acc. rewrite N.mod_small by done. split; [done | lia].
  + apply IH.
    * apply N.div_str_pos. lia.
    * rewrite Nat2N.inj_succ, N.pow_succ_r' in Hn.
      apply N.Div0.div_lt_upper_bound. lia.
Qed.

Lemma N_to_string_fuel n : (n < 2 ^ N.of_nat (S (N.to_nat (N.log2 n))))%N.
Proof.
rewrite Nat2N.inj_succ, N2Nat.id.
destruct n as [|p]; [done|]. apply N.log2_spec. lia.
Qed.

Lemma number_end_no_fraction rest :
number_end rest = true -> fraction_follows rest = false.
Proof.
destruct rest as [|c rest]; simpl; [done|].
destruct (digit_of_char c); [done|]. by intros ?%negb_true_iff.
Qed.

(** An integer literal is read back, up to the text that follows it. *)
Lemma parse_nat_N_to_string n rest :
number_end rest = true ->
parse_nat (N_to_string n ++ rest)%string = Some (n, rest).
Proof.
intros Hend. unfold N_to_string.
rewrite <- N_to_digits_acc.
pose proof (number_end_no_fraction rest Hend) as Hfrac.
destruct (N.eq_dec n 0%N) as [->|Hn0].
- simpl. by rewrite Hfrac.
- pose proof (N_to_string_fuel n) as Hfuel.
  destruct (N_to_digits_head _ n rest ltac:(lia) Hfuel) as (d & s & Hs & Hd).
  destruct (parse_digits_N_to_digits _ n rest 0%N Hfuel) as (b & Hb & Hb0).
  rewrite Hb0 in Hb by done. rewrite (parse_digits_end rest) in Hb by done.
  rewrite Hs in Hb |- *. unfold parse_nat. simpl in Hb.
  rewrite digit_of_digit_char in Hb |- * by lia.
  destruct (N.eqb_spec d 0%N) as [|_]; [lia|].
  replace (10 * 0 + d)%N with d in Hb by lia. rewrite Hb. simpl.
  by rewrite Hfrac.
Qed.

Lemma parse_number_Z_to_string z rest :
number_end rest = true ->
parse_number (Z_to_string z ++ rest)%string = Some (z, rest).
Proof.
intros Hend. destruct z as [|p|p]; simpl Z_to_string.
- pose proof (parse_nat_N_to_string 0%N rest Hend) as H.
  change (N_to_string 0%N) with "0" in H. unfold parse_number.
  change ("0" ++ rest)%string with (String "0" rest) in *.
  change (Ascii.eqb "0" "-") with false. cbv iota. by rewrite H.
- pose proof (parse_nat_N_to_string (Npos p) rest Hend) as H.
  destruct (N_to_digits_head _ (Npos p) "" ltac:(lia) (N_to_string_fuel (Npos p)))
    as (d & s & Hs & Hd).
  unfold N_to_string in H |- *. rewrite Hs in H |- *. simpl in H |- *.
  unfold parse_number.
  replace (Ascii.eqb (digit_char d) "-") with false; [by rewrite H|].
  symmetry. apply Ascii.eqb_neq. intros Heq.
  apply (f_equal N_of_ascii) in Heq. unfold digit_char in Heq.
  rewrite N_ascii_embedding in Heq by lia. simpl in Heq. lia.
- pose proof (parse_nat_N_to_string (Npos p) rest Hend) as H.
  unfold parse_number. simpl. by rewrite H.
Qed.

(** One quoted character is read back as that character. *)
Lemma parse_chars_quote_char (c : ascii) (fuel : nat) (rest : string) :
parse_chars (S fuel) (quote_char c ++ rest)%string
= match parse_chars fuel rest with
  | Some (str, r) => Some (String c str, r)
  | None => None
  end.
Proof.
destruct c as [[] [] [] [] [] [] [] []]; reflexivity.
Qed.

Lemma quote_char_length (c : ascii) : (1 <= String.length (quote_char c))%nat.
Proof. destruct c as [[] [] [] [] [] [] [] []]; simpl; lia. Qed.

Lemma quote_chars_length (s : string) :
(String.length s <= String.length (quote_chars s))%nat.
Proof.
induction s as [|c s IH]; simpl; [done|].
rewrite length_append. pose proof (quote_char_length c). lia.
Qed.

Lemma parse_chars_quote_chars (s : string) :
forall fuel rest,
  (String.length s < fuel)%nat ->
  parse_chars fuel (quote_chars s ++ String dquote rest)%string = Some (s, rest).
Proof.
induction s as [|c s IH]; intros [|fuel] rest Hfuel; simpl in Hfuel; try lia.
- reflexivity.
- simpl quote_chars. rewrite append_assoc, parse_chars_quote_char.
  rewrite IH by lia. done.
Qed.

Lemma JSON_quote_append (s rest : string) :
(JSON_quote s ++ rest)%string = String dquote (quote_chars s ++ String dquote rest)%string.
Proof. unfold JSON_quote. simpl. by rewrite append_assoc. Qed.

(** A string literal is read back. *)
Lemma parse_string_JSON_quote (s rest : string) :
parse_string (JSON_quote s ++ rest)%string = Some (s, rest).
Proof.
rewrite JSON_quote_append. unfold parse_string.
rewrite Ascii.eqb_refl. apply parse_chars_quote_chars.
simpl. rewrite length_append. pose proof (quote_chars_length s). lia.
Qed.

Lemma join_sep_concat (p : string) (parts : list string) :
join "," (p :: parts) = (p ++ sep_concat parts)%string.
Proof.
revert p. induction parts as [|q parts IH]; intros p.
- simpl. by rewrite append_nil_r.
- change (join "," (p :: q :: parts)) with (p ++ "," ++ join "," (q :: parts))%string.
  by rewrite IH.
Qed.

Lemma JSON_stringify_arr items :
JSON_stringify (JArr items)
= match items with
  | [] => "[]"
  | x :: xs =>
      ("[" ++ JSON_stringify x ++ sep_concat (map JSON_stringify xs) ++ "]")%string
  end.
Proof.
unfold JSON_stringify. simpl. destruct items as [|x xs]; [done|].
unfold bracket. cbn [map]. cbv iota. rewrite String.eqb_refl.
rewrite join_sep_concat. by rewrite append_assoc.
Qed.

Lemma JSON_stringify_obj props :
JSON_stringify (JObj props)
= match props with
  | [] => "{}"
  | kv :: kvs =>
      ("{" ++ member_text kv ++ sep_concat (map member_text kvs) ++ "}")%string
  end.
Proof.
unfold JSON_stringify. simpl. destruct props as [|kv kvs]; [done|].
unfold bracket. cbn [map]. cbv iota. rewrite String.eqb_refl.
rewrite join_sep_concat. by rewrite append_assoc.
Qed.

Lemma JSON_stringify_buffer bytes :
JSON_stringify (JBuffer bytes) = JSON_stringify (buffer_toJSON bytes).
Proof.
unfold JSON_stringify, buffer_toJSON. simpl. do 4 f_equal.
by rewrite map_map.
Qed.

Lemma digit_char_cases d :
(d <= 9)%N ->
digit_char d ∈ ["0"; "1"; "2"; "3"; "4"; "5"; "6"; "7"; "8"; "9"]%char.
Proof.
intros Hd.
assert (d = 0 \/ d = 1 \/ d = 2 \/ d = 3 \/ d = 4 \/ d = 5 \/ d = 6
        \/ d = 7 \/ d = 8 \/ d = 9)%N as H by lia.
repeat (destruct H as [->|H]; [set_solver|]). subst. set_solver.
Qed.

Lemma Z_to_string_head z :
exists c s, Z_to_string z = String c s
            /\ c ∈ ["-"; "0"; "1"; "2"; "3"; "4"; "5"; "6"; "7"; "8"; "9"]%char.
Proof.
destruct z as [|p|p]; simpl.
- exists "0"%char, "". split; [done | set_solver].
- destruct (N_to_digits_head _ (Npos p) "" ltac:(lia) (N_to_string_fuel (Npos p)))
    as (d & s & Hs & Hd).
  exists (digit_char d), s. split; [done|].
  apply list_elem_of_further, digit_char_cases. lia.
- eexists _, _. split; [done | set_solver].
Qed.

Lemma JSON_stringify_head v : starts_value (JSON_stringify v).
Proof.
destruct v as [| [] | n | s | items | props | bytes].
- by exists "n"%char, "ull".
- by exists "t"%char, "rue".
- by exists "f"%char, "alse".
- destruct (Z_to_string_head n) as (c & s & Hs & Hc).
  exists c, s. split; [done|].
  repeat (apply elem_of_cons in Hc as [->|Hc]; [done|]).
  by apply elem_of_nil in Hc.
- eexists dquote, _. by split.
- rewrite JSON_stringify_arr. destruct items; by eexists "["%char, _.
- rewrite JSON_stringify_obj. destruct props; by eexists "{"%char, _.
- rewrite JSON_stringify_buffer. unfold buffer_toJSON.
  rewrite JSON_stringify_obj. by eexists "{"%char, _.
Qed.

Lemma skip_ws_starts_value s rest :
starts_value s -> skip_ws (s ++ rest)%string = (s ++ rest)%string.
Proof. intros (c & s' & -> & Hws & _). simpl. by rewrite Hws. Qed.

(** One step of the parser on each kind of first character. *)
Lemma parse_value_number c s fuel :
c ∈ ["-"; "0"; "1"; "2"; "3"; "4"; "5"; "6"; "7"; "8"; "9"]%char ->
parse_value (S fuel) (String c s)
= match parse_number (String c s) with
  | Some (z, r) => Some (JNum z, r)
  | None => None
  end.
Proof.
intros Hc. repeat (apply elem_of_cons in Hc as [->|Hc]; [reflexivity|]).
by apply elem_of_nil in Hc.
Qed.

Lemma parse_value_string s fuel :
parse_value (S fuel) (String dquote s)
= match parse_string (String dquote s) with
  | Some (str, r) => Some (JStr str, r)
  | None => None
  end.
Proof. reflexivity. Qed.

Lemma parse_value_array s fuel :
parse_value (S fuel) (String "[" s)
= match skip_ws s with
  | String c1 r1 as s1 =>
      if (N_of_ascii c1 =? 93)%N then Some (JArr [], r1)
      else
        match parse_value fuel s1 with
        | Some (v, r) =>
            match parse_elements fuel r with
            | Some (vs, r') => Some (JArr (v :: vs), r')
            | None => None
            end
        | None => None
        end
  | EmptyString => None
  end.
Proof. reflexivity. Qed.

Lemma parse_value_object s fuel :
parse_value (S fuel) (String "{" s)
= match skip_ws s with
  | String c1 r1 as s1 =>
      if (N_of_ascii c1 =? 125)%N then Some (JObj [], r1)
      else
        match parse_member fuel s1 with
        | Some (kv, r) =>
            match parse_members fuel r with
            | Some (kvs, r') => Some (JObj (obj_of_entries (kv :: kvs)), r')
            | None => None
            end
        | None => None
        end
  | EmptyString => None
  end.
Proof. reflexivity. Qed.

Lemma parse_elements_close s fuel :
parse_elements (S fuel) (String "]" s) = Some ([], s).
Proof. reflexivity. Qed.

Lemma parse_elements_comma s fuel :
parse_elements (S fuel) (String "," s)
= match parse_value fuel s with
  | Some (v, r) =>
      match parse_elements fuel r with
      | Some (vs, r') => Some (v :: vs, r')
      | None => None
      end
  | None => None
  end.
Proof. reflexivity. Qed.

Lemma parse_members_close s fuel :
parse_members (S fuel) (String "}" s) = Some ([], s).
Proof. reflexivity. Qed.

Lemma parse_members_comma s fuel :
parse_members (S fuel) (String "," s)
= match parse_member fuel s with
  | Some (kv, r) =>
      match parse_members fuel r with
      | Some (kvs, r') => Some (kv :: kvs, r')
      | None => None
      end
  | None => None
  end.
Proof. reflexivity. Qed.

Lemma parse_member_quoted k s fuel :
parse_member (S fuel) (JSON_quote k ++ String ":" s)%string
= match parse_value fuel s with
  | Some (v, r') => Some ((k, v), r')
  | None => None
  end.
Proof.
pose proof (parse_string_JSON_quote k (String ":" s)) as Hparse.
rewrite JSON_quote_append in Hparse |- *.
cbn [parse_member skip_ws]. change (is_ws dquote) with false. cbv iota.
rewrite Hparse. reflexivity.
Qed.

Lemma parses_null : parses JNull.
Proof. intros [|fuel] rest Hfuel _; [simpl in Hfuel; lia|]. reflexivity. Qed.

Lemma parses_bool b : parses (JBool b).
Proof.
intros [|fuel] rest Hfuel _; [destruct b; simpl in Hfuel; lia|].
by destruct b.
Qed.

Lemma parses_str s : parses (JStr s).
Proof.
intros [|fuel] rest Hfuel _.
- unfold JSON_stringify in Hfuel. simpl in Hfuel. lia.
- change (JSON_stringify (JStr s)) with (JSON_quote s).
  pose proof (parse_string_JSON_quote s rest) as Hparse.
  rewrite JSON_quote_append in Hparse |- *.
  by rewrite parse_value_string, Hparse.
Qed.

Lemma parses_num n : parses (JNum n).
Proof.
intros [|fuel] rest Hfuel Hend.
- destruct (Z_to_string_head n) as (c & s & Hs & _).
  unfold JSON_stringify in Hfuel. simpl in Hfuel. rewrite Hs in Hfuel.
  simpl in Hfuel. lia.
- change (JSON_stringify (JNum n)) with (Z_to_string n).
  pose proof (parse_number_Z_to_string n rest Hend) as Hparse.
  destruct (Z_to_string_head n) as (c & s & Hs & Hc).
  rewrite Hs in Hparse |- *. simpl String.append in *.
  by rewrite parse_value_number, Hparse.
Qed.

Lemma number_end_sep_concat parts closing rest :
closing ∈ ["]"; "}"]%char ->
number_end (sep_concat parts ++ String closing rest)%string = true.
Proof.
intros Hc. destruct parts; simpl; [|done].
repeat (apply elem_of_cons in Hc as [->|Hc]; [done|]). by apply elem_of_nil in Hc.
Qed.

Lemma sep_concat_cons_append p parts rest :
(sep_concat (p :: parts) ++ rest)%string
= String "," (p ++ (sep_concat parts ++ rest))%string.
Proof. simpl. by rewrite append_assoc. Qed.

Lemma parse_elements_items items :
Forall parses items ->
forall fuel rest,
  (String.length (sep_concat (map JSON_stringify items) ++ String "]" rest)%string
   <= fuel)%nat ->
  parse_elements fuel (sep_concat (map JSON_stringify items) ++ String "]" rest)%string
  = Some (map revive items, rest).
Proof.
induction 1 as [|x xs Hx _ IH]; intros fuel rest Hfuel.
- destruct fuel; [simpl in Hfuel; lia|]. apply parse_elements_close.
- cbn [map] in *. rewrite sep_concat_cons_append in *.
  cbn [String.length] in Hfuel. rewrite !length_append in Hfuel.
  destruct fuel as [|fuel]; [lia|]. rewrite parse_elements_comma.
  rewrite Hx; [|rewrite !length_append; lia|by apply number_end_sep_concat; set_solver].
  rewrite IH; [done|]. rewrite length_append. lia.
Qed.

Lemma parse_value_array_nonempty sx rest fuel :
starts_value sx ->
parse_value (S fuel) (String "[" (sx ++ rest))%string
= match parse_value fuel (sx ++ rest)%string with
  | Some (v, r) =>
      match parse_elements fuel r with
      | Some (vs, r') => Some (JArr (v :: vs), r')
      | None => None
      end
  | None => None
  end.
Proof.
intros (c & s' & -> & Hws & H93 & _). rewrite parse_value_array.
simpl. by rewrite Hws, H93.
Qed.

Lemma JSON_stringify_arr_cons x xs rest :
(JSON_stringify (JArr (x :: xs)) ++ rest)%string
= String "[" (JSON_stringify x
              ++ (sep_concat (map JSON_stringify xs) ++ String "]" rest))%string.
Proof. rewrite JSON_stringify_arr, !append_assoc. reflexivity. Qed.

Lemma JSON_stringify_obj_cons kv kvs rest :
(JSON_stringify (JObj (kv :: kvs)) ++ rest)%string
= String "{" (member_text kv
              ++ (sep_concat (map member_text kvs) ++ String "}" rest))%string.
Proof. rewrite JSON_stringify_obj, !append_assoc. reflexivity. Qed.

Lemma parses_arr items : Forall parses items -> parses (JArr items).
Proof.
intros Hitems fuel rest Hfuel Hend.
destruct Hitems as [|x xs Hx Hxs].
- destruct fuel; [simpl in Hfuel; lia | reflexivity].
- rewrite JSON_stringify_arr_cons in *.
  cbn [String.length] in Hfuel. rewrite !length_append in Hfuel.
  destruct fuel as [|fuel]; [lia|].
  rewrite parse_value_array_nonempty by apply JSON_stringify_head.
  rewrite Hx; [|rewrite !length_append; lia|by apply number_end_sep_concat; set_solver].
  rewrite (parse_elements_items xs Hxs); [done|]. rewrite length_append. lia.
Qed.

Lemma member_text_append kv rest :
(member_text kv ++ rest)%string
= (JSON_quote (fst kv) ++ String ":" (JSON_stringify (snd kv) ++ rest))%string.
Proof. unfold member_text. by rewrite !append_assoc. Qed.

Lemma JSON_quote_length k : (2 <= String.length (JSON_quote k))%nat.
Proof. unfold JSON_quote. simpl. rewrite length_append. simpl. lia. Qed.

Lemma parse_member_text kv rest fuel :
parses (snd kv) ->
(String.length (member_text kv ++ rest)%string <= fuel)%nat ->
number_end rest = true ->
parse_member fuel (member_text kv ++ rest)%string
= Some ((fst kv, revive (snd kv)), rest).
Proof.
intros Hv Hfuel Hend. rewrite member_text_append in *.
rewrite length_append in Hfuel. simpl in Hfuel.
pose proof (JSON_quote_length (fst kv)).
destruct fuel as [|fuel]; [lia|].
rewrite parse_member_quoted, Hv; [done | lia | done].
Qed.

Lemma parse_members_items props :
Forall (fun kv => parses (snd kv)) props ->
forall fuel rest,
  (String.length (sep_concat (map member_text props) ++ String "}" rest)%string
   <= fuel)%nat ->
  parse_members fuel (sep_concat (map member_text props) ++ String "}" rest)%string
  = Some (map (fun kv => (fst kv, revive (snd kv))) props, rest).
Proof.
induction 1 as [|kv kvs Hkv _ IH]; intros fuel rest Hfuel.
- destruct fuel; [simpl in Hfuel; lia|]. apply parse_members_close.
- cbn [map] in *. rewrite sep_concat_cons_append in *.
  cbn [String.length] in Hfuel. rewrite !length_append in Hfuel.
  destruct fuel as [|fuel]; [lia|]. rewrite parse_members_comma.
  rewrite parse_member_text;
    [|done|rewrite !length_append; lia|by apply number_end_sep_concat; set_solver].
  rewrite IH; [done|]. rewrite length_append. lia.
Qed.

Lemma parse_value_object_nonempty k rest fuel :
parse_value (S fuel) (String "{" (JSON_quote k ++ rest))%string
= match parse_member fuel (JSON_quote k ++ rest)%string with
  | Some (kv, r) =>
      match parse_members fuel r with
      | Some (kvs, r') => Some (JObj (obj_of_entries (kv :: kvs)), r')
      | None => None
      end
  | None => None
  end.
Proof. rewrite parse_value_object. reflexivity. Qed.

Lemma parses_obj props :
Forall (fun kv => parses (snd kv)) props -> parses (JObj props).
Proof.
intros Hprops fuel rest Hfuel Hend.
destruct Hprops as [|kv kvs Hkv Hkvs].
- destruct fuel; [simpl in Hfuel; lia | reflexivity].
- rewrite JSON_stringify_obj_cons in *.
  cbn [String.length] in Hfuel. rewrite !length_append in Hfuel.
  destruct fuel as [|fuel]; [lia|].
  rewrite member_text_append.
  rewrite parse_value_object_nonempty.
  rewrite <- member_text_append.
  rewrite parse_member_text;
    [|done|rewrite !length_append; lia|by apply number_end_sep_concat; set_solver].
  rewrite (parse_members_items kvs Hkvs); [done|]. rewrite length_append. lia.
Qed.

Lemma revive_buffer_toJSON bytes : revive (buffer_toJSON bytes) = buffer_toJSON bytes.
Proof.
unfold buffer_toJSON. cbn [revive map fst snd].
rewrite map_map. rewrite (map_ext _ byte_value) by done. reflexivity.
Qed.

Lemma parses_buffer bytes : parses (JBuffer bytes).
Proof.
intros fuel rest Hfuel Hend. rewrite JSON_stringify_buffer in *.
assert (parses (buffer_toJSON bytes)) as Hobj.
{ apply parses_obj. repeat constructor; simpl.
  - apply parses_str.
  - apply parses_arr. apply Forall_fmap, Forall_true. intros b. apply parses_num. }
rewrite Hobj by done. by rewrite revive_buffer_toJSON.
Qed.

(** Every value is read back from its serialization. *)
Lemma parses_all (v : value) : parses v.
Proof.
induction v using value_nested_ind.
- apply parses_null.
- apply parses_bool.
- apply parses_num.
- apply parses_str.
- by apply parses_arr.
- by apply parses_obj.
- apply parses_buffer.
Qed.

(** [JSON.parse(JSON.stringify(v))] is [revive v], for every value. *)
Theorem JSON_parse_stringify (v : value) :
JSON_parse (JSON_stringify v) = Some (revive v).
Proof.
unfold JSON_parse.
pose proof (parses_all v (S (String.length (JSON_stringify v))) "") as H.
rewrite append_nil_r in H. rewrite H; [done | lia | done].
Qed.

End JSON_round_trip.

(* ===================================================================== *)
(** ** What survives the round trip                                       *)
(* ===================================================================== *)

Lemma obj_get_replace o k v k' :
  is_Some (obj_get k o) ->
  obj_get k' (obj_replace k v o)
  = if String.eqb k' k then Some v else obj_get k' o.
Proof.
  induction o as [|[k1 v1] o IH]; simpl; intros Hsome.
  - by destruct Hsome.
  - destruct (String.eqb_spec k k1) as [->|Hk]; simpl.
    + by destruct (String.eqb k' k1).
    + rewrite IH by done.
      destruct (String.eqb_spec k' k) as [Heq|Hk']; [|done].
      rewrite Heq. by destruct (String.eqb_spec k k1).
Qed.

Lemma obj_get_insert_index n o k v k' :
  obj_get k o = None ->
  obj_get k' (obj_insert_index n k v o)
  = if String.eqb k' k then Some v else obj_get k' o.
Proof.
  induction o as [|[k1 v1] o IH]; simpl; intros Hnone.
  - by destruct (String.eqb k' k).
  - destruct (String.eqb_spec k k1) as [->|Hk]; [done|].
    destruct (array_index k1) as [m|].
    + destruct (m <? n)%N; simpl.
      * rewrite IH by done. destruct (String.eqb_spec k' k1) as [->|].
        -- destruct (String.eqb_spec k1 k); [by subst | done].
        -- done.
      * by destruct (String.eqb k' k).
    + simpl. by destruct (String.eqb k' k).
Qed.

Lemma obj_get_app o k v k' :
  obj_get k' (o ++ [(k, v)])
  = match obj_get k' o with
    | Some x => Some x
    | None => if String.eqb k' k then Some v else None
    end.
Proof.
  induction o as [|[k1 v1] o IH]; simpl; [done|].
  by destruct (String.eqb k' k1).
Qed.

Lemma obj_get_obj_set o k v k' :
  obj_get k' (obj_set o k v) = if String.eqb k' k then Some v else obj_get k' o.
Proof.
  unfold obj_set. destruct (obj_get k o) as [old|] eqn:Hold.
  - by rewrite obj_get_replace by (by rewrite Hold).
  - destruct (array_index k) as [n|].
    + by apply obj_get_insert_index.
    + rewrite obj_get_app. destruct (String.eqb_spec k' k) as [->|].
      * by rewrite Hold.
      * by destruct (obj_get k' o).
Qed.

Lemma length_obj_set o k v :
  obj_get k o = None -> length (obj_set o k v) = S (length o).
Proof.
  intros Hnone. unfold obj_set. rewrite Hnone.
  destruct (array_index k) as [n|].
  - clear Hnone. induction o as [|[k1 v1] o IH]; simpl; [done|].
    destruct (array_index k1) as [m|]; [|done].
    destruct (m <? n)%N; simpl; [by rewrite IH | done].
  - rewrite length_app. simpl. lia.
Qed.

Lemma obj_get_None_keys k (o : list (string * value)) :
  k ∉ obj_keys o -> obj_get k o = None.
Proof.
  intros Hnin. destruct (obj_get k o) as [v|] eqn:Hget; [|done].
  destruct Hnin. by eapply obj_get_keys.
Qed.

Lemma obj_get_of_elem k v (o : list (string * value)) :
  NoDup (obj_keys o) -> (k, v) ∈ o -> obj_get k o = Some v.
Proof. apply (Map_get_of_elem (V := value)). Qed.

Lemma fold_obj_set_get es :
  forall acc k,
    NoDup (obj_keys es) ->
    obj_get k (fold_left (fun o kv => obj_set o (fst kv) (snd kv)) es acc)
    = match obj_get k es with
      | Some v => Some v
      | None => obj_get k acc
      end.
Proof.
  induction es as [|[k1 v1] es IH]; intros acc k Hnd; simpl in *; [done|].
  apply NoDup_cons in Hnd as [Hnin Hnd].
  rewrite IH by done. rewrite obj_get_obj_set.
  destruct (String.eqb_spec k k1) as [->|Hne]; [|done].
  by rewrite (obj_get_None_keys k1 es).
Qed.

Lemma fold_obj_set_length es :
  forall acc,
    NoDup (obj_keys es) ->
    (forall k, k ∈ obj_keys es -> obj_get k acc = None) ->
    length (fold_left (fun o kv => obj_set o (fst kv) (snd kv)) es acc)
    = (length acc + length es)%nat.
Proof.
  induction es as [|[k1 v1] es IH]; intros acc Hnd Hfresh; simpl in *; [lia|].
  apply NoDup_cons in Hnd as [Hnin Hnd].
  rewrite IH; [|done|].
  - rewrite length_obj_set; [lia|]. apply Hfresh, list_elem_of_here.
  - intros k Hk. rewrite obj_get_obj_set.
    destruct (String.eqb_spec k k1) as [->|_]; [done|].
    by apply Hfresh, list_elem_of_further.
Qed.

Lemma obj_keys_map (f : value -> value) (o : list (string * value)) :
  obj_keys (map (fun kv => (fst kv, f (snd kv))) o) = obj_keys o.
Proof. unfold obj_keys. rewrite map_map. by apply map_ext. Qed.

(** A value without [Buffer]s is deep-equal to what comes back from its
    serialization. *)
Lemma deep_equal_revive (v : value) :
  no_buffer v = true -> unique_keys v = true -> deep_equal v (revive v) = true.
Proof.
  induction v as [| b | n | s | items IH | props IH | bytes] using value_nested_ind;
    intros Hnb Huk.
  - done.
  - simpl. by destruct b.
  - simpl. apply Z.eqb_refl.
  - simpl. apply String.eqb_refl.
  - cbn [revive]. rewrite deep_equal_arr. simpl in Hnb, Huk.
    induction IH as [|x xs Hx _ IHxs]; simpl in *; [done|].
    apply andb_true_iff in Hnb as [? ?]. apply andb_true_iff in Huk as [? ?].
    apply andb_true_iff. split; [by apply Hx | by apply IHxs].
  - cbn [revive]. rewrite deep_equal_obj. simpl in Hnb, Huk.
    apply andb_true_iff in Huk as [Hnd Huk]. apply bool_decide_eq_true in Hnd.
    set (revived := map (fun kv => (fst kv, revive (snd kv))) props).
    assert (NoDup (obj_keys revived)) as Hnd' by (unfold revived; by rewrite obj_keys_map).
    apply andb_true_iff. split.
    + apply Nat.eqb_eq. unfold obj_of_entries.
      rewrite fold_obj_set_length by done. unfold revived. by rewrite length_map.
    + apply forallb_forall. intros [k x] Hin. apply list_elem_of_In in Hin.
      unfold same_member, obj_of_entries. simpl.
      rewrite fold_obj_set_get by done. unfold revived. rewrite obj_get_map.
      rewrite (obj_get_of_elem k x props) by done. simpl.
      rewrite Forall_forall in IH. rewrite forallb_forall in Hnb, Huk.
      apply (IH (k, x) Hin).
      * apply (Hnb (k, x)). by apply list_elem_of_In.
      * apply (Huk (k, x)). by apply list_elem_of_In.
  - done.
Qed.

(* ===================================================================== *)
(** ** Expiry and round trip                                              *)
(* ===================================================================== *)

Lemma parsed_or_null_stringify v : parsed_or_null (JSON_stringify v) = revive v.
Proof. unfold parsed_or_null. by rewrite JSON_parse_stringify. Qed.

(** What a [get] sees right after a [set] of the same key. *)
Lemma get_after_set key data ttl metadata createdAt now w w1 :
  key <> "index" ->
  NoDup (Map_keys (cacheIndex (this w))) ->
  set key data ttl metadata createdAt w = Ok tt w1 ->
  let expiry := createdAt + default (defaultTTL (this w)) ttl in
  (now <= expiry -> exists w2, get key now w1 = Ok (revive data) w2)
  /\ (now > expiry ->
      exists w2, get key now w1 = Ok JNull w2
                 /\ Map_get key (cacheIndex (this w2)) = None).
Proof.
  intros Hkey Hnd. rewrite set_run.
  destruct (ensureSpace _ createdAt w) as [[] w0| | |] eqn:Hroom; try done.
  intros [= <-] expiry.
  apply ensureSpace_returns in Hroom as (_ & _ & _ & Hsub & _).
  set (entry := CacheEntry.mk key data createdAt expiry (serialized_size data) metadata).
  assert (Map_get key
            (cacheIndex (this (stored key data (default (defaultTTL (this w)) ttl)
                                 metadata createdAt w0)))
          = Some entry) as Hget.
  { simpl. apply Map_get_set_eq. }
  split; intros Hnow.
  - rewrite <- parsed_or_null_stringify.
    eapply get_run_fresh; [exact Hget | done |].
    simpl. rewrite lookup_insert_ne; [apply lookup_insert_eq|].
    intros H. by apply (entry_path_not_index w0 key).
  - eexists. split; [by eapply get_run_stale|].
    simpl. apply Map_get_delete_eq, NoDup_Map_set.
    eapply sublist_NoDup; [exact Hnd|]. unfold Map_keys. by apply fmap_sublist.
Qed.

(** C4 (as amended). Let [set] insert [key] (a plain file name other than
    "index") with time to live [ttl] at time [createdAt].  A [get] of that
    key made next, at time [now], returns the stored payload, as
    [JSON.parse] reads it back from the payload file, whenever
    [now <= createdAt + ttl], and returns [null] whenever
    [now > createdAt + ttl]; in the latter case the entry has left the
    index when [get] returns. *)
Theorem get_after_set_expiry
  (key : string) (data : value) (ttl : Z) (metadata : option value)
  (createdAt now : Z) (w w1 : World) :
  plain_key key = true -> key <> "index" ->
  NoDup (Map_keys (cacheIndex (this w))) ->
  set key data (Some ttl) metadata createdAt w = Ok tt w1 ->
  (now <= createdAt + ttl ->
   exists w2, get key now w1 = Ok (revive data) w2)
  /\ (now > createdAt + ttl ->
      exists w2, get key now w1 = Ok JNull w2
                 /\ Map_get key (cacheIndex (this w2)) = None).
Proof.
  intros _ Hkey Hnd Hset.
  apply (get_after_set key data (Some ttl) metadata createdAt now w w1 Hkey Hnd Hset).
Qed.

(** C4 as it was claimed fails at the instant [createdAt + ttl]: an entry
    inserted at time 0 with a time to live of 1000 is still returned, and
    still indexed, at time 1000. *)
Lemma get_at_expiry_instant_returns_value :
  let w0 := empty_store "./cache" 10 1000 in
  let w1 := world_after (set "a" (JNum 7) (Some 1000) None) 0 w0 in
  set "a" (JNum 7) (Some 1000) None 0 w0 = Ok tt w1
  /\ 1000 >= 0 + 1000
  /\ (exists w2, get "a" 1000 w1 = Ok (JNum 7) w2
                 /\ Map_get "a" (cacheIndex (this w2)) <> None)
  /\ ~ absent_from_expiry_instant.
Proof.
  split; [by vm_compute|]. split; [lia|]. split.
  - eexists. split; by vm_compute.
  - intros H.
    destruct (H "a" (JNum 7) 1000 None 0 1000 (empty_store "./cache" 10 1000) _
                eq_refl ltac:(lia)) as (w2 & Hget & _).
    vm_compute in Hget. discriminate Hget.
Qed.

(** The round trip holds for values without [Buffer]s: right after
    [set(key, data)], with a non-negative default time to live,
    [get(key)] returns a value deep-equal to [data]. *)
Lemma cache_roundtrip_without_buffer key data metadata now w w1 :
  key <> "index" ->
  NoDup (Map_keys (cacheIndex (this w))) ->
  0 <= defaultTTL (this w) ->
  no_buffer data = true -> unique_keys data = true ->
  set key data None metadata now w = Ok tt w1 ->
  exists v w2, get key now w1 = Ok v w2 /\ deep_equal data v = true.
Proof.
  intros Hkey Hnd Httl Hnb Huk Hset.
  destruct (get_after_set key data None metadata now now w w1 Hkey Hnd Hset)
    as [Hfresh _].
  destruct Hfresh as [w2 Hget]; [simpl; lia|].
  exists (revive data), w2. split; [done|]. by apply deep_equal_revive.
Qed.

(** C5 at a value the generator stores: [set] accepts the result, and the
    [get] that follows returns it with the [Buffer] replaced by the plain
    object [{type: 'Buffer', data: [...]}], which is not deep-equal to what
    was stored. *)
Theorem cache_roundtrip_loses_buffer :
  let w0 := mkWorld (default_CacheManager "./cache") (mkFS ∅ []) in
  let w1 := world_after (set "k" buffered_result None None) 0 w0 in
  let v := JObj [ ("metadata",
                   JObj [ ("fileSize", JNum 4); ("pageCount", JNum 1);
                          ("generationTime", JNum 0); ("version", JStr "") ]);
                  ("pdfBuffer", buffer_toJSON [x25; x50; x44; x46]);
                  ("pdfPath", JStr "output/job-1.pdf") ] in
  set "k" buffered_result None None 0 w0 = Ok tt w1
  /\ get "k" 0 w1 = Ok v (world_after (get "k") 0 w1)
  /\ deep_equal v buffered_result = false
  /\ deep_equal buffered_result v = false.
Proof.
  split_and!; by vm_compute.
Qed.

(* ===================================================================== *)
(** ** The job ledger                                                     *)
(* ===================================================================== *)

Lemma update_job_run jobId f now g j :
  Map_get jobId (jobs g) = Some j ->
  update_job jobId f now g = Ok tt (with_jobs (Map_set jobId (f j) (jobs g)) g).
Proof. intros H. unfold update_job. by rewrite H. Qed.




(** C7. When the data validate and the lookup of the fingerprint in the
    cache returns a payload, processing ends with the job [completed], at
    progress 100, its result being that payload, and without any call to
    the renderer boundary: no asset loading, no template rendering, no
    HTML-to-PDF conversion. *)
Theorem processJob_cache_hit
  (env : Env) (jobId : string) (c : TemplateConfig.t)
  (options : GenerationOptions.t) (now : Z) (g : Generator)
  (job : GenerationJob.t) (cachedResult : value) (w' : World) :
  Map_get jobId (jobs g) = Some job ->
  schema_parseAsync env (TemplateConfig.schema c) (GenerationOptions.data options) = ZodOk ->
  get (generateCacheKey (GenerationOptions.templateId options)
         (GenerationOptions.data options) (GenerationOptions.toValue options))
      now (cacheManager g) = Ok cachedResult w' ->
  truthy cachedResult = true ->
  exists g' job',
    processJob env jobId (Template c) options now g = Ok tt g'
    /\ Map_get jobId (jobs g') = Some job'
    /\ GenerationJob.result job' = Some cachedResult
    /\ GenerationJob.status job' = completed
    /\ GenerationJob.progress job' = 100
    /\ GenerationJob.error job' = GenerationJob.error job
    /\ cacheManager g' = w'
    /\ calls g' = calls g.
Proof.
  intros Hjob Hvalid Hget Hhit.
  unfold processJob, bind at 1, processJob_begin, bind at 1, Date_now at 1.
  rewrite (update_job_run _ _ _ _ _ Hjob).
  unfold processJob_continue, try_catch, processJob_steps.
  unfold bind at 1, Date_now at 1.
  unfold bind at 1, validateData. rewrite Hvalid. unfold ret at 1.
  unfold bind at 1, set_job_progress at 1.
  erewrite update_job_run by (simpl; apply Map_get_set_eq).
  unfold bind at 1, on_cache. simpl. rewrite Hget, Hhit.
  unfold complete_job, bind, Date_now.
  erewrite update_job_run by (simpl; apply Map_get_set_eq).
  do 2 eexists. split; [reflexivity|].
  split; [simpl; apply Map_get_set_eq|]. by simpl.
Qed.

(** C8. [cancelJob] returns [true] exactly when the job exists and is
    [pending]; the job then becomes [failed] with the error "Job cancelled"
    (and a fresh [updatedAt]), nothing else changing.  In every other case
    (no such job, or a job that is [processing], [completed] or [failed])
    it returns [false] and leaves everything as it was. *)
Theorem cancelJob_only_pending (jobId : string) (now : Z) (g : Generator) :
  exists b g',
    cancelJob jobId now g = Ok b g'
    /\ (b = true <->
        exists job, Map_get jobId (jobs g) = Some job
                    /\ GenerationJob.status job = pending)
    /\ (b = true ->
        exists job,
          Map_get jobId (jobs g) = Some job
          /\ g' = with_jobs
                    (Map_set jobId
                       (GenerationJob.mk (GenerationJob.id job)
                          (GenerationJob.templateId job) failed
                          (GenerationJob.progress job) (GenerationJob.data job)
                          (GenerationJob.options job) (GenerationJob.result job)
                          (Some "Job cancelled"%string) (GenerationJob.createdAt job)
                          now (GenerationJob.expiresAt job))
                       (jobs g)) g)
    /\ (b = false -> g' = g).
Proof.
  unfold cancelJob, bind at 1, read at 1.
  destruct (Map_get jobId (jobs g)) as [job|] eqn:Hjob.
  - destruct (GenerationJob.status job) eqn:Hstatus; simpl.
    + unfold bind, Date_now. rewrite (update_job_run _ _ _ _ _ Hjob). simpl.
      do 2 eexists. split; [reflexivity|]. split_and!; try done.
      * split; [|done]. intros _. by exists job.
      * intros _. by exists job.
    + do 2 eexists. split; [reflexivity|]. split_and!; try done.
      split; [done|]. intros (j & [= <-] & Hs). congruence.
    + do 2 eexists. split; [reflexivity|]. split_and!; try done.
      split; [done|]. intros (j & [= <-] & Hs). congruence.
    + do 2 eexists. split; [reflexivity|]. split_and!; try done.
      split; [done|]. intros (j & [= <-] & Hs). congruence.
  - do 2 eexists. split; [reflexivity|]. split_and!; try done.
    split; [done|]. by intros (j & ? & _).
Qed.

(** The same request served twice with [returnBuffer]: the first job
    renders and holds the PDF bytes as a [Buffer]; the second is served from
    the cache, makes no boundary call, and holds a plain object in place of
    the [Buffer]. *)
Lemma cached_result_loses_buffer :
  option_map GenerationJob.status (Map_get "job-1" (jobs after_second_job)) = Some completed
  /\ option_map GenerationJob.status (Map_get "job-2" (jobs after_second_job)) = Some completed
  /\ result_field after_second_job "job-1" "pdfBuffer" = Some (JBuffer [x25; x50; x44; x46])
  /\ result_field after_second_job "job-2" "pdfBuffer"
     = Some (buffer_toJSON [x25; x50; x44; x46])
  /\ calls after_second_job = calls after_first_job.
Proof. split_and!; by vm_compute. Qed.

(** A job is never observed [pending]: when [generatePDF] returns, the job
    it returns is already [processing], so a [cancelJob] made afterwards
    returns [false]. *)
Lemma generatePDF_returns_processing jobId options now g c :
  registry_lookup (GenerationOptions.templateId options) = Some c ->
  exists job g',
    generatePDF jobId options now g = Ok job g'
    /\ Map_get jobId (jobs g') = Some job
    /\ GenerationJob.status job = processing
    /\ GenerationJob.progress job = 10
    /\ cancelJob jobId now g' = Ok false g'.
Proof.
  intros Hreg. unfold generatePDF. rewrite Hreg.
  unfold bind at 1, Date_now at 1. unfold bind at 1, read at 1.
  unfold bind at 1, write at 1. unfold bind at 1, processJob_begin.
  unfold bind at 1, Date_now at 1.
  erewrite update_job_run by (simpl; apply Map_get_set_eq).
  unfold bind, read, ret. simpl. rewrite Map_get_set_eq. simpl.
  do 2 eexists. split; [reflexivity|]. simpl.
  split; [apply Map_get_set_eq|]. split; [done|]. split; [done|].
  unfold cancelJob, bind, read. simpl. by rewrite Map_get_set_eq.
Qed.

(* ===================================================================== *)
(** ** The theorems at sample inputs                                      *)
(* ===================================================================== *)

Lemma generateCacheKey_deterministic_witness :
  generateCacheKey "invoice" invoice_data invoice_options
  = generateCacheKey "invoice" invoice_data_reordered invoice_options_reordered.
Proof.
  apply generateCacheKey_deterministic; vm_compute; reflexivity.
Defined.

Lemma capacity_invariant_witness :
  maxSize (this after_three_sets) = 10
  /\ total_size (live_entries 20 (cacheIndex (this after_three_sets))) <= 10.
Proof.
  apply (capacity_invariant "./cache" 10 1000 three_sets after_three_sets 20).
  - lia.
  - repeat constructor; vm_compute; discriminate.
  - vm_compute. reflexivity.
Defined.

Lemma ensureSpace_evicts_oldest_first_witness :
  exists w' evicted ops,
    ensureSpace 5 10 two_entries = Ok tt w'
    /\ oplog (fs w') = oplog (fs two_entries) ++ ops
    /\ unlinked ops = map (entry_path two_entries) evicted
    /\ oldest_first 5 (maxSize (this two_entries)) (cacheIndex (this two_entries))
         evicted (cacheIndex (this w'))
    /\ StronglySorted
         (fun a b => timestamp_of (cacheIndex (this two_entries)) a
                     <= timestamp_of (cacheIndex (this two_entries)) b) evicted
    /\ Forall (fun k => forall k' e', Map_get k' (cacheIndex (this w')) = Some e' ->
                 timestamp_of (cacheIndex (this two_entries)) k
                 <= CacheEntry.timestamp e')
         evicted
    /\ (total_size (cacheIndex (this w')) + 5 <= maxSize (this two_entries)
        \/ cacheIndex (this w') = []).
Proof.
  apply (ensureSpace_evicts_oldest_first 5 10 two_entries).
  split.
  - apply (bool_decide_unpack _). vm_compute. exact I.
  - repeat constructor; vm_compute; discriminate.
Defined.

Lemma delete_removes_and_persists_witness :
  (exists w1, fs_unlink (entry_path one_entry_payload_lost "a") 5 one_entry_payload_lost
              = Throw "ENOENT" w1)
  /\ exists w',
      delete "a" 5 one_entry_payload_lost = Ok true w'
      /\ cacheIndex (this w') = Map_delete "a" (cacheIndex (this one_entry_payload_lost))
      /\ (NoDup (Map_keys (cacheIndex (this one_entry_payload_lost))) ->
          Map_get "a" (cacheIndex (this w')) = None)
      /\ files (fs w') !! indexPath w'
         = Some (JSON_stringify_pretty (indexData (cacheIndex (this w')))).
Proof.
  split.
  - eexists. vm_compute. reflexivity.
  - apply (proj1 (delete_removes_and_persists "a" 5 one_entry_payload_lost)
             (CacheEntry.mk "a" (JNum 1) 0 1000 1 None)).
    vm_compute. reflexivity.
Defined.

Lemma get_after_set_expiry_witness :
  let w0 := empty_store "./cache" 10 1000 in
  let w1 := world_after (set "a" (JNum 7) (Some 1000) None) 0 w0 in
  (500 <= 0 + 1000 -> exists w2, get "a" 500 w1 = Ok (revive (JNum 7)) w2)
  /\ (500 > 0 + 1000 ->
      exists w2, get "a" 500 w1 = Ok JNull w2
                 /\ Map_get "a" (cacheIndex (this w2)) = None).
Proof.
  apply (get_after_set_expiry "a" (JNum 7) 1000 None 0 500
           (empty_store "./cache" 10 1000)).
  - vm_compute. reflexivity.
  - discriminate.
  - vm_compute. constructor.
  - vm_compute. reflexivity.
Defined.


Lemma processJob_cache_hit_witness :
  exists g' job',
    processJob quiet_env "job-2" (Template invoice_config) buffered_request 1
      second_submission = Ok tt g'
    /\ Map_get "job-2" (jobs g') = Some job'
    /\ GenerationJob.result job' = Some cached_payload
    /\ GenerationJob.status job' = completed
    /\ GenerationJob.progress job' = 100
    /\ GenerationJob.error job' = GenerationJob.error second_job
    /\ cacheManager g'
       = world_after (get buffered_request_key) 1 (cacheManager second_submission)
    /\ calls g' = calls second_submission.
Proof.
  apply (processJob_cache_hit quiet_env "job-2" invoice_config buffered_request 1
           second_submission second_job cached_payload
           (world_after (get buffered_request_key) 1 (cacheManager second_submission))).
  - vm_compute. reflexivity.
  - vm_compute. reflexivity.
  - vm_compute. reflexivity.
  - vm_compute. reflexivity.
Defined.

(* ===================================================================== *)
(** ** The shape of a cache key                                           *)
(* ===================================================================== *)

Lemma hex_digit_is_hex (n : N) : (n < 16)%N -> is_hex_digit (hex_digit n) = true.
Proof.
  intros Hn.
  assert (n ∈ [0; 1; 2; 3; 4; 5; 6; 7; 8; 9; 10; 11; 12; 13; 14; 15]%N) as Hcases.
  { rewrite !elem_of_cons. lia. }
  repeat (apply elem_of_cons in Hcases as [->|Hcases]; [reflexivity|]).
  by apply elem_of_nil in Hcases.
Qed.

Lemma hex_word_length n : forall x, String.length (SHA256.hex_word n x) = n.
Proof.
  induction n as [|n IH]; intros x; simpl; [done|].
  rewrite length_append, IH. simpl. lia.
Qed.

Lemma list_ascii_of_string_app (s t : string) :
  list_ascii_of_string (s ++ t)%string
  = list_ascii_of_string s ++ list_ascii_of_string t.
Proof. induction s as [|c s IH]; simpl; [done|]. by rewrite IH. Qed.

Lemma hex_word_hex n : forall x,
  forallb is_hex_digit (list_ascii_of_string (SHA256.hex_word n x)) = true.
Proof.
  induction n as [|n IH]; intros x; simpl; [done|].
  rewrite list_ascii_of_string_app, forallb_app, IH. simpl.
  rewrite hex_digit_is_hex; [done|].
  assert (0 <= x mod 16 < 16) by (apply Z.mod_pos_bound; lia). lia.
Qed.

Lemma round_length st kw : length st = 8%nat -> length (SHA256.round st kw) = 8%nat.
Proof.
  intros H. do 9 (destruct st as [|? st]; try discriminate H). reflexivity.
Qed.

Lemma rounds_length kws : forall st,
  length st = 8%nat -> length (fold_left SHA256.round kws st) = 8%nat.
Proof.
  induction kws as [|kw kws IH]; intros st H; simpl; [done|].
  by apply IH, round_length.
Qed.

Lemma compress_length h block :
  length h = 8%nat -> length (SHA256.compress h block) = 8%nat.
Proof.
  intros H. unfold SHA256.compress.
  rewrite length_map, length_combine, rounds_length by done. lia.
Qed.

Lemma digest_length msg : length (SHA256.digest msg) = 8%nat.
Proof.
  unfold SHA256.digest.
  generalize (SHA256.chunks (length (SHA256.pad msg)) 64 (SHA256.pad msg)).
  assert (length SHA256.H0 = 8%nat) as H by reflexivity.
  revert H. generalize SHA256.H0.
  intros h H blocks. revert h H.
  induction blocks as [|b blocks IH]; intros h H; simpl; [done|].
  by apply IH, compress_length.
Qed.

Lemma substring_prefix (s t : string) :
  substring 0 (String.length s) (s ++ t)%string = s.
Proof.
  induction s as [|c s IH]; simpl.
  - by destruct t.
  - by rewrite IH.
Qed.

(** The first sixteen digits of a digest. *)
Lemma hex_prefix (s : string) :
  exists a b, substring 0 16 (SHA256.hex s)
              = (SHA256.hex_word 8 a ++ SHA256.hex_word 8 b)%string.
Proof.
  unfold SHA256.hex.
  pose proof (digest_length (SHA256.bytes_of_string s)) as H.
  destruct (SHA256.digest _) as [|a [|b ws]]; try discriminate H.
  exists a, b. cbn [fold_right].
  rewrite <- append_assoc.
  assert (16%nat = String.length (SHA256.hex_word 8 a ++ SHA256.hex_word 8 b)%string) as ->.
  { by rewrite length_append, !hex_word_length. }
  apply substring_prefix.
Qed.

(** X1. Every cache key is the template identifier, an underscore, and
    sixteen lower-case hexadecimal digits, whatever the data and the
    options are. *)
Theorem generateCacheKey_shape (templateId : string) (data options : value) :
  exists hash,
    generateCacheKey templateId data options = (templateId ++ "_" ++ hash)%string
    /\ String.length hash = 16%nat
    /\ forallb is_hex_digit (list_ascii_of_string hash) = true.
Proof.
  unfold generateCacheKey.
  destruct (hex_prefix (JSON_stringify
              (JObj [("templateId", JStr templateId);
                     ("data", sortObjectKeys data);
                     ("options", sortObjectKeys options)]))) as (a & b & ->).
  eexists. split; [reflexivity|]. split.
  - by rewrite length_append, !hex_word_length.
  - by rewrite list_ascii_of_string_app, forallb_app, !hex_word_hex.
Qed.

Lemma generateCacheKey_not_empty templateId data options :
  generateCacheKey templateId data options <> "".
Proof. unfold generateCacheKey. by destruct templateId. Qed.

Lemma generateCacheKey_not_index templateId data options :
  generateCacheKey templateId data options <> "index".
Proof.
  unfold generateCacheKey.
  destruct (hex_prefix (JSON_stringify
              (JObj [("templateId", JStr templateId);
                     ("data", sortObjectKeys data);
                     ("options", sortObjectKeys options)]))) as (a & b & ->).
  intros H. apply (f_equal String.length) in H.
  rewrite !length_append, !hex_word_length in H. simpl in H. lia.
Qed.

(* ===================================================================== *)
(** ** The cache under a sequence of calls                                *)
(* ===================================================================== *)

Lemma get_run key now w :
  get key now w
  = match Map_get key (cacheIndex (this w)) with
    | None => Ok JNull w
    | Some e =>
        if now >? CacheEntry.expiresAt e then Ok JNull (deleted key w)
        else
          let w1 := after_read (entry_path w key) w in
          match files (fs w) !! entry_path w key with
          | Some text =>
              match JSON_parse text with
              | Some v => Ok v w1
              | None => Ok JNull (deleted key w1)
              end
          | None => Ok JNull (deleted key w1)
          end
    end.
Proof.
  unfold get, bind at 1, read at 1. simpl.
  destruct (Map_get key (cacheIndex (this w))) as [e|] eqn:Hget; [|done].
  unfold bind at 1, Date_now at 1.
  destruct (now >? CacheEntry.expiresAt e).
  - unfold bind. by rewrite delete_run, Hget.
  - unfold try_catch, bind, getCacheFilePath, read, ret, fs_readFile. simpl.
    fold (entry_path w key).
    destruct (files (fs w) !! entry_path w key) as [text|] eqn:Hfile.
    + unfold JSON_parse_or_throw. destruct (JSON_parse text) as [v|]; simpl; [done|].
      unfold throw. rewrite delete_run. simpl. by rewrite Hget.
    + rewrite delete_run. simpl. by rewrite Hget.
Qed.

Lemma for_each_deletes keys now : forall acc w,
  fold_left (fun acc key => acc ;;; delete key ;;; ret tt) keys acc now w
  = match acc now w with
    | Ok _ w1 => Ok tt (purged keys w1)
    | Throw e w1 => Throw e w1
    | Hang => Hang
    | OutOfFuel => OutOfFuel
    end.
Proof.
  induction keys as [|key keys IH]; intros acc w; simpl.
  - by destruct (acc now w) as [[] w1| | |].
  - rewrite IH. unfold bind at 1.
    destruct (acc now w) as [[] w1| | |]; try done.
    unfold bind, ret. rewrite delete_run.
    by destruct (Map_get key (cacheIndex (this w1))).
Qed.

Lemma cleanupExpired_run now w :
  cleanupExpired now w = Ok tt (purged (expired_keys now (cacheIndex (this w))) w).
Proof.
  unfold cleanupExpired, bind at 1, Date_now at 1, bind at 1, read at 1.
  by rewrite for_each_deletes.
Qed.

Lemma unlink_loop_run keys now w0 : forall w,
  this w = this w0 ->
  for_each keys
    (fun key =>
       try_catch
         (filePath <- getCacheFilePath key ;;
          fs_unlink filePath)
         (fun _ => ret tt)) now w
  = Ok tt (mkWorld (this w0)
             (fold_left
                (fun d key =>
                   match files d !! entry_path w0 key with
                   | Some _ => run_op (OpUnlink (entry_path w0 key)) d
                   | None => log_op (OpUnlink (entry_path w0 key)) d
                   end)
                keys (fs w))).
Proof.
  induction keys as [|key keys IH]; intros w Hthis; simpl.
  - unfold ret. destruct w. simpl in *. by subst.
  - unfold bind at 1, try_catch, bind, getCacheFilePath, read, ret, fs_unlink. simpl.
    unfold entry_path. rewrite Hthis.
    destruct (files (fs w) !! _) eqn:Hfile; simpl; by rewrite IH.
Qed.

Lemma clear_run now w : clear now w = Ok tt (cleared w).
Proof.
  unfold clear, bind at 1, read at 1. simpl.
  unfold bind at 1. rewrite (unlink_loop_run _ now w w) by done.
  reflexivity.
Qed.

Lemma Map_get_None_keys {V} k (m : list (string * V)) :
  Map_get k m = None <-> k ∉ Map_keys m.
Proof.
  induction m as [|[k' v] m IH]; simpl.
  - split; [intros _ H; by apply elem_of_nil in H | done].
  - rewrite not_elem_of_cons. destruct (String.eqb_spec k k') as [->|Hne].
    + split; [done | by intros [? _]].
    + rewrite IH. tauto.
Qed.

Lemma Map_keys_delete_notin {V} k (m : list (string * V)) :
  NoDup (Map_keys m) -> k ∉ Map_keys (Map_delete k m).
Proof. intros Hnd. by apply Map_get_None_keys, Map_get_delete_eq. Qed.

Lemma NoDup_Map_delete {V} k (m : list (string * V)) :
  NoDup (Map_keys m) -> NoDup (Map_keys (Map_delete k m)).
Proof. intros Hnd. eapply sublist_NoDup; [exact Hnd|]. apply Map_keys_delete_sublist. Qed.

Lemma entry_path_inj w k1 k2 : entry_path w k1 = entry_path w k2 -> k1 = k2.
Proof.
  unfold entry_path, path_join. intros H.
  apply append_inv_head in H. apply (append_inv_head "/") in H.
  by apply (append_inv_tail k1 k2 ".json").
Qed.

Lemma files_deleted key w :
  files (fs (deleted key w))
  = <[indexPath w := JSON_stringify_pretty
                       (indexData (Map_delete key (cacheIndex (this w))))]>
      (base.delete (entry_path w key) (files (fs w))).
Proof.
  unfold deleted. destruct (files (fs w) !! entry_path w key) eqn:Hfile; simpl; [done|].
  by rewrite delete_id.
Qed.

Lemma persisted_deleted key w : persisted (deleted key w).
Proof. unfold persisted. rewrite files_deleted. apply lookup_insert_eq. Qed.

Lemma persisted_stored key data ttl metadata now w :
  persisted (stored key data ttl metadata now w).
Proof. unfold persisted. simpl. apply lookup_insert_eq. Qed.

Lemma persisted_cleared w : persisted (cleared w).
Proof. unfold persisted. simpl. apply lookup_insert_eq. Qed.

Lemma persisted_same_files w d :
  files d = files (fs w) -> persisted w -> persisted (mkWorld (this w) d).
Proof. unfold persisted, indexPath. simpl. by intros ->. Qed.

Lemma purged_persisted keys : forall w, persisted w -> persisted (purged keys w).
Proof.
  induction keys as [|key keys IH]; intros w Hw; simpl; [done|].
  apply IH. destruct (Map_get key _); [apply persisted_deleted | done].
Qed.

Lemma run_call_persisted c now w w' :
  persisted w -> run_call c now w = Ok tt w' -> persisted w'.
Proof.
  intros Hw. destruct c as [key|key data ttl metadata|key| |]; simpl.
  - unfold bind, ret. rewrite get_run.
    destruct (Map_get key _) as [e|]; [|by intros [= <-]].
    destruct (now >? _); [intros [= <-]; apply persisted_deleted|]. simpl.
    destruct (files (fs w) !! _) as [text|];
      [destruct (JSON_parse text)|]; intros [= <-];
      try apply persisted_deleted.
    by apply persisted_same_files.
  - rewrite set_run.
    destruct (ensureSpace _ now w) as [[] w1| | |] eqn:Hroom; try done.
    intros [= <-]. apply persisted_stored.
  - unfold bind, ret. rewrite delete_run.
    destruct (Map_get key _); intros [= <-]; [apply persisted_deleted | done].
  - rewrite clear_run. intros [= <-]. apply persisted_cleared.
  - unfold cleanup. rewrite cleanupExpired_run. intros [= <-]. by apply purged_persisted.
Qed.

(** X5. The index file follows the index in memory: if it holds the
    serialization of the index before a sequence of calls of [get], [set],
    [delete], [clear] and [cleanup] that all return, it does so after the
    sequence. *)
Theorem index_file_follows_index (cs : list (Z * cache_call)) :
  forall w w' : World,
    persisted w -> run_calls cs w = Ok tt w' -> persisted w'.
Proof.
  induction cs as [|[now c] cs IH]; intros w w' Hw; simpl.
  - by intros [= <-].
  - destruct (run_call c now w) as [[] w1| | |] eqn:Hcall; try done.
    apply IH. by eapply run_call_persisted.
Qed.

Lemma backed_same_files w d :
  files d = files (fs w) -> backed w -> backed (mkWorld (this w) d).
Proof. unfold backed, entry_path. simpl. by intros ->. Qed.

Lemma backed_deleted key w : backed w -> backed (deleted key w).
Proof.
  intros [Hnd Hall]. split.
  - unfold deleted. simpl. by apply NoDup_Map_delete.
  - pose proof (Map_keys_delete_notin key _ Hnd) as Hnotin.
    assert (cacheIndex (this (deleted key w)) = Map_delete key (cacheIndex (this w)))
      as -> by reflexivity.
    eapply Forall_of_sublist in Hall; [|apply (Map_delete_sublist key)].
    rewrite Forall_forall in Hall. apply Forall_forall. intros [k e] Hin.
    destruct (Hall _ Hin) as [[Hplain Hk] Hfile]. simpl in Hplain, Hk, Hfile.
    split; [done|].
    change (files (fs (deleted key w)) !! entry_path w k
            = Some (JSON_stringify (CacheEntry.data e))).
    rewrite files_deleted.
    rewrite lookup_insert_ne by (intros H; by apply (entry_path_not_index w k)).
    rewrite lookup_delete_ne; [done|].
    intros H%entry_path_inj. subst. apply Hnotin.
    unfold Map_keys. apply list_elem_of_fmap. by exists (k, e).
Qed.

Lemma Forall_Map_set_other {V} (P : string * V -> Prop) k (v : V)
  (m : list (string * V)) :
  NoDup (Map_keys m) ->
  P (k, v) -> Forall (fun kv => fst kv <> k -> P kv) m -> Forall P (Map_set k v m).
Proof.
  intros Hnd Hnew Hall. induction m as [|[k' v'] m IH]; simpl.
  - by constructor.
  - simpl in Hnd. apply NoDup_cons in Hnd as [Hnotin Hnd].
    apply Forall_cons in Hall as [Hkv Hall].
    destruct (String.eqb_spec k k') as [->|Hne].
    + constructor; [done|].
      rewrite Forall_forall in Hall. apply Forall_forall. intros [k v0] Hin.
      apply Hall; [done|]. simpl. intros ->. apply Hnotin.
      unfold Map_keys. apply list_elem_of_fmap. by exists (k', v0).
    + constructor; [apply Hkv; simpl; congruence | by apply IH].
Qed.

Lemma files_stored key data ttl metadata now w k :
  files (fs (stored key data ttl metadata now w)) !! entry_path w k
  = if String.eqb k "index"
    then Some (JSON_stringify_pretty
                 (indexData (cacheIndex (this (stored key data ttl metadata now w)))))
    else if String.eqb k key then Some (JSON_stringify data)
         else files (fs w) !! entry_path w k.
Proof.
  simpl. destruct (String.eqb_spec k "index") as [->|Hk].
  - by rewrite lookup_insert_eq.
  - rewrite lookup_insert_ne by (intros H; by apply (entry_path_not_index w k)).
    destruct (String.eqb_spec k key) as [->|Hne].
    + apply lookup_insert_eq.
    + rewrite lookup_insert_ne; [done|]. intros H%entry_path_inj. by subst.
Qed.

Lemma backed_stored key data ttl metadata now w :
  own_file key -> backed w -> backed (stored key data ttl metadata now w).
Proof.
  intros [Hplain Hkey] [Hnd Hall]. split.
  - simpl. by apply NoDup_Map_set.
  - assert (cacheIndex (this (stored key data ttl metadata now w))
            = Map_set key
                (CacheEntry.mk key data now (now + ttl) (serialized_size data) metadata)
                (cacheIndex (this w))) as -> by reflexivity.
    apply Forall_Map_set_other; [done| |].
    + split; [done|]. simpl fst.
      change (files (fs (stored key data ttl metadata now w)) !! entry_path w key
              = Some (JSON_stringify data)).
      rewrite files_stored, String.eqb_refl.
      by destruct (String.eqb_spec key "index").
    + rewrite Forall_forall in Hall. apply Forall_forall. intros [k e] Hin Hne.
      destruct (Hall _ Hin) as [[Hkplain Hk] Hfile]. simpl in Hkplain, Hk, Hfile, Hne.
      split; [done|]. simpl fst.
      change (files (fs (stored key data ttl metadata now w)) !! entry_path w k
              = Some (JSON_stringify (CacheEntry.data e))).
      rewrite files_stored.
      destruct (String.eqb_spec k "index"); [done|].
      by destruct (String.eqb_spec k key).
Qed.

Lemma backed_cleared w : backed (cleared w).
Proof. split; simpl; constructor. Qed.

Lemma purged_backed keys : forall w, backed w -> backed (purged keys w).
Proof.
  induction keys as [|key keys IH]; intros w Hw; simpl; [done|].
  apply IH. destruct (Map_get key _); [by apply backed_deleted | done].
Qed.

Lemma ensureSpace_loop_backed fuel new now : forall cur w w',
  backed w -> ensureSpace_loop fuel new cur now w = Ok tt w' -> backed w'.
Proof.
  induction fuel as [|fuel IH]; intros cur w w' Hw; simpl;
    unfold bind at 1, read at 1; simpl.
  - destruct (_ && _); [|by intros [= <-]]. destruct (truthy_key _); [|done].
    unfold bind. rewrite delete_run. by destruct (Map_get _ _).
  - destruct (_ && _); [|by intros [= <-]]. destruct (truthy_key _); [|done].
    unfold bind at 1. rewrite delete_run.
    destruct (Map_get _ _); apply IH; [by apply backed_deleted | done].
Qed.

Lemma get_backed key now w v w' :
  backed w -> get key now w = Ok v w' -> backed w'.
Proof.
  intros Hw. rewrite get_run.
  destruct (Map_get key _) as [e|]; [|by intros [= _ <-]].
  destruct (now >? _); [intros [= _ <-]; by apply backed_deleted|]. simpl.
  assert (backed (after_read (entry_path w key) w)) as Hread
    by (by apply backed_same_files).
  destruct (files (fs w) !! _) as [text|];
    [destruct (JSON_parse text)|]; intros [= _ <-];
    try (by apply backed_deleted); done.
Qed.

Lemma run_call_backed c now w w' :
  stores_apart c -> backed w -> run_call c now w = Ok tt w' -> backed w'.
Proof.
  intros Hc Hw. destruct c as [key|key data ttl metadata|key| |]; simpl.
  - unfold bind, ret. destruct (get key now w) as [v w1| | |] eqn:Hget; try done.
    intros [= <-]. by eapply get_backed.
  - rewrite set_run.
    destruct (ensureSpace _ now w) as [[] w1| | |] eqn:Hroom; try done.
    intros [= <-]. apply backed_stored; [done|].
    unfold ensureSpace, bind, read in Hroom. simpl in Hroom.
    by eapply ensureSpace_loop_backed.
  - unfold bind, ret. rewrite delete_run.
    destruct (Map_get key _); intros [= <-]; [by apply backed_deleted | done].
  - rewrite clear_run. intros [= <-]. apply backed_cleared.
  - unfold cleanup. rewrite cleanupExpired_run. intros [= <-]. by apply purged_backed.
Qed.

Lemma run_calls_backed cs : forall w w',
  Forall (fun c => stores_apart (snd c)) cs ->
  backed w -> run_calls cs w = Ok tt w' -> backed w'.
Proof.
  induction cs as [|[now c] cs IH]; intros w w' Hcs Hw; simpl.
  - by intros [= <-].
  - apply Forall_cons in Hcs as [Hc Hcs].
    destruct (run_call c now w) as [[] w1| | |] eqn:Hcall; try done.
    apply IH; [done|]. by eapply run_call_backed.
Qed.

Lemma backed_get key e now w :
  backed w ->
  Map_get key (cacheIndex (this w)) = Some e ->
  now <= CacheEntry.expiresAt e ->
  get key now w
  = Ok (revive (CacheEntry.data e)) (after_read (entry_path w key) w).
Proof.
  intros [Hnd Hall] Hget Hnow. rewrite get_run, Hget.
  destruct (Z.gtb_spec now (CacheEntry.expiresAt e)) as [|_]; [lia|]. simpl.
  rewrite Forall_forall in Hall.
  destruct (Hall (key, e)) as [_ Hfile]; [by apply Map_get_elem|].
  simpl in Hfile. rewrite Hfile.
  by rewrite JSON_parse_stringify.
Qed.

(** X6. Start from a store in which every indexed entry has its payload
    on disk in a file of its own, such as the empty store, and make any
    calls that store only under plain file names other than "index".  Then
    every indexed entry that has not expired still has its payload: [get]
    returns its data, as [JSON.parse] reads it back, and changes neither
    the index nor the files. *)
Theorem indexed_entry_is_served
  (cs : list (Z * cache_call)) (w w1 : World) (key : string) (e : CacheEntry.t)
  (now : Z) :
  backed w ->
  Forall (fun c => stores_apart (snd c)) cs ->
  run_calls cs w = Ok tt w1 ->
  Map_get key (cacheIndex (this w1)) = Some e ->
  now <= CacheEntry.expiresAt e ->
  exists w2,
    get key now w1 = Ok (revive (CacheEntry.data e)) w2
    /\ this w2 = this w1
    /\ files (fs w2) = files (fs w1).
Proof.
  intros Hw Hcs Hrun Hget Hnow.
  pose proof (run_calls_backed cs w w1 Hcs Hw Hrun) as Hw1.
  eexists. split; [by apply backed_get|]. by split.
Qed.

(** X3. On a cache directory that takes writes, [get] never throws and
    never fails to return, whether the payload file is there, missing or
    corrupt.  For a key that is not indexed it returns [null] and leaves
    the store untouched; whenever it returns a value other than [null], the
    index and the files are as they were. *)
Theorem get_always_returns (key : string) (now : Z) (w : World) :
  exists v w1,
    get key now w = Ok v w1
    /\ (Map_get key (cacheIndex (this w)) = None -> v = JNull /\ w1 = w)
    /\ (v <> JNull -> this w1 = this w /\ files (fs w1) = files (fs w)).
Proof.
  rewrite get_run.
  destruct (Map_get key (cacheIndex (this w))) as [e|].
  - destruct (now >? CacheEntry.expiresAt e); [by eexists _, _|]. simpl.
    destruct (files (fs w) !! entry_path w key) as [text|];
      [destruct (JSON_parse text) as [v|]|]; by eexists _, _.
  - by eexists _, _.
Qed.

(** A text that begins like no JSON text is a syntax error. *)
Lemma starts_no_value_unparsed text :
  starts_no_value text = true -> JSON_parse text = None.
Proof.
  unfold starts_no_value, JSON_parse. simpl.
  destruct (skip_ws text) as [|c rest]; [done|].
  destruct c as [[] [] [] [] [] [] [] []]; intros H; vm_compute in H;
    try discriminate H; reflexivity.
Qed.

(** X4. When the payload file of an indexed, unexpired entry, filed under
    a plain file name, is missing, or is there but empty, blank or
    beginning with a character that begins no JSON text, [get] returns
    [null], removes the entry from the index and rewrites the index file
    accordingly. *)
Theorem get_drops_unreadable_entry
  (key : string) (now : Z) (w : World) (e : CacheEntry.t) :
  plain_key key = true ->
  NoDup (Map_keys (cacheIndex (this w))) ->
  Map_get key (cacheIndex (this w)) = Some e ->
  now <= CacheEntry.expiresAt e ->
  match files (fs w) !! entry_path w key with
  | Some text => starts_no_value text = true
  | None => True
  end ->
  exists w1,
    get key now w = Ok JNull w1
    /\ cacheIndex (this w1) = Map_delete key (cacheIndex (this w))
    /\ Map_get key (cacheIndex (this w1)) = None
    /\ persisted w1.
Proof.
  intros _ Hnd Hget Hnow Hfile. rewrite get_run, Hget.
  destruct (Z.gtb_spec now (CacheEntry.expiresAt e)) as [|_]; [lia|]. simpl.
  exists (deleted key (after_read (entry_path w key) w)).
  split; [|split; [done|split; [by apply Map_get_delete_eq | apply persisted_deleted]]].
  destruct (files (fs w) !! entry_path w key) as [text|]; [|done].
  by rewrite (starts_no_value_unparsed text Hfile).
Qed.

Lemma ensureSpace_fits new now w :
  total_size (cacheIndex (this w)) + new <= maxSize (this w) ->
  ensureSpace new now w = Ok tt w.
Proof.
  intros Hfit. unfold ensureSpace, bind, read. simpl.
  assert ((total_size (cacheIndex (this w)) + new >? maxSize (this w)) = false) as Hcond.
  { destruct (Z.gtb_spec (total_size (cacheIndex (this w)) + new) (maxSize (this w)));
      [lia | done]. }
  destruct (length (cacheIndex (this w))); simpl; unfold bind, read; simpl;
    by rewrite Hcond.
Qed.

(** X8. When the new payload fits beside the present entries, [set] evicts
    nothing: it adds or replaces the entry of the key, stamped with the
    clock and the time to live, and writes exactly two files, the payload
    and then the index. *)
Theorem set_without_eviction
  (key : string) (data : value) (ttl : option Z) (metadata : option value)
  (now : Z) (w : World) :
  total_size (cacheIndex (this w)) + serialized_size data <= maxSize (this w) ->
  let entry :=
    CacheEntry.mk key data now (now + default (defaultTTL (this w)) ttl)
      (serialized_size data) metadata in
  exists w1,
    set key data ttl metadata now w = Ok tt w1
    /\ cacheIndex (this w1) = Map_set key entry (cacheIndex (this w))
    /\ ops_of (set key data ttl metadata) now w
       = [ OpWriteFile (entry_path w key) (JSON_stringify data);
           OpWriteFile (indexPath w)
             (JSON_stringify_pretty (indexData (cacheIndex (this w1)))) ].
Proof.
  intros Hfit entry. unfold ops_of. rewrite set_run, ensureSpace_fits by done.
  eexists. split; [reflexivity|]. split; [reflexivity|].
  simpl. rewrite <- app_assoc. apply drop_own_length.
Qed.

(** X9. A payload larger than the whole capacity is stored all the same:
    [set] evicts every entry, and leaves a cache that holds the new entry
    alone and exceeds its size limit. *)
Theorem set_oversized_entry_evicts_all
  (key : string) (data : value) (ttl : option Z) (metadata : option value)
  (now : Z) (w : World) :
  evictable (cacheIndex (this w)) ->
  sizes_nonneg (cacheIndex (this w)) ->
  serialized_size data > maxSize (this w) ->
  let entry :=
    CacheEntry.mk key data now (now + default (defaultTTL (this w)) ttl)
      (serialized_size data) metadata in
  exists w1,
    set key data ttl metadata now w = Ok tt w1
    /\ cacheIndex (this w1) = [(key, entry)]
    /\ total_size (cacheIndex (this w1)) > maxSize (this w1).
Proof.
  intros Hev Hsizes Hbig entry. rewrite set_run.
  destruct (ensureSpace_loop_oldest_first (length (cacheIndex (this w)))
              (serialized_size data) now w Hev)
    as (w0 & evicted & ops & Hrun & _); [done|].
  assert (ensureSpace (serialized_size data) now w = Ok tt w0) as Hroom.
  { unfold ensureSpace, bind, read. simpl. exact Hrun. }
  rewrite Hroom.
  apply ensureSpace_returns in Hroom as (_ & Hmax & _ & Hsub & Hfit).
  assert (cacheIndex (this w0) = []) as Hempty.
  { destruct Hfit as [Hfit|]; [|done].
    pose proof (total_size_nonneg (cacheIndex (this w0))
                  (Forall_of_sublist _ _ _ Hsub Hsizes)). lia. }
  eexists. split; [reflexivity|]. simpl. rewrite Hempty. simpl.
  split; [done|]. rewrite total_size_cons, total_size_nil. simpl. lia.
Qed.



Lemma purged_index keys : forall w,
  cacheIndex (this (purged keys w))
  = fold_left (fun m key => Map_delete key m) keys (cacheIndex (this w)).
Proof.
  induction keys as [|key keys IH]; intros w; simpl; [done|].
  rewrite IH. destruct (Map_get key (cacheIndex (this w))) as [e|] eqn:Hget; [done|].
  f_equal. clear -Hget. induction (cacheIndex (this w)) as [|[k v] m IHm]; [done|].
  simpl in *. destruct (String.eqb key k); [done|]. by rewrite <- IHm.
Qed.

Lemma purged_this keys : forall w,
  cacheDir (this (purged keys w)) = cacheDir (this w)
  /\ maxSize (this (purged keys w)) = maxSize (this w)
  /\ defaultTTL (this (purged keys w)) = defaultTTL (this w).
Proof.
  induction keys as [|key keys IH]; intros w; simpl; [done|].
  destruct (Map_get key (cacheIndex (this w))); [|apply IH].
  destruct (IH (deleted key w)) as (-> & -> & ->). done.
Qed.

Lemma fold_delete_cons {V} keys : forall k (v : V) (m : list (string * V)),
  k ∉ keys ->
  fold_left (fun m key => Map_delete key m) keys ((k, v) :: m)
  = (k, v) :: fold_left (fun m key => Map_delete key m) keys m.
Proof.
  induction keys as [|key keys IH]; intros k v m Hk; simpl; [done|].
  apply not_elem_of_cons in Hk as [Hne Hk].
  destruct (String.eqb_spec key k) as [->|_]; [done|]. by apply IH.
Qed.

Lemma fold_delete_filter {V} (P : string * V -> bool) (m : list (string * V)) :
  NoDup (Map_keys m) ->
  fold_left (fun m key => Map_delete key m) (Map_keys (List.filter P m)) m
  = List.filter (fun kv => negb (P kv)) m.
Proof.
  induction m as [|[k v] m IH]; intros Hnd; simpl; [done|].
  simpl in Hnd. apply NoDup_cons in Hnd as [Hk Hnd].
  destruct (P (k, v)); simpl.
  - rewrite String.eqb_refl. by apply IH.
  - rewrite fold_delete_cons; [by rewrite IH|].
    intros Hin. apply Hk. unfold Map_keys in *.
    apply list_elem_of_fmap in Hin as [kv [-> Hin]].
    apply list_elem_of_fmap. exists kv. split; [done|].
    apply list_elem_of_In, filter_In in Hin as [Hin _]. by apply list_elem_of_In.
Qed.

(** X11. [cleanup] keeps exactly the entries that have not expired, in
    their order, leaves the size limit and the default time to live alone,
    and keeps the index file in step with the index. *)
Theorem cleanup_keeps_exactly_live (now : Z) (w : World) :
  NoDup (Map_keys (cacheIndex (this w))) ->
  exists w1,
    cleanup now w = Ok tt w1
    /\ cacheIndex (this w1) = live_entries now (cacheIndex (this w))
    /\ maxSize (this w1) = maxSize (this w)
    /\ defaultTTL (this w1) = defaultTTL (this w)
    /\ (persisted w -> persisted w1).
Proof.
  intros Hnd. unfold cleanup. rewrite cleanupExpired_run. eexists.
  split; [reflexivity|].
  destruct (purged_this (expired_keys now (cacheIndex (this w))) w) as (_ & Hmax & Httl).
  split_and!; [|done|done|apply purged_persisted].
  rewrite purged_index. unfold expired_keys. by rewrite fold_delete_filter.
Qed.

Lemma stats_total es : forall t o n,
  fst (fst (fold_left stats_step es (t, o, n)))
  = fold_left (fun currentSize e => currentSize + CacheEntry.size e) es t.
Proof. induction es as [|e es IH]; intros t o n; simpl; [done|]. apply IH. Qed.

Lemma stats_oldest es : forall t o n,
  exists m,
    snd (fst (fold_left stats_step es (t, Some o, n))) = Some m
    /\ m <= o
    /\ (m = o \/ m ∈ map CacheEntry.timestamp es)
    /\ Forall (fun e => m <= CacheEntry.timestamp e) es.
Proof.
  induction es as [|e es IH]; intros t o n; simpl.
  - exists o. split_and!; [done | lia | by left | constructor].
  - destruct (Z.ltb_spec (CacheEntry.timestamp e) o) as [Hlt|Hge].
    + destruct (IH (t + CacheEntry.size e) (CacheEntry.timestamp e)
                  (match n with
                   | Some n0 => if CacheEntry.timestamp e >? n0
                                then Some (CacheEntry.timestamp e) else n
                   | None => Some (CacheEntry.timestamp e)
                   end)) as (m & Hm & Hle & Hin & Hall).
      exists m. split_and!; [done | lia | | constructor; [lia | done]].
      right. destruct Hin as [->|Hin]; [apply list_elem_of_here | by apply list_elem_of_further].
    + destruct (IH (t + CacheEntry.size e) o
                  (match n with
                   | Some n0 => if CacheEntry.timestamp e >? n0
                                then Some (CacheEntry.timestamp e) else n
                   | None => Some (CacheEntry.timestamp e)
                   end)) as (m & Hm & Hle & Hin & Hall).
      exists m. split_and!; [done | lia | | constructor; [lia | done]].
      destruct Hin as [->|Hin]; [by left | right; by apply list_elem_of_further].
Qed.

Lemma stats_newest es : forall t o n,
  exists m,
    snd (fold_left stats_step es (t, o, Some n)) = Some m
    /\ n <= m
    /\ (m = n \/ m ∈ map CacheEntry.timestamp es)
    /\ Forall (fun e => CacheEntry.timestamp e <= m) es.
Proof.
  induction es as [|e es IH]; intros t o n; simpl.
  - exists n. split_and!; [done | lia | by left | constructor].
  - destruct (Z.gtb_spec (CacheEntry.timestamp e) n) as [Hgt|Hle].
    + destruct (IH (t + CacheEntry.size e)
                  (match o with
                   | Some o0 => if CacheEntry.timestamp e <? o0
                                then Some (CacheEntry.timestamp e) else o
                   | None => Some (CacheEntry.timestamp e)
                   end) (CacheEntry.timestamp e)) as (m & Hm & Hle & Hin & Hall).
      exists m. split_and!; [done | lia | | constructor; [lia | done]].
      right. destruct Hin as [->|Hin]; [apply list_elem_of_here | by apply list_elem_of_further].
    + destruct (IH (t + CacheEntry.size e)
                  (match o with
                   | Some o0 => if CacheEntry.timestamp e <? o0
                                then Some (CacheEntry.timestamp e) else o
                   | None => Some (CacheEntry.timestamp e)
                   end) n) as (m & Hm & Hle' & Hin & Hall).
      exists m. split_and!; [done | lia | | constructor; [lia | done]].
      destruct Hin as [->|Hin]; [by left | right; by apply list_elem_of_further].
Qed.

(** X12. [getStats] changes nothing.  It reports the number of entries, the
    sum of their sizes and a hit rate of 0; for an empty cache both dates
    are [null], and for a cache whose time stamps are positive they are the
    least and the greatest time stamp of an entry. *)
Theorem getStats_summary (now : Z) (w : World) :
  let idx := cacheIndex (this w) in
  exists s,
    getStats now w = Ok s w
    /\ CacheStats.totalEntries s = Z.of_nat (length idx)
    /\ CacheStats.totalSize s = total_size idx
    /\ CacheStats.hitRate s = 0
    /\ (idx = [] -> CacheStats.oldestEntry s = None /\ CacheStats.newestEntry s = None)
    /\ (idx <> [] ->
        Forall (fun ke => 0 < CacheEntry.timestamp (snd ke)) idx ->
        exists oldest newest,
          CacheStats.oldestEntry s = Some oldest
          /\ CacheStats.newestEntry s = Some newest
          /\ oldest ∈ map CacheEntry.timestamp (Map_values idx)
          /\ newest ∈ map CacheEntry.timestamp (Map_values idx)
          /\ Forall (fun ke => oldest <= CacheEntry.timestamp (snd ke) <= newest) idx).
Proof.
  intros idx. unfold getStats, bind, read, ret. simpl. fold idx.
  destruct (fold_left stats_step (Map_values idx) (0, None, None))
    as [[totalSize oldest] newest] eqn:Hfold.
  eexists. split; [reflexivity|]. simpl.
  split; [done|]. split.
  { pose proof (stats_total (Map_values idx) 0 None None) as H.
    by rewrite Hfold in H. }
  split; [done|]. split.
  { intros Hnil. rewrite Hnil in Hfold. by injection Hfold as <- <- <-. }
  intros Hne Hpos.
  destruct idx as [|[k e] idx'] eqn:Hidx; [done|]. simpl in Hfold.
  pose proof (stats_oldest (Map_values idx') (0 + CacheEntry.size e)
                (CacheEntry.timestamp e) (Some (CacheEntry.timestamp e)))
    as (o & Ho & Hole & Hoin & Hoall).
  pose proof (stats_newest (Map_values idx') (0 + CacheEntry.size e)
                (Some (CacheEntry.timestamp e)) (CacheEntry.timestamp e))
    as (n & Hn & Hnle & Hnin & Hnall).
  rewrite Hfold in Ho, Hn. simpl in Ho, Hn. subst oldest newest.
  assert (o ∈ map CacheEntry.timestamp (Map_values ((k, e) :: idx'))) as Ho.
  { simpl. destruct Hoin as [->|Hin]; [apply list_elem_of_here | by apply list_elem_of_further]. }
  assert (n ∈ map CacheEntry.timestamp (Map_values ((k, e) :: idx'))) as Hn.
  { simpl. destruct Hnin as [->|Hin]; [apply list_elem_of_here | by apply list_elem_of_further]. }
  assert (forall t, t ∈ map CacheEntry.timestamp (Map_values ((k, e) :: idx')) -> 0 < t)
    as Hpos'.
  { intros t Ht. apply list_elem_of_fmap in Ht as [e' [-> He']].
    apply list_elem_of_fmap in He' as [ke [-> Hke]].
    rewrite Forall_forall in Hpos. by apply Hpos. }
  exists o, n. unfold date_or_null.
  destruct (Z.eqb_spec o 0) as [->|_]; [by apply Hpos' in Ho|].
  destruct (Z.eqb_spec n 0) as [->|_]; [by apply Hpos' in Hn|].
  split_and!; try done.
  constructor; [simpl; lia|].
  unfold Map_values in Hoall, Hnall. rewrite Forall_fmap in Hoall, Hnall.
  rewrite Forall_forall in Hoall, Hnall. apply Forall_forall. intros ke Hke.
  specialize (Hoall ke Hke). specialize (Hnall ke Hke). simpl in *. lia.
Qed.

Lemma js_sort_filter (P : string -> bool) (keys : list string) :
  List.filter P (js_sort keys) = js_sort (List.filter P keys).
Proof.
  unfold js_sort. apply (Sorted_unique String.le).
  - apply StronglySorted_Sorted.
    assert (StronglySorted String.le (merge_sort String.le keys)) as Hs.
    { apply Sorted_StronglySorted; [apply _|]. apply Sorted_merge_sort; apply _. }
    induction Hs as [|k l Hs IH Hall]; simpl; [constructor|].
    destruct (P k); [|done]. constructor; [done|].
    rewrite Forall_forall in Hall. apply Forall_forall. intros x Hx.
    apply Hall. apply list_elem_of_In, filter_In in Hx as [Hx _]. by apply list_elem_of_In.
  - apply Sorted_merge_sort; apply _.
  - assert (forall l1 l2 : list string, l1 ≡ₚ l2 -> List.filter P l1 ≡ₚ List.filter P l2)
      as Hfilter.
    { induction 1 as [|x l1 l2 _ IH|x y l|l1 l2 l3 _ IH1 _ IH2]; simpl.
      - done.
      - destruct (P x); [by constructor | done].
      - destruct (P x), (P y); try done. apply perm_swap.
      - by etrans. }
    etrans; [apply Hfilter, merge_sort_Permutation|].
    symmetry. apply merge_sort_Permutation.
Qed.

Lemma assign_skips_proto sorted keys : forall acc,
  fold_left
    (fun sortedObj key => obj_assign sortedObj key (default JNull (obj_get key sorted)))
    keys acc
  = fold_left
      (fun sortedObj key => obj_assign sortedObj key (default JNull (obj_get key sorted)))
      (List.filter (fun k => negb (String.eqb k "__proto__")) keys) acc.
Proof.
  induction keys as [|k keys IH]; intros acc; simpl; [done|].
  unfold obj_assign at 2. destruct (String.eqb k "__proto__") eqn:Hk; simpl.
  - apply IH.
  - rewrite IH. unfold obj_assign at 3. by rewrite Hk.
Qed.

Lemma sortObjectKeys_without_proto props :
  sortObjectKeys (JObj props) = sortObjectKeys (JObj (without_proto props)).
Proof.
  simpl. f_equal. unfold assign_sorted.
  rewrite assign_skips_proto. symmetry. rewrite assign_skips_proto.
  rewrite !js_sort_filter.
  assert (List.filter (fun k => negb (String.eqb k "__proto__")) (obj_keys (without_proto props))
          = List.filter (fun k => negb (String.eqb k "__proto__")) (obj_keys props)) as ->.
  { unfold without_proto. induction props as [|[k v] props IH]; simpl; [done|].
    destruct (String.eqb k "__proto__") eqn:Hk; simpl; [done|].
    rewrite Hk. simpl. by rewrite IH. }
  generalize (@nil (string * value)).
  assert (Forall (fun k => k <> "__proto__")
            (js_sort (List.filter (fun k => negb (String.eqb k "__proto__")) (obj_keys props))))
    as Hall.
  { apply Forall_forall. intros k Hk. rewrite js_sort_elem in Hk.
    apply list_elem_of_In, filter_In in Hk as [_ Hk].
    by destruct (String.eqb_spec k "__proto__"). }
  induction Hall as [|k keys Hk _ IH]; intros acc; simpl; [done|].
  rewrite IH. do 3 f_equal.
  rewrite !obj_get_map. f_equal.
  unfold without_proto.
  clear -Hk. induction props as [|[k' v] props IH]; simpl; [done|].
  destruct (String.eqb_spec k' "__proto__") as [->|Hne]; simpl.
  - destruct (String.eqb_spec k "__proto__"); [done | apply IH].
  - by rewrite IH.
Qed.

(** X2. A member named [__proto__] of the data object does not enter the
    fingerprint: [sortObjectKeys] assigns it to the sorted copy, where the
    assignment creates no member, so that an object and the same object
    without that member get the same key. *)
Theorem generateCacheKey_ignores_proto_member
  (templateId : string) (props : list (string * value)) (options : value) :
  generateCacheKey templateId (JObj props) options
  = generateCacheKey templateId (JObj (without_proto props)) options.
Proof.
  unfold generateCacheKey. by rewrite sortObjectKeys_without_proto.
Qed.

(* ===================================================================== *)
(** ** Jobs settle                                                        *)
(* ===================================================================== *)

Lemma Map_set_same {V} k (v : V) (m : list (string * V)) :
  Map_get k m = Some v -> Map_set k v m = m.
Proof.
  induction m as [|[k' v'] m IH]; simpl; [done|].
  destruct (String.eqb_spec k k') as [->|Hne]; [by intros [= ->]|].
  intros H. by rewrite IH.
Qed.

Lemma Map_set_set {V} k (v v' : V) (m : list (string * V)) :
  Map_set k v' (Map_set k v m) = Map_set k v' m.
Proof.
  induction m as [|[k' v0] m IH]; simpl.
  - by rewrite String.eqb_refl.
  - destruct (String.eqb_spec k k') as [->|Hne]; simpl.
    + by rewrite String.eqb_refl.
    + destruct (String.eqb_spec k k'); [done|]. by rewrite IH.
Qed.

Section ledger.
Variables (jobId : string) (now : Z).
Hypothesis clock : now < MAX_SAFE_INTEGER.

Lemma progressed_same g g' :
  jobs g' = jobs g -> outputDir g' = outputDir g -> browser g' = browser g ->
  is_Some (Map_get jobId (jobs g)) -> progressed jobId g g'.
Proof.
  intros Hjobs Hdir Hbrowser [j Hj]. split; [done|]. split; [done|].
  exists j, (GenerationJob.progress j). split; [done|].
  assert (GenerationJob.set_progress (GenerationJob.progress j) j = j) as ->
    by (by destruct j).
  by rewrite Map_set_same.
Qed.

Lemma progressed_refl g :
  is_Some (Map_get jobId (jobs g)) -> progressed jobId g g.
Proof. by apply progressed_same. Qed.

Lemma progressed_trans g1 g2 g3 :
  progressed jobId g1 g2 -> progressed jobId g2 g3 -> progressed jobId g1 g3.
Proof.
  intros (Hd & Hb & j & p & Hj & Hjobs) (Hd' & Hb' & j' & p' & Hj' & Hjobs').
  split; [congruence|]. split; [congruence|].
  exists j, p'. split; [done|].
  rewrite Hjobs' , Hjobs in *. rewrite Map_get_set_eq in Hj'. injection Hj' as <-.
  by rewrite Map_set_set.
Qed.

Lemma progressed_present g g' :
  progressed jobId g g' -> is_Some (Map_get jobId (jobs g')).
Proof.
  intros (_ & _ & j & p & _ & ->). rewrite Map_get_set_eq. by eexists.
Qed.

Lemma quiet_ret {A} (a : A) : quiet jobId now (ret a).
Proof. intros g Hev Hjob. simpl. split; [done | by apply progressed_refl]. Qed.

Lemma quiet_throw {A} e : quiet jobId now (@throw Generator A e).
Proof. intros g Hev Hjob. simpl. split; [done | by apply progressed_refl]. Qed.

Lemma quiet_Date_now : quiet jobId now Date_now.
Proof. intros g Hev Hjob. simpl. split; [done | by apply progressed_refl]. Qed.

Lemma quiet_read : quiet jobId now read.
Proof. intros g Hev Hjob. simpl. split; [done | by apply progressed_refl]. Qed.

Lemma quiet_bind {A B} (m : M Generator A) (k : A -> M Generator B) :
  quiet jobId now m -> (forall a, quiet jobId now (k a)) -> quiet jobId now (bind m k).
Proof.
  intros Hm Hk g Hev Hjob. unfold bind. specialize (Hm g Hev Hjob).
  destruct (m now g) as [a g1|e g1| |]; try done.
  destruct Hm as [Hev1 Hrel].
  specialize (Hk a g1 Hev1 (progressed_present _ _ Hrel)).
  destruct (k a now g1) as [b g2|e g2| |]; try done;
    destruct Hk as [Hev2 Hrel2]; split; try done; by eapply progressed_trans.
Qed.

Lemma quiet_call c : quiet jobId now (call c).
Proof. intros g Hev Hjob. simpl. split; [done | by apply progressed_same]. Qed.

Lemma quiet_or_throw o : quiet jobId now (or_throw o).
Proof. destruct o; [apply quiet_throw | apply quiet_ret]. Qed.

Lemma quiet_of_sum {A} (r : A + string) : quiet jobId now (of_sum r).
Proof. destruct r; [apply quiet_ret | apply quiet_throw]. Qed.

Lemma quiet_set_job_progress p : quiet jobId now (set_job_progress jobId p).
Proof.
  intros g Hev [j Hj]. unfold set_job_progress, update_job. rewrite Hj.
  split; [done|]. split; [done|]. split; [done|]. by exists j, p.
Qed.

Lemma quiet_validateData env data schema :
  quiet jobId now (validateData env data schema).
Proof.
  unfold validateData. destruct (schema_parseAsync env schema data);
    [apply quiet_ret | apply quiet_throw | apply quiet_throw].
Qed.

Lemma get_evictable key w v w' :
  evictable (cacheIndex (this w)) -> get key now w = Ok v w' ->
  evictable (cacheIndex (this w')).
Proof.
  intros Hev. rewrite get_run.
  destruct (Map_get key _) as [e|]; [|by intros [= _ <-]].
  destruct (now >? _); [intros [= _ <-]; by apply evictable_delete|]. simpl.
  destruct (files (fs w) !! _) as [text|];
    [destruct (JSON_parse text)|]; intros [= _ <-]; try done;
    by apply evictable_delete.
Qed.

Lemma get_returns key w : exists v w', get key now w = Ok v w'.
Proof.
  rewrite get_run. destruct (Map_get key _) as [e|]; [|by eexists _, _].
  destruct (now >? _); [by eexists _, _|]. simpl.
  destruct (files (fs w) !! _) as [text|];
    [destruct (JSON_parse text)|]; by eexists _, _.
Qed.

Lemma quiet_cache_get key : quiet jobId now (on_cache (get key)).
Proof.
  intros g Hev Hjob. unfold on_cache.
  destruct (get_returns key (cacheManager g)) as (v & w' & Hget). rewrite Hget.
  split; [by eapply get_evictable | by apply progressed_same].
Qed.

Lemma quiet_cache_set key data ttl metadata :
  key <> "" -> quiet jobId now (on_cache (set key data ttl metadata)).
Proof.
  intros Hkey g Hev Hjob. unfold on_cache.
  destruct (set_returns key data ttl metadata now (cacheManager g) Hev Hkey clock)
    as (w' & -> & Hev').
  split; [done | by apply progressed_same].
Qed.

Lemma quiet_output_writeFile path bytes :
  quiet jobId now (output_writeFile path bytes).
Proof. intros g Hev Hjob. simpl. split; [done | by apply progressed_same]. Qed.

Lemma quiet_getEngine engineType : quiet jobId now (getEngine engineType).
Proof.
  unfold getEngine. apply quiet_bind; [apply quiet_call|]. intros _.
  destruct (_ || _); [apply quiet_ret | apply quiet_throw].
Qed.

Lemma quiet_renderHTMLToPDF env html c options :
  quiet jobId now (renderHTMLToPDF env html c options).
Proof.
  unfold renderHTMLToPDF. apply quiet_bind; [apply quiet_read|]. intros g.
  destruct (negb (browser g)); [apply quiet_throw|].
  apply quiet_bind; [apply quiet_call|]. intros _. apply quiet_of_sum.
Qed.

Lemma quiet_handleOutput bytes options id :
  quiet jobId now (handleOutput bytes options id).
Proof.
  unfold handleOutput. apply quiet_bind; [apply quiet_read|]. intros g.
  apply quiet_bind; [apply quiet_output_writeFile|]. intros _. apply quiet_ret.
Qed.

Lemma completes_complete_job result : completes jobId now (complete_job jobId result).
Proof.
  intros g Hev [j Hj]. unfold complete_job at 1, bind, Date_now.
  rewrite (update_job_run _ _ _ _ _ Hj).
  exists g, result. split; [done|]. split; [by apply progressed_refl|].
  unfold complete_job, bind, Date_now. by rewrite (update_job_run _ _ _ _ _ Hj).
Qed.

Lemma completes_bind {A} (m : M Generator A) (k : A -> M Generator unit) :
  quiet jobId now m -> (forall a, completes jobId now (k a)) ->
  completes jobId now (bind m k).
Proof.
  intros Hm Hk g Hev Hjob. unfold bind. specialize (Hm g Hev Hjob).
  destruct (m now g) as [a g1|e g1| |]; try done.
  destruct Hm as [Hev1 Hrel].
  specialize (Hk a g1 Hev1 (progressed_present _ _ Hrel)).
  destruct (k a now g1) as [b g2|e g2| |]; try done.
  - destruct Hk as (g' & result & Hev' & Hrel' & Hdone).
    exists g', result. split; [done|]. split; [by eapply progressed_trans | done].
  - destruct Hk as [Hev2 Hrel2]. split; [done | by eapply progressed_trans].
Qed.

Lemma completes_throw e : completes jobId now (throw e).
Proof. intros g Hev Hjob. simpl. split; [done | by apply progressed_refl]. Qed.

Lemma completes_render_and_store env c options cacheKey startTime :
  cacheKey <> "" ->
  completes jobId now (render_and_store env jobId c options cacheKey startTime).
Proof.
  intros Hkey. unfold render_and_store.
  apply completes_bind; [apply quiet_call|]. intros _.
  apply completes_bind; [apply quiet_or_throw|]. intros _.
  apply completes_bind; [apply quiet_set_job_progress|]. intros _.
  apply completes_bind; [apply quiet_getEngine|]. intros _.
  apply completes_bind.
  { destruct (TemplateConfig.partials c); [|apply quiet_ret].
    apply quiet_bind; [apply quiet_call|]. intros _. apply quiet_or_throw. }
  intros _.
  apply completes_bind; [apply quiet_set_job_progress|]. intros _.
  apply completes_bind; [apply quiet_Date_now|]. intros t.
  apply completes_bind; [apply quiet_call|]. intros _.
  apply completes_bind; [apply quiet_of_sum|]. intros html.
  apply completes_bind; [apply quiet_set_job_progress|]. intros _.
  apply completes_bind; [apply quiet_renderHTMLToPDF|]. intros pdfBuffer.
  apply completes_bind; [apply quiet_set_job_progress|]. intros _.
  apply completes_bind; [apply quiet_handleOutput|]. intros result.
  apply completes_bind; [by apply quiet_cache_set|]. intros _.
  apply completes_bind; [apply quiet_Date_now|]. intros t'.
  apply completes_complete_job.
Qed.

Lemma completes_processJob_steps env entry options :
  completes jobId now (processJob_steps env jobId entry options).
Proof.
  unfold processJob_steps.
  apply completes_bind; [apply quiet_Date_now|]. intros startTime.
  destruct entry as [c|name]; [|apply completes_throw].
  apply completes_bind; [apply quiet_validateData|]. intros _.
  apply completes_bind; [apply quiet_set_job_progress|]. intros _.
  apply completes_bind; [apply quiet_cache_get|]. intros cachedResult.
  destruct (truthy cachedResult); [apply completes_complete_job|].
  apply completes_bind; [apply quiet_set_job_progress|]. intros _.
  apply completes_render_and_store, generateCacheKey_not_empty.
Qed.

End ledger.

Lemma fail_job_run jobId message now g j :
  Map_get jobId (jobs g) = Some j ->
  fail_job jobId message now g
  = Ok tt (with_jobs
             (Map_set jobId
                (GenerationJob.set_updatedAt now
                   (GenerationJob.set_error message (GenerationJob.set_status failed j)))
                (jobs g)) g).
Proof. intros Hj. unfold fail_job, bind, Date_now. by rewrite (update_job_run _ _ _ _ _ Hj). Qed.

Lemma complete_job_run jobId result now g j :
  Map_get jobId (jobs g) = Some j ->
  complete_job jobId result now g
  = Ok tt (with_jobs
             (Map_set jobId
                (GenerationJob.set_updatedAt now
                   (GenerationJob.set_progress 100
                      (GenerationJob.set_status completed
                         (GenerationJob.set_result result j))))
                (jobs g)) g).
Proof. intros Hj. unfold complete_job, bind, Date_now. by rewrite (update_job_run _ _ _ _ _ Hj). Qed.

Lemma processJob_begin_run jobId now g j :
  Map_get jobId (jobs g) = Some j ->
  processJob_begin jobId now g
  = Ok tt (with_jobs
             (Map_set jobId
                (GenerationJob.set_updatedAt now
                   (GenerationJob.set_progress 10 (GenerationJob.set_status processing j)))
                (jobs g)) g).
Proof.
  intros Hj. unfold processJob_begin, bind, Date_now.
  by rewrite (update_job_run _ _ _ _ _ Hj).
Qed.

Lemma fail_job_returns jobId message now g :
  exists g', fail_job jobId message now g = Ok tt g'.
Proof.
  unfold fail_job, bind, Date_now, update_job.
  destruct (Map_get jobId (jobs g)); by eexists.
Qed.

(** What [processJob_continue] makes of the outcome of the steps. *)
Lemma processJob_continue_run env jobId entry options now g :
  processJob_continue env jobId entry options now g
  = match processJob_steps env jobId entry options now g with
    | Throw message g1 =>
        match fail_job jobId message now g1 with
        | Ok _ g2 => fail_job jobId message now g2
        | r => r
        end
    | r => r
    end.
Proof.
  unfold processJob_continue, try_catch.
  destruct (processJob_steps env jobId entry options now g) as [[] g1|e g1| |]; try done.
  unfold bind, throw. by destruct (fail_job_returns jobId e now g1) as [g2 ->].
Qed.

(** X13. Whatever the collaborators answer, processing a job of the ledger
    over a cache that can evict returns and leaves that job settled:
    completed, at progress 100 and with a result, or failed with an error
    message.  No other job of the ledger is touched. *)
Theorem processJob_settles
  (env : Env) (jobId : string) (entry : registry_entry)
  (options : GenerationOptions.t) (now : Z) (g : Generator) (job : GenerationJob.t) :
  Map_get jobId (jobs g) = Some job ->
  evictable (cacheIndex (this (cacheManager g))) ->
  now < MAX_SAFE_INTEGER ->
  exists g' job',
    processJob env jobId entry options now g = Ok tt g'
    /\ Map_get jobId (jobs g') = Some job'
    /\ ((GenerationJob.status job' = completed
         /\ GenerationJob.progress job' = 100
         /\ is_Some (GenerationJob.result job')
         /\ GenerationJob.error job' = GenerationJob.error job)
        \/ (GenerationJob.status job' = failed
            /\ is_Some (GenerationJob.error job')
            /\ GenerationJob.result job' = GenerationJob.result job))
    /\ (forall id, id <> jobId -> Map_get id (jobs g') = Map_get id (jobs g)).
Proof.
  intros Hjob Hev Hclock.
  unfold processJob, bind at 1. rewrite (processJob_begin_run _ _ _ _ Hjob).
  set (job0 := GenerationJob.set_updatedAt now
                 (GenerationJob.set_progress 10 (GenerationJob.set_status processing job))).
  set (g0 := with_jobs (Map_set jobId job0 (jobs g)) g).
  assert (Map_get jobId (jobs g0) = Some job0) as Hjob0 by apply Map_get_set_eq.
  rewrite processJob_continue_run.
  pose proof (completes_processJob_steps jobId now Hclock env entry options g0 Hev
                ltac:(by eexists)) as Hsteps.
  destruct (processJob_steps env jobId entry options now g0) as [[] g2|e g2| |];
    try done.
  - destruct Hsteps as (g1 & result & _ & (_ & _ & j & p & Hj & Hjobs) & Hdone).
    rewrite Hjob0 in Hj. injection Hj as <-.
    assert (Map_get jobId (jobs g1) = Some (GenerationJob.set_progress p job0)) as Hj1
      by (rewrite Hjobs; apply Map_get_set_eq).
    rewrite (complete_job_run _ _ _ _ _ Hj1) in Hdone. injection Hdone as <-.
    eexists _, _. split; [reflexivity|]. split; [apply Map_get_set_eq|].
    split; [left; simpl; split_and!; by eauto|].
    intros id Hid. simpl. rewrite Map_get_set_ne, Hjobs, Map_get_set_ne by done.
    by apply Map_get_set_ne.
  - destruct Hsteps as (_ & _ & _ & j & p & Hj & Hjobs).
    rewrite Hjob0 in Hj. injection Hj as <-.
    assert (Map_get jobId (jobs g2) = Some (GenerationJob.set_progress p job0)) as Hj2
      by (rewrite Hjobs; apply Map_get_set_eq).
    rewrite (fail_job_run _ _ _ _ _ Hj2).
    erewrite fail_job_run by apply Map_get_set_eq.
    eexists _, _. split; [reflexivity|]. split; [apply Map_get_set_eq|].
    split; [right; simpl; split_and!; by eauto|].
    intros id Hid. simpl. rewrite !Map_get_set_ne, Hjobs, Map_get_set_ne by done.
    by apply Map_get_set_ne.
Qed.

(** X14. When the schema rejects the data, the job fails with the message
    "Data validation failed: " followed by the formatted issues; its
    progress stays at 10, the cache is not consulted, and no asset is
    loaded and nothing rendered. *)
Theorem invalid_data_fails_job
  (env : Env) (jobId : string) (c : TemplateConfig.t)
  (options : GenerationOptions.t) (now : Z) (g : Generator) (job : GenerationJob.t)
  (issues : list (list string * string)) :
  Map_get jobId (jobs g) = Some job ->
  schema_parseAsync env (TemplateConfig.schema c) (GenerationOptions.data options)
  = ZodError issues ->
  exists g' job',
    processJob env jobId (Template c) options now g = Ok tt g'
    /\ Map_get jobId (jobs g') = Some job'
    /\ GenerationJob.status job' = failed
    /\ GenerationJob.error job'
       = Some ("Data validation failed: " ++ formatZodErrors issues)%string
    /\ GenerationJob.progress job' = 10
    /\ GenerationJob.result job' = GenerationJob.result job
    /\ cacheManager g' = cacheManager g
    /\ calls g' = calls g.
Proof.
  intros Hjob Hzod.
  unfold processJob, bind at 1. rewrite (processJob_begin_run _ _ _ _ Hjob).
  rewrite processJob_continue_run.
  unfold processJob_steps, bind at 1, Date_now at 1, bind at 1, validateData.
  rewrite Hzod. unfold throw.
  erewrite fail_job_run by apply Map_get_set_eq.
  erewrite fail_job_run by apply Map_get_set_eq.
  eexists _, _. split; [reflexivity|]. split; [apply Map_get_set_eq|]. done.
Qed.

Lemma bind_Ok {W A B} (m : M W A) (k : A -> M W B) now w b w' :
  bind m k now w = Ok b w' ->
  exists a w1, m now w = Ok a w1 /\ k a now w1 = Ok b w'.
Proof.
  unfold bind. destruct (m now w) as [a w1| | |]; try done. by exists a, w1.
Qed.

Lemma same_store_refl g : same_store g g.
Proof. done. Qed.

Lemma same_store_trans g1 g2 g3 :
  same_store g1 g2 -> same_store g2 g3 -> same_store g1 g3.
Proof. intros (? & ? & ?) (? & ? & ?). split_and!; congruence. Qed.

Lemma call_Ok c now g a g' : call c now g = Ok a g' -> same_store g g'.
Proof. by intros [= _ <-]. Qed.

Lemma or_throw_Ok o now (g : Generator) a g' :
  or_throw o now g = Ok a g' -> g' = g.
Proof. destruct o; [done | by intros [= _ <-]]. Qed.

Lemma of_sum_Ok {A} (r : A + string) now (g : Generator) a g' :
  of_sum r now g = Ok a g' -> r = inl a /\ g' = g.
Proof. destruct r; [by intros [= <- <-] | done]. Qed.

Lemma update_job_Ok jobId f now g a g' :
  update_job jobId f now g = Ok a g' -> same_store g g' /\ calls g' = calls g.
Proof. unfold update_job. by destruct (Map_get jobId (jobs g)); intros [= _ <-]. Qed.

Lemma set_job_progress_Ok jobId p now g a g' :
  set_job_progress jobId p now g = Ok a g' -> same_store g g' /\ calls g' = calls g.
Proof. apply update_job_Ok. Qed.

Lemma getEngine_Ok engineType now g a g' :
  getEngine engineType now g = Ok a g' -> same_store g g'.
Proof.
  unfold getEngine. intros (? & g1 & Hcall%call_Ok & H)%bind_Ok.
  destruct (_ || _); [|done]. by injection H as _ <-.
Qed.

Lemma handleOutput_run pdfBuffer options jobId now g :
  handleOutput pdfBuffer options jobId now g
  = Ok (output_result pdfBuffer options (output_path g options jobId))
       (with_cacheManager
          (mkWorld (this (cacheManager g))
             (run_op (OpWriteFile (output_path g options jobId)
                        (string_of_list_byte pdfBuffer))
                (fs (cacheManager g))))
          g).
Proof.
  unfold handleOutput, bind, read, output_writeFile, on_cache, fs_writeFile, ret.
  simpl. unfold output_result, output_path.
  by destruct (GenerationOptions.returnBuffer options).
Qed.

(** What a completed render leaves behind. *)
Lemma render_and_store_Ok env jobId c options cacheKey startTime now g g' :
  render_and_store env jobId c options cacheKey startTime now g = Ok tt g' ->
  exists g1 pdfBuffer w1,
    same_store g g1
    /\ let result := output_result pdfBuffer options (output_path g options jobId) in
       set cacheKey result None None now
         (mkWorld (this (cacheManager g))
            (run_op (OpWriteFile (output_path g options jobId)
                       (string_of_list_byte pdfBuffer))
               (fs (cacheManager g)))) = Ok tt w1
       /\ complete_job jobId
            (final_result result (now - startTime) (TemplateConfig.version c)) now
            (with_cacheManager w1 g1) = Ok tt g'.
Proof.
  unfold render_and_store.
  intros (? & g1 & H1%call_Ok & H)%bind_Ok.
  apply bind_Ok in H as (? & g2 & H2%or_throw_Ok & H). subst g2.
  apply bind_Ok in H as (? & g3 & [H3 _]%set_job_progress_Ok & H).
  apply bind_Ok in H as (? & g4 & H4%getEngine_Ok & H).
  apply bind_Ok in H as (? & g5 & H5 & H).
  assert (same_store g4 g5) as H5'.
  { destruct (TemplateConfig.partials c).
    - apply bind_Ok in H5 as (? & g0 & Hc%call_Ok & Hp%or_throw_Ok). by subst.
    - by injection H5 as _ <-. }
  apply bind_Ok in H as (? & g6 & [H6 _]%set_job_progress_Ok & H).
  apply bind_Ok in H as (t & g7 & [= <- <-] & H).
  apply bind_Ok in H as (? & g8 & H8%call_Ok & H).
  apply bind_Ok in H as (html & g9 & [_ ->]%of_sum_Ok & H).
  apply bind_Ok in H as (? & g10 & [H10 _]%set_job_progress_Ok & H).
  apply bind_Ok in H as (pdfBuffer & g11 & H11 & H).
  assert (same_store g10 g11) as H11'.
  { unfold renderHTMLToPDF in H11.
    apply bind_Ok in H11 as (? & ? & [= <- <-] & H11).
    destruct (negb (browser g10)); [done|].
    apply bind_Ok in H11 as (? & ? & Hc%call_Ok & [_ ->]%of_sum_Ok). done. }
  apply bind_Ok in H as (? & g12 & [H12 _]%set_job_progress_Ok & H).
  apply bind_Ok in H as (result & g13 & H13 & H).
  rewrite handleOutput_run in H13. injection H13 as <- <-.
  apply bind_Ok in H as (? & g14 & H14 & H).
  apply bind_Ok in H as (t' & g15 & [= <- <-] & H).
  assert (same_store g g12) as Hsame.
  { repeat (eapply same_store_trans; [eassumption|]). apply same_store_refl. }
  destruct Hsame as (Hcache & Hdir & Hbrowser).
  unfold on_cache in H14. simpl in H14.
  unfold output_path in *. rewrite Hcache, Hdir in *.
  destruct (set cacheKey _ None None now _) as [[] w1| | |] eqn:Hset; try done.
  injection H14 as Hg14. subst g14.
  exists g12, pdfBuffer, w1. split; [done|]. split; [exact Hset|]. exact H.
Qed.

Lemma get_after_set_run key data ttl metadata createdAt now w w1 :
  key <> "index" ->
  set key data ttl metadata createdAt w = Ok tt w1 ->
  now <= createdAt + default (defaultTTL (this w)) ttl ->
  get key now w1 = Ok (revive data) (after_read (entry_path w1 key) w1).
Proof.
  intros Hkey. rewrite set_run.
  destruct (ensureSpace _ createdAt w) as [[] w0| | |] eqn:Hroom; try done.
  intros [= <-] Hnow. rewrite get_run.
  assert (cacheIndex (this (stored key data (default (defaultTTL (this w)) ttl)
                              metadata createdAt w0))
          = Map_set key
              (CacheEntry.mk key data createdAt
                 (createdAt + default (defaultTTL (this w)) ttl)
                 (serialized_size data) metadata)
              (cacheIndex (this w0))) as -> by reflexivity.
  rewrite Map_get_set_eq. simpl CacheEntry.expiresAt.
  destruct (Z.gtb_spec now (createdAt + default (defaultTTL (this w)) ttl)) as [|_];
    [lia|].
  cbv zeta.
  assert (entry_path (stored key data (default (defaultTTL (this w)) ttl)
                        metadata createdAt w0) key = entry_path w0 key) as ->
    by reflexivity.
  rewrite files_stored, String.eqb_refl.
  destruct (String.eqb_spec key "index"); [done|].
  by rewrite JSON_parse_stringify.
Qed.

Lemma validateData_Ok {W} env data schema now (w : W) a w' :
  validateData env data schema now w = Ok a w' ->
  schema_parseAsync env schema data = ZodOk /\ w' = w.
Proof.
  unfold validateData. destruct (schema_parseAsync env schema data); try done.
  by intros [= _ <-].
Qed.

Lemma fail_job_not_completed jobId message now g g' :
  fail_job jobId message now g = Ok tt g' ->
  option_map GenerationJob.status (Map_get jobId (jobs g')) <> Some completed.
Proof.
  unfold fail_job, bind, Date_now, update_job.
  destruct (Map_get jobId (jobs g)) as [j|] eqn:Hj; intros [= <-]; simpl.
  - by rewrite Map_get_set_eq.
  - by rewrite Hj.
Qed.

Lemma get_params key now w v w' :
  get key now w = Ok v w' ->
  cacheDir (this w') = cacheDir (this w)
  /\ maxSize (this w') = maxSize (this w)
  /\ defaultTTL (this w') = defaultTTL (this w).
Proof.
  rewrite get_run.
  destruct (Map_get key _) as [e|]; [|by intros [= _ <-]].
  destruct (now >? _); [by intros [= _ <-]|]. simpl.
  destruct (files (fs w) !! _) as [text|];
    [destruct (JSON_parse text)|]; by intros [= _ <-].
Qed.

(** The run of [processJob] when the cache answers. *)
Lemma processJob_hit_run env jobId c options now g job cachedResult w' :
  Map_get jobId (jobs g) = Some job ->
  schema_parseAsync env (TemplateConfig.schema c) (GenerationOptions.data options) = ZodOk ->
  get (generateCacheKey (GenerationOptions.templateId options)
         (GenerationOptions.data options) (GenerationOptions.toValue options))
      now (cacheManager g) = Ok cachedResult w' ->
  truthy cachedResult = true ->
  processJob env jobId (Template c) options now g
  = Ok tt
      (with_cacheManager w'
         (with_jobs
            (Map_set jobId
               (GenerationJob.mk (GenerationJob.id job) (GenerationJob.templateId job)
                  completed 100 (GenerationJob.data job) (GenerationJob.options job)
                  (Some cachedResult) (GenerationJob.error job)
                  (GenerationJob.createdAt job) now (GenerationJob.expiresAt job))
               (jobs g)) g)).
Proof.
  intros Hjob Hvalid Hget Hhit.
  unfold processJob, bind at 1. rewrite (processJob_begin_run _ _ _ _ Hjob).
  rewrite processJob_continue_run.
  unfold processJob_steps.
  unfold bind at 1, Date_now at 1.
  unfold bind at 1, validateData. rewrite Hvalid. unfold ret at 1.
  unfold bind at 1, set_job_progress at 1.
  erewrite update_job_run by (simpl; apply Map_get_set_eq).
  unfold bind at 1, on_cache. simpl. rewrite Hget, Hhit.
  erewrite complete_job_run by (simpl; apply Map_get_set_eq).
  simpl. unfold with_cacheManager, with_jobs. simpl.
  by rewrite !Map_set_set.
Qed.

(** A job that missed the cache and completed has stored its output, and
    the same request made again before the entry expires is answered by
    the cache. *)
Lemma repeated_request_run env c options id1 id2 now1 now2 g g1 job1 job2 v w0 :
  let key := generateCacheKey (GenerationOptions.templateId options)
               (GenerationOptions.data options) (GenerationOptions.toValue options) in
  Map_get id1 (jobs g) = Some job1 ->
  get key now1 (cacheManager g) = Ok v w0 ->
  truthy v = false ->
  processJob env id1 (Template c) options now1 g = Ok tt g1 ->
  option_map GenerationJob.status (Map_get id1 (jobs g1)) = Some completed ->
  Map_get id2 (jobs g1) = Some job2 ->
  now2 <= now1 + defaultTTL (this (cacheManager g)) ->
  exists pdfBuffer,
    let result := output_result pdfBuffer options (output_path g options id1) in
    option_map GenerationJob.result (Map_get id1 (jobs g1))
    = Some (Some (final_result result (now1 - now1) (TemplateConfig.version c)))
    /\ processJob env id2 (Template c) options now2 g1
       = Ok tt
           (with_cacheManager (after_read (entry_path (cacheManager g1) key) (cacheManager g1))
              (with_jobs
                 (Map_set id2
                    (GenerationJob.mk (GenerationJob.id job2) (GenerationJob.templateId job2)
                       completed 100 (GenerationJob.data job2) (GenerationJob.options job2)
                       (Some (revive result)) (GenerationJob.error job2)
                       (GenerationJob.createdAt job2) now2 (GenerationJob.expiresAt job2))
                    (jobs g1)) g1)).
Proof.
  intros key Hjob1 Hmiss Hfalsy Hrun Hdone Hjob2 Hnow.
  unfold processJob, bind at 1 in Hrun.
  rewrite (processJob_begin_run _ _ _ _ Hjob1) in Hrun.
  rewrite processJob_continue_run in Hrun.
  destruct (processJob_steps env id1 (Template c) options now1 _)
    as [[] g1'|e gT| |] eqn:Hsteps; try done.
  2:{ destruct (fail_job_returns id1 e now1 gT) as [gT' HT]. rewrite HT in Hrun.
      by apply fail_job_not_completed in Hrun. }
  injection Hrun as ->.
  unfold processJob_steps in Hsteps.
  apply bind_Ok in Hsteps as (startTime & ? & [= <- <-] & H).
  apply bind_Ok in H as (? & ? & [Hvalid ->]%validateData_Ok & H).
  apply bind_Ok in H as (? & g3 & [(Hc3 & Hd3 & _) _]%set_job_progress_Ok & H).
  apply bind_Ok in H as (cachedResult & g4 & Hget & H).
  unfold on_cache in Hget. rewrite Hc3 in Hget. simpl in Hget.
  fold key in Hget. rewrite Hmiss in Hget. injection Hget as <- <-.
  rewrite Hfalsy in H.
  apply bind_Ok in H as (? & g5 & [(Hc5 & Hd5 & _) _]%set_job_progress_Ok & H).
  apply render_and_store_Ok in H as (g6 & pdfBuffer & w1 & _ & Hset & Hcomplete).
  simpl in Hc5, Hd5. simpl in Hd3.
  unfold output_path in Hset, Hcomplete. rewrite Hc5, Hd5, Hd3 in *.
  fold (output_path g options id1) in Hset, Hcomplete.
  exists pdfBuffer. cbv zeta.
  assert (cacheManager g1 = w1 /\
          option_map GenerationJob.result (Map_get id1 (jobs g1))
          = Some (Some (final_result
                          (output_result pdfBuffer options (output_path g options id1))
                          (now1 - now1) (TemplateConfig.version c))))
    as [Hcache Hresult].
  { unfold complete_job, bind, Date_now, update_job in Hcomplete. simpl in Hcomplete.
    destruct (Map_get id1 (jobs g6)) as [j|] eqn:Hj; injection Hcomplete as <-; simpl.
    - by rewrite Map_get_set_eq.
    - simpl in Hdone. by rewrite Hj in Hdone. }
  split; [exact Hresult|].
  destruct (get_params _ _ _ _ _ Hmiss) as (_ & _ & Httl).
  eapply processJob_hit_run; [done | done | | done].
  fold key. rewrite Hcache.
  eapply get_after_set_run; [apply generateCacheKey_not_index | exact Hset |].
  simpl. lia.
Qed.


(** X16. The result of a job served from the cache is the output of the job
    that rendered it: the path is that of the first job's file, and the
    metadata carry the empty version and the generation time 0 that
    [handleOutput] puts in, where the first job reports the version of the
    template. *)
Theorem cached_result_is_first_output
  (env : Env) (c : TemplateConfig.t) (options : GenerationOptions.t)
  (id1 id2 : string) (now1 now2 : Z) (g g1 : Generator)
  (job1 job2 : GenerationJob.t) (v : value) (w0 : World) :
  Map_get id1 (jobs g) = Some job1 ->
  get (generateCacheKey (GenerationOptions.templateId options)
         (GenerationOptions.data options) (GenerationOptions.toValue options))
      now1 (cacheManager g) = Ok v w0 ->
  truthy v = false ->
  processJob env id1 (Template c) options now1 g = Ok tt g1 ->
  option_map GenerationJob.status (Map_get id1 (jobs g1)) = Some completed ->
  Map_get id2 (jobs g1) = Some job2 ->
  now2 <= now1 + defaultTTL (this (cacheManager g)) ->
  exists g2 r1 r2,
    processJob env id2 (Template c) options now2 g1 = Ok tt g2
    /\ option_map GenerationJob.result (Map_get id1 (jobs g1)) = Some (Some r1)
    /\ option_map GenerationJob.result (Map_get id2 (jobs g2)) = Some (Some r2)
    /\ obj_get "pdfPath" (object_props r1) = Some (JStr (output_path g options id1))
    /\ obj_get "pdfPath" (object_props r2) = Some (JStr (output_path g options id1))
    /\ metadata_field r1 "version" = Some (JStr (TemplateConfig.version c))
    /\ metadata_field r2 "version" = Some (JStr "")
    /\ metadata_field r2 "generationTime" = Some (JNum 0).
Proof.
  intros Hjob1 Hmiss Hfalsy Hrun Hdone Hjob2 Hnow.
  destruct (repeated_request_run env c options id1 id2 now1 now2 g g1 job1 job2 v w0
              Hjob1 Hmiss Hfalsy Hrun Hdone Hjob2 Hnow) as (pdfBuffer & Hfirst & Hsecond).
  eexists _, _, _. split; [exact Hsecond|]. split; [exact Hfirst|].
  split; [simpl; by rewrite Map_get_set_eq|].
  unfold output_result, metadata_field.
  destruct (GenerationOptions.returnBuffer options); by split_and!.
Qed.

(** X17. [handleOutput] writes the bytes to the requested path, or to the
    job's file in the output directory when the request names no path or
    the empty one.  It writes no other file, reports that path and the
    number of bytes, and includes the buffer in the result exactly when the
    request asks for it. *)
Theorem handleOutput_writes_pdf
  (pdfBuffer : list byte) (options : GenerationOptions.t) (jobId : string)
  (now : Z) (g : Generator) :
  let fallback := path_join (outputDir g) (jobId ++ ".pdf") in
  let path :=
    match GenerationOptions.outputPath options with
    | Some p => if String.eqb p "" then fallback else p
    | None => fallback
    end in
  exists result g',
    handleOutput pdfBuffer options jobId now g = Ok result g'
    /\ obj_get "pdfPath" (object_props result) = Some (JStr path)
    /\ obj_get "pdfBuffer" (object_props result)
       = (if GenerationOptions.returnBuffer options
          then Some (JBuffer pdfBuffer) else None)
    /\ metadata_field result "fileSize" = Some (JNum (Z.of_nat (length pdfBuffer)))
    /\ files (fs (cacheManager g')) !! path = Some (string_of_list_byte pdfBuffer)
    /\ (forall p, p <> path ->
          files (fs (cacheManager g')) !! p = files (fs (cacheManager g)) !! p)
    /\ jobs g' = jobs g
    /\ calls g' = calls g.
Proof.
  intros fallback path. rewrite handleOutput_run. eexists _, _.
  split; [reflexivity|].
  assert (output_path g options jobId = path) as ->.
  { unfold output_path, or_else, path, fallback.
    by destruct (GenerationOptions.outputPath options). }
  unfold output_result, metadata_field. simpl.
  split_and!; try done.
  - by destruct (GenerationOptions.returnBuffer options).
  - by destruct (GenerationOptions.returnBuffer options).
  - apply lookup_insert_eq.
  - intros p Hp. by rewrite lookup_insert_ne.
Qed.

Lemma expect_length lit : forall s r,
  expect lit s = Some r -> (String.length s = String.length lit + String.length r)%nat.
Proof.
  induction lit as [|a lit IH]; intros s r; simpl.
  - by intros [= ->].
  - destruct s as [|b s]; [done|]. destruct (Ascii.eqb a b); [|done].
    intros H%IH. simpl. lia.
Qed.

Lemma skip_spaces_length s : (String.length (skip_spaces s) <= String.length s)%nat.
Proof.
  induction s as [|c s IH]; simpl; [done|]. destruct (is_space c); simpl; lia.
Qed.

Lemma match_page_object_length s r :
  match_page_object s = Some r -> (String.length r + 10 <= String.length s)%nat.
Proof.
  unfold match_page_object.
  destruct (expect "/Type" s) as [r1|] eqn:H1; [|done].
  destruct (expect "/Page" (skip_spaces r1)) as [r2|] eqn:H2; [|done].
  apply expect_length in H1, H2. pose proof (skip_spaces_length r1). simpl in *.
  destruct r2 as [|c r2]; [intros [= <-]; simpl in *; lia|].
  destruct (is_word c); [done|]. intros [= <-]. simpl in *. lia.
Qed.

Lemma count_page_objects_bounds fuel : forall s,
  0 <= count_page_objects fuel s
  /\ 10 * count_page_objects fuel s <= Z.of_nat (String.length s).
Proof.
  induction fuel as [|fuel IH]; intros s; simpl; [lia|].
  destruct (match_page_object s) as [r|] eqn:Hm.
  - apply match_page_object_length in Hm. destruct (IH r). lia.
  - destruct s as [|c s]; simpl; [lia|]. destruct (IH s). lia.
Qed.

Lemma string_of_list_byte_length bytes :
  String.length (string_of_list_byte bytes) = length bytes.
Proof.
  unfold string_of_list_byte.
  induction bytes as [|b bytes IH]; simpl; [done|]. by rewrite IH.
Qed.

(** X18. The page count of a document is at least 1, and beyond that at
    most one page for every ten bytes of the document. *)
Theorem getPageCount_bounds (pdfBuffer : list byte) :
  1 <= getPageCount pdfBuffer
  /\ 10 * getPageCount pdfBuffer <= Z.max 10 (Z.of_nat (length pdfBuffer)).
Proof.
  unfold getPageCount. cbv zeta.
  pose proof (count_page_objects_bounds
                (S (String.length (string_of_list_byte pdfBuffer)))
                (string_of_list_byte pdfBuffer)) as [Hpos Hle].
  set (n := count_page_objects _ _) in *.
  rewrite string_of_list_byte_length in Hle.
  destruct (Z.eqb_spec n 0); lia.
Qed.

(* ===================================================================== *)
(** ** The ledger in service                                              *)
(* ===================================================================== *)

Lemma knp_ret {A} (a : A) : keeps_no_pending (ret a).
Proof. by intros now g H. Qed.

Lemma knp_throw {A} e : keeps_no_pending (@throw Generator A e).
Proof. by intros now g H. Qed.

Lemma knp_Date_now : keeps_no_pending Date_now.
Proof. by intros now g H. Qed.

Lemma knp_read : keeps_no_pending read.
Proof. by intros now g H. Qed.

Lemma knp_bind {A B} (m : M Generator A) (k : A -> M Generator B) :
  keeps_no_pending m -> (forall a, keeps_no_pending (k a)) -> keeps_no_pending (bind m k).
Proof.
  intros Hm Hk now g Hg. unfold bind. specialize (Hm now g Hg).
  destruct (m now g) as [a g1|e g1| |]; try done. by apply Hk.
Qed.

Lemma knp_try_catch {A} (m : M Generator A) (h : string -> M Generator A) :
  keeps_no_pending m -> (forall e, keeps_no_pending (h e)) ->
  keeps_no_pending (try_catch m h).
Proof.
  intros Hm Hh now g Hg. unfold try_catch. specialize (Hm now g Hg).
  destruct (m now g) as [a g1|e g1| |]; try done. by apply Hh.
Qed.

Lemma knp_call c : keeps_no_pending (call c).
Proof. by intros now g H. Qed.

Lemma knp_on_cache {A} (m : M World A) : keeps_no_pending (on_cache m).
Proof.
  intros now g H. unfold on_cache. by destruct (m now (cacheManager g)).
Qed.

Lemma knp_or_throw o : keeps_no_pending (or_throw o).
Proof. destruct o; [apply knp_throw | apply knp_ret]. Qed.

Lemma knp_of_sum {A} (r : A + string) : keeps_no_pending (of_sum r).
Proof. destruct r; [apply knp_ret | apply knp_throw]. Qed.

Lemma knp_update_job jobId f :
  (forall j, GenerationJob.status j <> pending -> GenerationJob.status (f j) <> pending) ->
  keeps_no_pending (update_job jobId f).
Proof.
  intros Hf now g Hg. unfold update_job.
  destruct (Map_get jobId (jobs g)) as [j|] eqn:Hj; [|done].
  unfold no_pending in *. simpl. apply Forall_Map_set; [|done]. simpl.
  apply Hf. rewrite Forall_forall in Hg. by apply (Hg (jobId, j)), Map_get_elem.
Qed.

Lemma knp_set_job_progress jobId p : keeps_no_pending (set_job_progress jobId p).
Proof. by apply knp_update_job. Qed.

Lemma knp_fail_job jobId message : keeps_no_pending (fail_job jobId message).
Proof.
  unfold fail_job. apply knp_bind; [apply knp_Date_now|]. intros t.
  by apply knp_update_job.
Qed.

Lemma knp_complete_job jobId result : keeps_no_pending (complete_job jobId result).
Proof.
  unfold complete_job. apply knp_bind; [apply knp_Date_now|]. intros t.
  by apply knp_update_job.
Qed.

Lemma knp_getEngine engineType : keeps_no_pending (getEngine engineType).
Proof.
  unfold getEngine. apply knp_bind; [apply knp_call|]. intros _.
  destruct (_ || _); [apply knp_ret | apply knp_throw].
Qed.

Lemma knp_renderHTMLToPDF env html c options :
  keeps_no_pending (renderHTMLToPDF env html c options).
Proof.
  unfold renderHTMLToPDF. apply knp_bind; [apply knp_read|]. intros g.
  destruct (negb (browser g)); [apply knp_throw|].
  apply knp_bind; [apply knp_call|]. intros _. apply knp_of_sum.
Qed.

Lemma knp_handleOutput bytes options id : keeps_no_pending (handleOutput bytes options id).
Proof.
  unfold handleOutput. apply knp_bind; [apply knp_read|]. intros g.
  apply knp_bind; [apply knp_on_cache|]. intros _. apply knp_ret.
Qed.

Lemma knp_render_and_store env jobId c options cacheKey startTime :
  keeps_no_pending (render_and_store env jobId c options cacheKey startTime).
Proof.
  unfold render_and_store.
  apply knp_bind; [apply knp_call|]. intros _.
  apply knp_bind; [apply knp_or_throw|]. intros _.
  apply knp_bind; [apply knp_set_job_progress|]. intros _.
  apply knp_bind; [apply knp_getEngine|]. intros _.
  apply knp_bind.
  { destruct (TemplateConfig.partials c); [|apply knp_ret].
    apply knp_bind; [apply knp_call|]. intros _. apply knp_or_throw. }
  intros _.
  apply knp_bind; [apply knp_set_job_progress|]. intros _.
  apply knp_bind; [apply knp_Date_now|]. intros t.
  apply knp_bind; [apply knp_call|]. intros _.
  apply knp_bind; [apply knp_of_sum|]. intros html.
  apply knp_bind; [apply knp_set_job_progress|]. intros _.
  apply knp_bind; [apply knp_renderHTMLToPDF|]. intros pdfBuffer.
  apply knp_bind; [apply knp_set_job_progress|]. intros _.
  apply knp_bind; [apply knp_handleOutput|]. intros result.
  apply knp_bind; [apply knp_on_cache|]. intros _.
  apply knp_bind; [apply knp_Date_now|]. intros t'.
  apply knp_complete_job.
Qed.

Lemma knp_processJob_continue env jobId entry options :
  keeps_no_pending (processJob_continue env jobId entry options).
Proof.
  unfold processJob_continue.
  apply knp_try_catch; [|intros e; apply knp_fail_job].
  apply knp_try_catch;
    [|intros e; apply knp_bind; [apply knp_fail_job | intros _; apply knp_throw]].
  unfold processJob_steps, validateData.
  apply knp_bind; [apply knp_Date_now|]. intros startTime.
  destruct entry as [c|name]; [|apply knp_throw].
  apply knp_bind;
    [destruct (schema_parseAsync _ _ _); [apply knp_ret | apply knp_throw | apply knp_throw]|].
  intros _.
  apply knp_bind; [apply knp_set_job_progress|]. intros _.
  apply knp_bind; [apply knp_on_cache|]. intros cachedResult.
  destruct (truthy cachedResult); [apply knp_complete_job|].
  apply knp_bind; [apply knp_set_job_progress|]. intros _.
  apply knp_render_and_store.
Qed.

Lemma knp_generatePDF jobId options : keeps_no_pending (generatePDF jobId options).
Proof.
  intros now g Hg. unfold generatePDF.
  destruct (registry_lookup _) as [entry|]; [|done].
  unfold bind at 1, Date_now at 1, bind at 1, read at 1, bind at 1, write at 1.
  unfold bind at 1, processJob_begin, bind at 1, Date_now at 1.
  erewrite update_job_run by (simpl; apply Map_get_set_eq).
  unfold bind, read, ret. simpl. unfold no_pending. simpl.
  rewrite Map_set_set. by apply Forall_Map_set.
Qed.

Lemma knp_cancelJob jobId : keeps_no_pending (cancelJob jobId).
Proof.
  unfold cancelJob. apply knp_bind; [apply knp_read|]. intros g.
  destruct (Map_get jobId (jobs g)) as [job|]; [|apply knp_ret].
  destruct (JobStatus_eqb _ _); [|apply knp_ret].
  apply knp_bind; [apply knp_Date_now|]. intros t.
  apply knp_bind; [by apply knp_update_job | intros _; apply knp_ret].
Qed.

Lemma fold_conditional_delete {V} (P : string * V -> bool) (l : list (string * V)) :
  forall m : list (string * V),
    fold_left (fun js kj => if P kj then Map_delete (fst kj) js else js) l m
    = fold_left (fun m key => Map_delete key m) (Map_keys (List.filter P l)) m.
Proof.
  induction l as [|kj l IH]; intros m; simpl; [done|].
  destruct (P kj); simpl; apply IH.
Qed.

Lemma fold_delete_sublist {V} keys : forall m : list (string * V),
  sublist (fold_left (fun m key => Map_delete key m) keys m) m.
Proof.
  induction keys as [|k keys IH]; intros m; simpl; [done|].
  etrans; [apply IH | apply Map_delete_sublist].
Qed.

Lemma cleanup_jobs_filter now (js : list (string * GenerationJob.t)) :
  NoDup (Map_keys js) ->
  fold_left
    (fun js kj => if job_expired now (snd kj) then Map_delete (fst kj) js else js)
    js js
  = List.filter (fun kj => negb (job_expired now (snd kj))) js.
Proof.
  intros Hnd.
  rewrite (fold_conditional_delete (fun kj => job_expired now (snd kj))).
  by apply fold_delete_filter.
Qed.

Lemma generator_cleanup_run browser_close now g :
  EnhancedPDFGenerator.cleanup browser_close now g
  = if browser g then
      match browser_close with
      | Some message => Throw message (swept now g)
      | None => Ok tt (with_browser false (swept now g))
      end
    else Ok tt (swept now g).
Proof.
  unfold EnhancedPDFGenerator.cleanup.
  unfold bind at 1, Date_now at 1, bind at 1, read at 1, bind at 1, write at 1.
  unfold bind at 1, on_cache, cleanup. rewrite cleanupExpired_run.
  unfold bind at 1, read at 1. simpl.
  destruct (browser g); [|done].
  by destruct browser_close.
Qed.

Lemma knp_cleanup browser_close :
  keeps_no_pending (EnhancedPDFGenerator.cleanup browser_close).
Proof.
  intros now g Hg. rewrite generator_cleanup_run.
  assert (no_pending (swept now g)) as Hswept.
  { unfold no_pending, swept. simpl.
    rewrite (fold_conditional_delete (fun kj => job_expired now (snd kj))).
    eapply Forall_of_sublist; [apply fold_delete_sublist | exact Hg]. }
  destruct (browser g); [|done]. by destruct browser_close.
Qed.

Lemma generator_step_no_pending env g g' :
  generator_step env g g' -> no_pending g -> no_pending g'.
Proof.
  intros [jobId options now H|jobId entry options now H|jobId now H|browser_close now H] Hg.
  - pose proof (knp_generatePDF jobId options now g Hg) as Hk.
    destruct (generatePDF jobId options now g); simpl in H; by subst.
  - pose proof (knp_processJob_continue env jobId entry options now g Hg) as Hk.
    destruct (processJob_continue env jobId entry options now g); simpl in H; by subst.
  - pose proof (knp_cancelJob jobId now g Hg) as Hk.
    destruct (cancelJob jobId now g); simpl in H; by subst.
  - pose proof (knp_cleanup browser_close now g Hg) as Hk.
    destruct (EnhancedPDFGenerator.cleanup browser_close now g); simpl in H; by subst.
Qed.

(** X19. No caller ever finds a job pending: in every state that a
    generator with an empty ledger reaches by calls of [generatePDF],
    [cancelJob] and [cleanup] and by the completion of background jobs,
    [cancelJob] returns [false] and changes nothing, and [listJobs] for the
    pending status returns the empty list. *)
Theorem cancelJob_never_succeeds
  (env : Env) (g0 g : Generator) (jobId : string) (now : Z) :
  jobs g0 = [] ->
  rtc (generator_step env) g0 g ->
  cancelJob jobId now g = Ok false g
  /\ listJobs (Some pending) now g = Ok [] g.
Proof.
  intros Hempty Hreach.
  assert (no_pending g) as Hg.
  { assert (no_pending g0) as H0 by (unfold no_pending; rewrite Hempty; constructor).
    clear Hempty. induction Hreach as [|g1 g2 g3 Hstep _ IH]; [done|].
    apply IH. by eapply generator_step_no_pending. }
  unfold no_pending in Hg. rewrite Forall_forall in Hg. split.
  - unfold cancelJob, bind, read.
    destruct (Map_get jobId (jobs g)) as [job|] eqn:Hjob; [|done].
    apply Map_get_elem, Hg in Hjob. simpl in Hjob.
    by destruct (GenerationJob.status job).
  - unfold listJobs, bind, read, ret. f_equal.
    unfold Map_values. induction (jobs g) as [|[k j] js IH]; simpl; [done|].
    assert (GenerationJob.status j <> pending) as Hj
      by (apply (Hg (k, j)), list_elem_of_here).
    rewrite IH by (intros kj Hin; by apply Hg, list_elem_of_further).
    by destruct (GenerationJob.status j).
Qed.

(** X20. [cleanup] of the generator removes exactly the jobs past their
    expiry from the ledger and the expired entries from the cache.  When it
    returns, the browser is gone; when closing the browser fails, the
    failure is thrown after the jobs and entries were removed, and the
    browser stays. *)
Theorem cleanup_drops_expired_jobs
  (browser_close : option string) (now : Z) (g : Generator) :
  NoDup (Map_keys (jobs g)) ->
  NoDup (Map_keys (cacheIndex (this (cacheManager g)))) ->
  exists g',
    ends_in (EnhancedPDFGenerator.cleanup browser_close now g) g'
    /\ jobs g' = List.filter (fun kj => negb (job_expired now (snd kj))) (jobs g)
    /\ cacheIndex (this (cacheManager g'))
       = live_entries now (cacheIndex (this (cacheManager g)))
    /\ (EnhancedPDFGenerator.cleanup browser_close now g = Ok tt g' -> browser g' = false)
    /\ (forall message,
          browser g = true -> browser_close = Some message ->
          EnhancedPDFGenerator.cleanup browser_close now g = Throw message g'
          /\ browser g' = true).
Proof.
  intros Hjobs Hcache. rewrite generator_cleanup_run.
  assert (jobs (swept now g)
          = List.filter (fun kj => negb (job_expired now (snd kj))) (jobs g)) as Hj.
  { unfold swept. simpl. by apply cleanup_jobs_filter. }
  assert (cacheIndex (this (cacheManager (swept now g)))
          = live_entries now (cacheIndex (this (cacheManager g)))) as Hc.
  { unfold swept. simpl. rewrite purged_index. unfold expired_keys.
    by rewrite fold_delete_filter. }
  destruct (browser g) eqn:Hb; [destruct browser_close as [e|]|].
  - exists (swept now g). split_and!; try done.
    intros message _ [= <-]. split; [done|]. unfold swept. by simpl.
  - exists (with_browser false (swept now g)). split_and!; try done.
  - exists (swept now g). split_and!; try done.
Qed.

Section missing_browser.
Variables (jobId : string) (now : Z) (E : string -> Prop).

Lemma passes_ret {A} (a : A) : passes jobId now E (ret a).
Proof. intros g Hjob. simpl. split; [done | by apply progressed_refl]. Qed.

Lemma passes_Date_now : passes jobId now E Date_now.
Proof. intros g Hjob. simpl. split; [done | by apply progressed_refl]. Qed.

Lemma passes_call c : passes jobId now E (call c).
Proof. intros g Hjob. simpl. split; [done | by apply progressed_same]. Qed.

Lemma passes_set_job_progress p : passes jobId now E (set_job_progress jobId p).
Proof.
  intros g [j Hj]. unfold set_job_progress, update_job. rewrite Hj.
  split; [done|]. split; [done|]. split; [done|]. by exists j, p.
Qed.

Lemma passes_or_throw o :
  (forall e, o = Some e -> E e) -> passes jobId now E (or_throw o).
Proof.
  intros Ho g Hjob. destruct o as [e|]; simpl.
  - split; [done|]. split; [by apply progressed_refl | by apply Ho].
  - split; [done | by apply progressed_refl].
Qed.

Lemma passes_of_sum {A} (r : A + string) :
  (forall e, r = inr e -> E e) -> passes jobId now E (of_sum r).
Proof.
  intros Hr g Hjob. destruct r as [a|e]; simpl.
  - split; [done | by apply progressed_refl].
  - split; [done|]. split; [by apply progressed_refl | by apply Hr].
Qed.

Lemma passes_bind {A B} (m : M Generator A) (k : A -> M Generator B) :
  passes jobId now E m -> (forall a, passes jobId now E (k a)) ->
  passes jobId now E (bind m k).
Proof.
  intros Hm Hk g Hjob. unfold bind. specialize (Hm g Hjob).
  destruct (m now g) as [a g1|e g1| |]; try done.
  destruct Hm as [Hc Hrel].
  specialize (Hk a g1 (progressed_present _ _ _ Hrel)).
  destruct (k a now g1) as [b g2|e g2| |]; try done.
  - destruct Hk as [Hc' Hrel']. split; [congruence | by eapply progressed_trans].
  - destruct Hk as (Hc' & Hrel' & He).
    split; [congruence|]. split; [by eapply progressed_trans | done].
Qed.

Lemma fails_by_bind {A B} (m : M Generator A) (k : A -> M Generator B) :
  passes jobId now E m -> (forall a, fails_by jobId now E (k a)) ->
  fails_by jobId now E (bind m k).
Proof.
  intros Hm Hk g Hbrowser Hjob. unfold bind. specialize (Hm g Hjob).
  destruct (m now g) as [a g1|e g1| |]; try done.
  destruct Hm as [Hc Hrel].
  assert (browser g1 = false) as Hb1.
  { destruct Hrel as (_ & -> & _). done. }
  specialize (Hk a g1 Hb1 (progressed_present _ _ _ Hrel)).
  destruct (k a now g1) as [b g2|e g2| |]; try done.
  destruct Hk as (Hc' & Hrel' & He).
  split; [congruence|]. split; [by eapply progressed_trans | done].
Qed.

Lemma fails_by_first {A B} (m : M Generator A) (k : A -> M Generator B) :
  fails_by jobId now E m -> fails_by jobId now E (bind m k).
Proof.
  intros Hm g Hbrowser Hjob. unfold bind. specialize (Hm g Hbrowser Hjob).
  by destruct (m now g) as [a g1|e g1| |].
Qed.

Lemma fails_by_renderHTMLToPDF env html c options :
  E "Browser not initialized" ->
  fails_by jobId now E (renderHTMLToPDF env html c options).
Proof.
  intros He g Hbrowser Hjob. unfold renderHTMLToPDF, bind, read. rewrite Hbrowser.
  simpl. split; [done|]. split; [by apply progressed_refl | done].
Qed.

End missing_browser.

Lemma fails_by_render_and_store jobId now env c options cacheKey startTime :
  fails_by jobId now
    (fun e => renders env c -> e = "Browser not initialized")
    (render_and_store env jobId c options cacheKey startTime).
Proof.
  unfold render_and_store.
  apply fails_by_bind; [apply passes_call|]. intros _.
  apply fails_by_bind.
  { apply passes_or_throw. intros e He (Ha & _). congruence. }
  intros _.
  apply fails_by_bind; [apply passes_set_job_progress|]. intros _.
  apply fails_by_bind.
  { unfold getEngine. apply passes_bind; [apply passes_call|]. intros _.
    destruct (_ || _) eqn:Hengine; [apply passes_ret|].
    intros g Hjob. simpl. split; [done|]. split; [by apply progressed_refl|].
    intros (_ & Hext & _). exfalso.
    apply orb_false_iff in Hengine as [[H1 H2]%orb_false_iff H3].
    repeat (apply elem_of_cons in Hext as [Hext|Hext];
            [rewrite Hext in *; discriminate|]).
    by apply elem_of_nil in Hext. }
  intros _.
  apply fails_by_bind.
  { destruct (TemplateConfig.partials c); [|apply passes_ret].
    apply passes_bind; [apply passes_call|]. intros _.
    apply passes_or_throw. intros e He (_ & _ & Hp & _). rewrite Hp in He. done. }
  intros _.
  apply fails_by_bind; [apply passes_set_job_progress|]. intros _.
  apply fails_by_bind; [apply passes_Date_now|]. intros t.
  apply fails_by_bind; [apply passes_call|]. intros _.
  apply fails_by_bind.
  { apply passes_of_sum. intros e He (_ & _ & _ & Hr).
    destruct (Hr (prepareTemplateData env t (GenerationOptions.data options) c options)
                (resolved_locale options c)) as [html Hhtml].
    congruence. }
  intros html.
  apply fails_by_bind; [apply passes_set_job_progress|]. intros _.
  apply fails_by_first. by apply fails_by_renderHTMLToPDF.
Qed.

(** X21. Without a browser no job of a valid request that misses the cache
    completes: the job fails with an error message, the cache stays as the
    lookup left it, and when the collaborators of the render succeed the
    message is "Browser not initialized". *)
Theorem missing_browser_fails_job
  (env : Env) (jobId : string) (c : TemplateConfig.t)
  (options : GenerationOptions.t) (now : Z) (g : Generator) (job : GenerationJob.t)
  (v : value) (w0 : World) :
  Map_get jobId (jobs g) = Some job ->
  browser g = false ->
  schema_parseAsync env (TemplateConfig.schema c) (GenerationOptions.data options) = ZodOk ->
  get (generateCacheKey (GenerationOptions.templateId options)
         (GenerationOptions.data options) (GenerationOptions.toValue options))
      now (cacheManager g) = Ok v w0 ->
  truthy v = false ->
  exists g' job' message,
    processJob env jobId (Template c) options now g = Ok tt g'
    /\ Map_get jobId (jobs g') = Some job'
    /\ GenerationJob.status job' = failed
    /\ GenerationJob.error job' = Some message
    /\ GenerationJob.result job' = GenerationJob.result job
    /\ cacheManager g' = w0
    /\ (renders env c -> message = "Browser not initialized").
Proof.
  intros Hjob Hbrowser Hvalid Hmiss Hfalsy.
  unfold processJob, bind at 1. rewrite (processJob_begin_run _ _ _ _ Hjob).
  rewrite processJob_continue_run.
  unfold processJob_steps.
  unfold bind at 1, Date_now at 1.
  unfold bind at 1, validateData. rewrite Hvalid. unfold ret at 1.
  unfold bind at 1, set_job_progress at 1.
  erewrite update_job_run by (simpl; apply Map_get_set_eq).
  unfold bind at 1, on_cache. simpl. rewrite Hmiss, Hfalsy.
  unfold bind at 1, set_job_progress at 1.
  erewrite update_job_run by (simpl; apply Map_get_set_eq).
  match goal with
  | |- context [render_and_store env jobId c options ?k ?s now ?gx] =>
      pose proof (fails_by_render_and_store jobId now env c options k s gx Hbrowser
                    ltac:(simpl; rewrite Map_get_set_eq; by eexists)) as Hfail;
      destruct (render_and_store env jobId c options k s now gx)
        as [[] g1|e g1| |]; try done
  end.
  destruct Hfail as (Hcache & (_ & _ & j & p & Hj & Hjobs) & He).
  simpl in Hj. rewrite Map_get_set_eq in Hj. injection Hj as <-.
  erewrite fail_job_run by (rewrite Hjobs; apply Map_get_set_eq).
  erewrite fail_job_run by (simpl; apply Map_get_set_eq).
  eexists _, _, e. split; [reflexivity|].
  split; [simpl; apply Map_get_set_eq|]. simpl. split_and!; try done.
Qed.

(* ===================================================================== *)
(** ** validateTemplateOptions                                            *)
(* ===================================================================== *)

Lemma substring_all (s : string) : substring 0 (String.length s) s = s.
Proof. induction s as [|c s IH]; simpl; [done|]. by rewrite IH. Qed.

Lemma substring_skip (p t : string) k :
  substring (String.length p) k (p ++ t)%string = substring 0 k t.
Proof. induction p as [|c p IH]; simpl; [done|]. apply IH. Qed.

Lemma substring_split (s : string) : forall m,
  (m <= String.length s)%nat ->
  s = (substring 0 m s ++ substring m (String.length s - m) s)%string.
Proof.
  induction s as [|c s IH]; intros m Hm; simpl in *.
  - by destruct m.
  - destruct m as [|m]; simpl.
    + by rewrite substring_all.
    + change (String c s
              = String c (substring 0 m s ++ substring m (String.length s - m) s)%string).
      f_equal. apply IH. lia.
Qed.

Lemma endsWith_spec (s suffix : string) :
  endsWith s suffix = true <-> exists number, s = (number ++ suffix)%string.
Proof.
  unfold endsWith. rewrite andb_true_iff, Nat.leb_le, String.eqb_eq. split.
  - intros [Hle Heq].
    exists (substring 0 (String.length s - String.length suffix) s).
    pose proof (substring_split s (String.length s - String.length suffix)
                  ltac:(lia)) as H.
    replace (String.length s - (String.length s - String.length suffix))%nat
      with (String.length suffix) in H by lia.
    by rewrite Heq in H.
  - intros [number ->]. rewrite length_append. split; [lia|].
    replace (String.length number + String.length suffix - String.length suffix)%nat
      with (String.length number) by lia.
    rewrite substring_skip. apply substring_all.
Qed.

(** A loop whose body only checks: it throws at the first element that
    fails the check. *)
Lemma for_each_checks {W A} (check : A -> option string) (xs : list A) now (w : W) :
  for_each xs (fun x => match check x with
                        | Some e => throw e
                        | None => ret tt
                        end) now w
  = match List.find (fun x => match check x with Some _ => true | None => false end) xs with
    | Some x => Throw (default "" (check x)) w
    | None => Ok tt w
    end.
Proof.
  induction xs as [|x xs IH]; simpl; [done|].
  unfold bind. destruct (check x) as [e|] eqn:Hx; simpl.
  - by rewrite Hx.
  - apply IH.
Qed.

Lemma margins_loop {W} entries now (w : W) :
  for_each entries
    (fun entry =>
       match snd entry with
       | JStr value =>
           if existsb (endsWith value) ["px"; "cm"; "mm"; "in"]%string then ret tt
           else throw ("Invalid margin unit for " ++ fst entry ++ ": " ++ value
                       ++ ". Must end with px, cm, mm, or in")%string
       | _ => ret tt
       end) now w
  = match List.find (fun x => match margin_error x with Some _ => true | None => false end)
            entries with
    | Some x => Throw (default "" (margin_error x)) w
    | None => Ok tt w
    end.
Proof.
  rewrite <- (for_each_checks margin_error entries now w).
  induction entries as [|[k v] entries IH]; [done|].
  cbn [for_each]. unfold bind, margin_error at 1. cbn [fst snd].
  destruct v as [| | |value| | |]; try apply IH.
  destruct (existsb (endsWith value) ["px"; "cm"; "mm"; "in"]%string);
    [apply IH | done].
Qed.

Lemma unit_spec (value : string) :
  existsb (endsWith value) ["px"; "cm"; "mm"; "in"]%string = true
  <-> exists number unit,
        unit ∈ ["px"; "cm"; "mm"; "in"]%string /\ value = (number ++ unit)%string.
Proof.
  rewrite existsb_exists. split.
  - intros (unit & Hin & [number ->]%endsWith_spec).
    exists number, unit. split; [by apply list_elem_of_In | done].
  - intros (number & unit & Hin & ->). exists unit.
    split; [by apply list_elem_of_In | apply endsWith_spec; by eexists].
Qed.

Lemma margins_accepted entries :
  List.find (fun x => match margin_error x with Some _ => true | None => false end) entries
  = None
  <-> forall key text,
        (key, JStr text) ∈ entries ->
        exists number unit,
          unit ∈ ["px"; "cm"; "mm"; "in"]%string /\ text = (number ++ unit)%string.
Proof.
  induction entries as [|[k v] entries IH]; cbn [find].
  - split; [|done]. intros _ key text H. by apply elem_of_nil in H.
  - unfold margin_error at 1. cbn [fst snd].
    destruct v as [| | |s| | |];
      try (split;
           [intros Hfind key text [Heq|Hin]%elem_of_cons;
            [congruence | by apply (proj1 IH Hfind key text)]
           |intros H; apply IH; intros key text Hin; apply (H key);
            by apply list_elem_of_further]).
    destruct (existsb (endsWith s) ["px"; "cm"; "mm"; "in"]%string) eqn:Hv.
    + split.
      * intros Hfind key text [[= -> ->]|Hin]%elem_of_cons;
          [by apply unit_spec | by apply (proj1 IH Hfind key text)].
      * intros H. apply IH. intros key text Hin. apply (H key).
        by apply list_elem_of_further.
    + split; [done|]. intros H. exfalso.
      assert (existsb (endsWith s) ["px"; "cm"; "mm"; "in"]%string = true) as Hyes
        by (apply unit_spec, (H k); apply list_elem_of_here).
      rewrite Hv in Hyes. discriminate.
Qed.

Lemma choice_spec (allowed : list string) (v : value) :
  truthy v && negb (includes allowed v) = false
  <-> (truthy v = true -> exists s, v = JStr s /\ s ∈ allowed).
Proof.
  rewrite andb_false_iff, negb_false_iff. split.
  - intros [Hf|Hin] Ht; [congruence|]. destruct v; try done.
    simpl in Hin. apply existsb_exists in Hin as (s0 & Hin & ->%String.eqb_eq).
    eexists. split; [done | by apply list_elem_of_In].
  - intros H. destruct (truthy v); [|by left]. right.
    destruct H as (s0 & -> & Hin); [done|]. simpl. apply existsb_exists.
    exists s0. split; [by apply list_elem_of_In | apply String.eqb_refl].
Qed.

Lemma check_then {W} (m : M W unit) (k : M W bool) now (w : W) :
  checks m ->
  (k now w = Ok true w \/ exists message, k now w = Throw message w) ->
  ((m ;;; k) now w = Ok true w <-> m now w = Ok tt w /\ k now w = Ok true w)
  /\ ((m ;;; k) now w = Ok true w \/ exists message, (m ;;; k) now w = Throw message w).
Proof.
  intros Hm Hk. unfold bind.
  destruct (Hm now w) as [->|[e ->]].
  - split; [tauto | done].
  - split; [split; [done | by intros [? _]] | right; by eexists].
Qed.

Lemma checks_required {W} (o : option value) (field : string) :
  @checks W (if truthy_field o then ret tt
             else throw ("Missing required field: " ++ field)%string).
Proof. intros now w. destruct (truthy_field o); [by left | right; by eexists]. Qed.

Lemma checks_choice {W} (o : option value) (allowed : list string) (complain : string -> string) :
  @checks W
    match o with
    | Some v =>
        if truthy v && negb (includes allowed v) then
          match js_String v with
          | Some text => throw (complain text)
          | None => throw "Cannot convert object to primitive value"
          end
        else ret tt
    | None => ret tt
    end.
Proof.
  intros now w. destruct o as [v|]; [|by left].
  destruct (truthy v && negb (includes allowed v)); [|by left].
  right. destruct (js_String v); by eexists.
Qed.

Lemma choice_accepted {W} (o : option value) (allowed : list string)
  (complain : string -> string) now (w : W) :
  match o with
  | Some v =>
      if truthy v && negb (includes allowed v) then
        match js_String v with
        | Some text => throw (complain text)
        | None => throw "Cannot convert object to primitive value"
        end
      else ret tt
  | None => ret tt
  end now w = Ok tt w
  <-> forall v, o = Some v -> truthy v = true -> exists s, v = JStr s /\ s ∈ allowed.
Proof.
  destruct o as [v|]; [|split; [by intros _ v0 | done]].
  destruct (truthy v && negb (includes allowed v)) eqn:Hc.
  - split; [by destruct (js_String v)|].
    intros H. exfalso.
    assert (truthy v && negb (includes allowed v) = false) as Hno.
    { apply choice_spec. intros Ht. by apply H. }
    congruence.
  - split; [|done]. intros _ v0 [= <-]. by apply choice_spec.
Qed.

Lemma checks_margins {W} (o : option value) :
  @checks W
    match o with
    | Some margins =>
        if truthy margins then
          for_each (Object_entries margins)
            (fun entry =>
               match snd entry with
               | JStr value =>
                   if existsb (endsWith value) ["px"; "cm"; "mm"; "in"]%string then ret tt
                   else throw ("Invalid margin unit for " ++ fst entry ++ ": " ++ value
                               ++ ". Must end with px, cm, mm, or in")%string
               | _ => ret tt
               end)
        else ret tt
    | None => ret tt
    end.
Proof.
  intros now w. destruct o as [margins|]; [|by left].
  destruct (truthy margins); [|by left].
  rewrite margins_loop. destruct (find _ _); [right; by eexists | by left].
Qed.

Lemma margins_check_accepted {W} (o : option value) now (w : W) :
  match o with
  | Some margins =>
      if truthy margins then
        for_each (Object_entries margins)
          (fun entry =>
             match snd entry with
             | JStr value =>
                 if existsb (endsWith value) ["px"; "cm"; "mm"; "in"]%string then ret tt
                 else throw ("Invalid margin unit for " ++ fst entry ++ ": " ++ value
                             ++ ". Must end with px, cm, mm, or in")%string
             | _ => ret tt
             end)
      else ret tt
  | None => ret tt
  end now w = Ok tt w
  <-> forall margins key text,
        o = Some margins -> truthy margins = true ->
        (key, JStr text) ∈ Object_entries margins ->
        exists number unit,
          unit ∈ ["px"; "cm"; "mm"; "in"]%string /\ text = (number ++ unit)%string.
Proof.
  destruct o as [margins|]; [|split; [by intros _ ? | done]].
  destruct (truthy margins) eqn:Ht; [|split; [intros _ ? ? ? [= <-]; congruence | done]].
  rewrite margins_loop.
  destruct (find _ _) as [x|] eqn:Hfind.
  - split; [done|]. intros H. exfalso.
    assert (find (fun x => match margin_error x with Some _ => true | None => false end)
              (Object_entries margins) = None) as Hnone.
    { apply margins_accepted. intros key text Hin. by apply (H margins key text). }
    congruence.
  - split; [|done]. intros _ m key text [= <-] _ Hin.
    by apply (proj1 (margins_accepted _) Hfind key text).
Qed.

(** X22. [validateTemplateOptions] returns [true] exactly for the options
    with a truthy [templateId] and [data], a [format] that is falsy or one
    of "A4" and "Letter", a [quality] that is falsy or one of "draft",
    "standard" and "high", and every string among the margins ending in
    "px", "cm", "mm" or "in".  For all other options it throws; it never
    returns [false] and never changes the state. *)
Theorem validateTemplateOptions_accepts_iff
  {W} (options : value) (now : Z) (w : W) :
  (validateTemplateOptions options now w = Ok true w <-> accepted_options options)
  /\ (validateTemplateOptions options now w = Ok true w
      \/ exists message, validateTemplateOptions options now w = Throw message w).
Proof.
  unfold accepted_options.
  destruct options as [| b | n | s | items | props | bytes];
    try (split; [split; [done | by intros [? _]] | right; by eexists]).
  unfold validateTemplateOptions. cbv zeta. cbn [for_each].
  set (required1 := if truthy_field (get_field (JObj props) "templateId") then ret tt
                    else throw ("Missing required field: " ++ "templateId")%string).
  set (required2 := if truthy_field (get_field (JObj props) "data") then ret tt
                    else throw ("Missing required field: " ++ "data")%string).
  set (format := match get_field (JObj props) "format" with Some _ => _ | None => _ end).
  set (quality := match get_field (JObj props) "quality" with Some _ => _ | None => _ end).
  set (margins := match get_field (JObj props) "margins" with Some _ => _ | None => _ end).
  assert (@checks W required1) as C1 by apply checks_required.
  assert (@checks W required2) as C2 by apply checks_required.
  assert (@checks W format) as C3
    by apply (checks_choice _ _
                (fun text => ("Invalid format: " ++ text
                              ++ ". Must be 'A4' or 'Letter'")%string)).
  assert (@checks W quality) as C4
    by apply (checks_choice _ _
                (fun text => ("Invalid quality: " ++ text
                              ++ ". Must be 'draft', 'standard', or 'high'")%string)).
  assert (@checks W margins) as C5 by apply checks_margins.
  assert (checks (required1 ;;; required2 ;;; ret tt)) as C12.
  { intros t u. unfold bind, ret.
    destruct (C1 t u) as [->|[e ->]]; [|right; by eexists].
    destruct (C2 t u) as [->|[e ->]]; [by left | right; by eexists]. }
  assert ((required1 ;;; required2 ;;; ret tt) now w = Ok tt w
          <-> truthy_field (get_field (JObj props) "templateId") = true
              /\ truthy_field (get_field (JObj props) "data") = true) as H12.
  { unfold bind, ret, required1, required2.
    destruct (truthy_field (get_field (JObj props) "templateId"));
      destruct (truthy_field (get_field (JObj props) "data")); simpl;
      split; try done; by intros [? ?]. }
  assert (format now w = Ok tt w
          <-> forall v, get_field (JObj props) "format" = Some v -> truthy v = true ->
                        exists s, v = JStr s /\ s ∈ ["A4"; "Letter"]%string) as H3
    by apply (choice_accepted _ _
                (fun text => ("Invalid format: " ++ text
                              ++ ". Must be 'A4' or 'Letter'")%string)).
  assert (quality now w = Ok tt w
          <-> forall v, get_field (JObj props) "quality" = Some v -> truthy v = true ->
                        exists s, v = JStr s /\ s ∈ ["draft"; "standard"; "high"]%string)
    as H4
    by apply (choice_accepted _ _
                (fun text => ("Invalid quality: " ++ text
                              ++ ". Must be 'draft', 'standard', or 'high'")%string)).
  pose proof (margins_check_accepted (get_field (JObj props) "margins") now w) as H5.
  fold margins in H5.
  assert (ret true now w = Ok true w
          \/ exists message, @ret W bool true now w = Throw message w) as K0 by (by left).
  destruct (check_then margins (ret true) now w C5 K0) as [E5 K5].
  destruct (check_then quality (margins ;;; ret true) now w C4 K5) as [E4 K4].
  destruct (check_then format (quality ;;; margins ;;; ret true) now w C3 K4) as [E3 K3].
  destruct (check_then (required1 ;;; required2 ;;; ret tt)
              (format ;;; quality ;;; margins ;;; ret true) now w C12 K3) as [E12 K12].
  split; [|exact K12].
  rewrite E12, E3, E4, E5, H12, H3, H4, H5.
  assert ((forall v, get_field (JObj props) "format" = Some v -> truthy v = true ->
                     exists s, v = JStr s /\ s ∈ ["A4"; "Letter"]%string)
          <-> (forall v, get_field (JObj props) "format" = Some v -> truthy v = true ->
                         v = JStr "A4" \/ v = JStr "Letter")) as ->.
  { split; intros H v Hv Ht; specialize (H v Hv Ht).
    - destruct H as (s & -> & Hin). rewrite !elem_of_cons in Hin.
      destruct Hin as [->|[->|Hin]]; [by left | by right | by apply elem_of_nil in Hin].
    - destruct H as [-> | ->]; eexists; (split; [done|]); rewrite !elem_of_cons; tauto. }
  assert ((forall v, get_field (JObj props) "quality" = Some v -> truthy v = true ->
                     exists s, v = JStr s /\ s ∈ ["draft"; "standard"; "high"]%string)
          <-> (forall v, get_field (JObj props) "quality" = Some v -> truthy v = true ->
                         v = JStr "draft" \/ v = JStr "standard" \/ v = JStr "high")) as ->.
  { split; intros H v Hv Ht; specialize (H v Hv Ht).
    - destruct H as (s & -> & Hin). rewrite !elem_of_cons in Hin.
      destruct Hin as [->|[->|[->|Hin]]];
        [by left | by right; left | by right; right | by apply elem_of_nil in Hin].
    - destruct H as [-> | [-> | ->]]; eexists; (split; [done|]); rewrite !elem_of_cons; tauto. }
  assert (ret true now w = Ok true w <-> True) as -> by done.
  tauto.
Qed.

(* ===================================================================== *)
(** ** A stored value until its expiry                                    *)
(* ===================================================================== *)

(** X7. A value without [Buffer]s and without repeated keys that [set] has
    stored under a plain file name other than "index" is returned by [get],
    up to deep equality, at every time up to its expiry, and this [get]
    changes neither the index nor the files. *)
Theorem stored_value_is_read_back key data ttl metadata createdAt now w w1 :
  plain_key key = true -> key <> "index" ->
  no_buffer data = true -> unique_keys data = true ->
  set key data ttl metadata createdAt w = Ok tt w1 ->
  now <= createdAt + default (defaultTTL (this w)) ttl ->
  exists v w2,
    get key now w1 = Ok v w2
    /\ deep_equal data v = true
    /\ this w2 = this w1
    /\ files (fs w2) = files (fs w1).
Proof.
  intros _ Hkey Hnb Huk Hset Hnow.
  exists (revive data), (after_read (entry_path w1 key) w1).
  split_and!; [|by apply deep_equal_revive|done..].
  by apply (get_after_set_run key data ttl metadata createdAt now w w1).
Qed.

(* ===================================================================== *)
(** ** The further theorems at sample inputs                              *)
(* ===================================================================== *)

Lemma index_file_follows_index_witness : persisted after_sample_calls.
Proof.
  apply (index_file_follows_index sample_calls one_entry after_sample_calls).
  - vm_compute. reflexivity.
  - vm_compute. reflexivity.
Defined.

Lemma indexed_entry_is_served_witness :
  exists w2,
    get "b" 9 after_sample_calls = Ok (JNum 22222) w2
    /\ this w2 = this after_sample_calls
    /\ files (fs w2) = files (fs after_sample_calls).
Proof.
  apply (indexed_entry_is_served sample_calls one_entry after_sample_calls "b"
           (CacheEntry.mk "b" (JNum 22222) 5 1005 5 None) 9).
  - split.
    + apply (bool_decide_unpack _). by vm_compute.
    + repeat constructor; by vm_compute.
  - repeat constructor; by vm_compute.
  - vm_compute. reflexivity.
  - vm_compute. reflexivity.
  - vm_compute. discriminate.
Defined.

Lemma get_drops_unreadable_entry_witness :
  exists w1,
    get "a" 5 one_entry_payload_cut = Ok JNull w1
    /\ cacheIndex (this w1) = Map_delete "a" (cacheIndex (this one_entry_payload_cut))
    /\ Map_get "a" (cacheIndex (this w1)) = None
    /\ persisted w1.
Proof.
  apply (get_drops_unreadable_entry "a" 5 one_entry_payload_cut
           (CacheEntry.mk "a" (JNum 1) 0 1000 1 None)).
  - reflexivity.
  - apply (bool_decide_unpack _). by vm_compute.
  - vm_compute. reflexivity.
  - vm_compute. discriminate.
  - vm_compute. reflexivity.
Defined.

Lemma set_without_eviction_witness :
  exists w1,
    set "b" (JNum 22222) None None 5 one_entry = Ok tt w1
    /\ cacheIndex (this w1)
       = Map_set "b" (CacheEntry.mk "b" (JNum 22222) 5 (5 + 1000) 5 None)
           (cacheIndex (this one_entry))
    /\ ops_of (set "b" (JNum 22222) None None) 5 one_entry
       = [ OpWriteFile (entry_path one_entry "b") (JSON_stringify (JNum 22222));
           OpWriteFile (indexPath one_entry)
             (JSON_stringify_pretty (indexData (cacheIndex (this w1)))) ].
Proof.
  apply (set_without_eviction "b" (JNum 22222) None None 5 one_entry).
  vm_compute. discriminate.
Defined.

Lemma set_oversized_entry_evicts_all_witness :
  exists w1,
    set "c" (JStr "0123456789ab") None None 20 two_entries = Ok tt w1
    /\ cacheIndex (this w1)
       = [("c", CacheEntry.mk "c" (JStr "0123456789ab") 20 (20 + 1000) 14 None)]
    /\ total_size (cacheIndex (this w1)) > maxSize (this w1).
Proof.
  apply (set_oversized_entry_evicts_all "c" (JStr "0123456789ab") None None 20 two_entries).
  - split.
    + apply (bool_decide_unpack _). by vm_compute.
    + repeat constructor; by vm_compute.
  - repeat constructor; by vm_compute.
  - vm_compute. reflexivity.
Defined.

Lemma cleanup_keeps_exactly_live_witness :
  exists w1,
    cleanup 10 two_entries = Ok tt w1
    /\ cacheIndex (this w1) = live_entries 10 (cacheIndex (this two_entries))
    /\ maxSize (this w1) = maxSize (this two_entries)
    /\ defaultTTL (this w1) = defaultTTL (this two_entries)
    /\ (persisted two_entries -> persisted w1).
Proof.
  apply (cleanup_keeps_exactly_live 10 two_entries).
  apply (bool_decide_unpack _). by vm_compute.
Defined.

Lemma processJob_settles_witness :
  exists g' job',
    processJob quiet_env "job-1" (Template invoice_config) buffered_request 0
      both_submitted = Ok tt g'
    /\ Map_get "job-1" (jobs g') = Some job'
    /\ ((GenerationJob.status job' = completed
         /\ GenerationJob.progress job' = 100
         /\ is_Some (GenerationJob.result job')
         /\ GenerationJob.error job' = GenerationJob.error (started_job "job-1"))
        \/ (GenerationJob.status job' = failed
            /\ is_Some (GenerationJob.error job')
            /\ GenerationJob.result job' = GenerationJob.result (started_job "job-1")))
    /\ (forall id, id <> "job-1" -> Map_get id (jobs g') = Map_get id (jobs both_submitted)).
Proof.
  apply (processJob_settles quiet_env "job-1" (Template invoice_config) buffered_request 0
           both_submitted (started_job "job-1")).
  - vm_compute. reflexivity.
  - split; constructor.
  - vm_compute. reflexivity.
Defined.

Lemma invalid_data_fails_job_witness :
  exists g' job',
    processJob strict_env "job-1" (Template invoice_config) buffered_request 0
      both_submitted = Ok tt g'
    /\ Map_get "job-1" (jobs g') = Some job'
    /\ GenerationJob.status job' = failed
    /\ GenerationJob.error job'
       = Some ("Data validation failed: " ++ formatZodErrors [(["total"], "Required")])%string
    /\ GenerationJob.progress job' = 10
    /\ GenerationJob.result job' = GenerationJob.result (started_job "job-1")
    /\ cacheManager g' = cacheManager both_submitted
    /\ calls g' = calls both_submitted.
Proof.
  apply (invalid_data_fails_job strict_env "job-1" invoice_config buffered_request 0
           both_submitted (started_job "job-1") [(["total"], "Required")]).
  - vm_compute. reflexivity.
  - vm_compute. reflexivity.
Defined.

Lemma missing_browser_fails_job_witness :
  exists g' job' message,
    processJob quiet_env "job-1" (Template invoice_config) buffered_request 0
      without_browser = Ok tt g'
    /\ Map_get "job-1" (jobs g') = Some job'
    /\ GenerationJob.status job' = failed
    /\ GenerationJob.error job' = Some message
    /\ GenerationJob.result job' = GenerationJob.result (started_job "job-1")
    /\ cacheManager g' = default_store
    /\ (renders quiet_env invoice_config -> message = "Browser not initialized").
Proof.
  apply (missing_browser_fails_job quiet_env "job-1" invoice_config buffered_request 0
           without_browser (started_job "job-1") JNull default_store).
  - vm_compute. reflexivity.
  - vm_compute. reflexivity.
  - vm_compute. reflexivity.
  - vm_compute. reflexivity.
  - vm_compute. reflexivity.
Defined.


Lemma cached_result_is_first_output_witness :
  exists g2 r1 r2,
    processJob quiet_env "job-2" (Template invoice_config) buffered_request 1
      first_finished = Ok tt g2
    /\ option_map GenerationJob.result (Map_get "job-1" (jobs first_finished))
       = Some (Some r1)
    /\ option_map GenerationJob.result (Map_get "job-2" (jobs g2)) = Some (Some r2)
    /\ obj_get "pdfPath" (object_props r1)
       = Some (JStr (output_path both_submitted buffered_request "job-1"))
    /\ obj_get "pdfPath" (object_props r2)
       = Some (JStr (output_path both_submitted buffered_request "job-1"))
    /\ metadata_field r1 "version" = Some (JStr (TemplateConfig.version invoice_config))
    /\ metadata_field r2 "version" = Some (JStr "")
    /\ metadata_field r2 "generationTime" = Some (JNum 0).
Proof.
  apply (cached_result_is_first_output quiet_env invoice_config buffered_request
           "job-1" "job-2" 0 1 both_submitted first_finished
           (started_job "job-1") (started_job "job-2") JNull default_store).
  - vm_compute. reflexivity.
  - vm_compute. reflexivity.
  - vm_compute. reflexivity.
  - vm_compute. reflexivity.
  - vm_compute. reflexivity.
  - vm_compute. reflexivity.
  - vm_compute. discriminate.
Defined.

Lemma cancelJob_never_succeeds_witness :
  cancelJob "job-1" 1 after_submission = Ok false after_submission
  /\ listJobs (Some pending) 1 after_submission = Ok [] after_submission.
Proof.
  apply (cancelJob_never_succeeds quiet_env fresh_generator after_submission "job-1" 1).
  - reflexivity.
  - apply rtc_once, (step_generatePDF _ _ _ "job-1" buffered_request 0).
    vm_compute. reflexivity.
Defined.

Lemma cleanup_drops_expired_jobs_witness :
  exists g',
    ends_in (EnhancedPDFGenerator.cleanup None 100000000 after_first_job) g'
    /\ jobs g'
       = List.filter (fun kj => negb (job_expired 100000000 (snd kj))) (jobs after_first_job)
    /\ cacheIndex (this (cacheManager g'))
       = live_entries 100000000 (cacheIndex (this (cacheManager after_first_job)))
    /\ (EnhancedPDFGenerator.cleanup None 100000000 after_first_job = Ok tt g' ->
        browser g' = false)
    /\ (forall message,
          browser after_first_job = true -> None = Some message ->
          EnhancedPDFGenerator.cleanup None 100000000 after_first_job = Throw message g'
          /\ browser g' = true).
Proof.
  apply (cleanup_drops_expired_jobs None 100000000 after_first_job).
  - apply (bool_decide_unpack _). by vm_compute.
  - apply (bool_decide_unpack _). by vm_compute.
Defined.

Lemma stored_value_is_read_back_witness :
  exists v w2,
    get "k" 9 (world_after (set "k" invoice_data (Some 10) None) 0 default_store)
      = Ok v w2
    /\ deep_equal invoice_data v = true
    /\ this w2 = this (world_after (set "k" invoice_data (Some 10) None) 0 default_store)
    /\ files (fs w2)
       = files (fs (world_after (set "k" invoice_data (Some 10) None) 0 default_store)).
Proof.
  apply (stored_value_is_read_back "k" invoice_data (Some 10) None 0 9 default_store).
  - reflexivity.
  - discriminate.
  - vm_compute. reflexivity.
  - vm_compute. reflexivity.
  - vm_compute. reflexivity.
  - vm_compute. discriminate.
Defined.
